(** * The lexer of protocompile's [parser] package

    A shallow embedding of [parser/lexer.go]: the rune reader, the
    [protoLex] state, [Lex] with its literal decoders and the comment
    attributor [setPrevAndAddComments], and the properties of the lexer
    that the specification states.

    Go's [int], [rune] and [byte] values are integers of [Z]; a Go [string]
    and a [[]byte] are lists of bytes.  The parts of the Go standard library
    the lexer calls ([unicode/utf8], [strings], [strconv]) are modelled by
    their documented behaviour in the first modules; the [ast] and
    [reporter] packages, which the lexer imports, are modelled from the
    specification. *)

From Stdlib Require Import ZArith List String Ascii Bool Lia.
From Stdlib Require Import Strings.Byte.
From Stdlib Require Import Floats.SpecFloat.
Import ListNotations.
Local Open Scope Z_scope.

(** ** Rune literals

    ["a"%rune] is the code of the character, as Go's ['a']. *)

Definition rune_of_bytes (bs : list Byte.byte) : option Z :=
  match bs with
  | [b] => Some (Z.of_N (Byte.to_N b))
  | _ => None
  end.

Definition bytes_of_rune (z : Z) : option (list Byte.byte) :=
  match z with
  | Zneg _ => None
  | _ => match Byte.of_N (Z.to_N z) with
         | Some b => Some [b]
         | None => None
         end
  end.

Declare Scope rune_scope.
Delimit Scope rune_scope with rune.
String Notation Z rune_of_bytes bytes_of_rune : rune_scope.

(** ** Go strings *)

(** A Go string is a sequence of bytes. *)
Definition gostring : Type := list Z.

Fixpoint bytes_of_string (s : string) : gostring :=
  match s with
  | EmptyString => []
  | String c s' => Z.of_N (N_of_ascii c) :: bytes_of_string s'
  end.

Fixpoint string_of_bytes (b : gostring) : string :=
  match b with
  | [] => EmptyString
  | c :: b' => String (ascii_of_N (Z.to_N c)) (string_of_bytes b')
  end.

Fixpoint gostring_eqb (a b : gostring) : bool :=
  match a, b with
  | [], [] => true
  | x :: a', y :: b' => (x =? y) && gostring_eqb a' b'
  | _, _ => false
  end.

(** [s[i:]] and [s[i:j]]. *)
Definition slice_from {A} (s : list A) (i : Z) : list A := skipn (Z.to_nat i) s.
Definition slice {A} (s : list A) (i j : Z) : list A :=
  firstn (Z.to_nat (j - i)) (skipn (Z.to_nat i) s).
Definition len {A} (s : list A) : Z := Z.of_nat (List.length s).

(** ** unicode/utf8 *)
Module utf8.

Definition RuneError : Z := 0xFFFD.
Definition MaxRune : Z := 0x10FFFF.
Definition RuneSelf : Z := 0x80.

(** [utf8.DecodeRune]: the first rune of [p] and its width; an empty [p]
    gives [(RuneError, 0)], an ill-formed encoding [(RuneError, 1)]. *)
Definition DecodeRune (p : list Z) : Z * Z :=
  match p with
  | [] => (RuneError, 0)
  | p0 :: t =>
    if p0 <? 0x80 then (p0, 1)
    else if (p0 <? 0xC2) || (0xF4 <? p0) then (RuneError, 1)
    else
      let sz := if p0 <? 0xE0 then 2 else if p0 <? 0xF0 then 3 else 4 in
      let lo := if p0 =? 0xE0 then 0xA0 else if p0 =? 0xF0 then 0x90 else 0x80 in
      let hi := if p0 =? 0xED then 0x9F else if p0 =? 0xF4 then 0x8F else 0xBF in
      if len p <? sz then (RuneError, 1)
      else
        match t with
        | [] => (RuneError, 1)
        | b1 :: t1 =>
          if (b1 <? lo) || (hi <? b1) then (RuneError, 1)
          else if sz <=? 2 then
            (Z.lor (Z.shiftl (Z.land p0 0x1F) 6) (Z.land b1 0x3F), 2)
          else
            match t1 with
            | [] => (RuneError, 1)
            | b2 :: t2 =>
              if (b2 <? 0x80) || (0xBF <? b2) then (RuneError, 1)
              else if sz <=? 3 then
                (Z.lor (Z.lor (Z.shiftl (Z.land p0 0x0F) 12)
                              (Z.shiftl (Z.land b1 0x3F) 6))
                       (Z.land b2 0x3F), 3)
              else
                match t2 with
                | [] => (RuneError, 1)
                | b3 :: _ =>
                  if (b3 <? 0x80) || (0xBF <? b3) then (RuneError, 1)
                  else
                    (Z.lor (Z.lor (Z.lor (Z.shiftl (Z.land p0 0x07) 18)
                                         (Z.shiftl (Z.land b1 0x3F) 12))
                                  (Z.shiftl (Z.land b2 0x3F) 6))
                           (Z.land b3 0x3F), 4)
                end
            end
        end
  end.

(** [utf8.AppendRune(nil, r)]: the encoding of [r]; a rune out of range
    or a surrogate half is encoded as [RuneError].  [r] is read as a
    [uint32], so a negative rune is out of range. *)
Definition enc3 (r : Z) : list Z :=
  [Z.lor 0xE0 (Z.shiftr r 12);
   Z.lor 0x80 (Z.land (Z.shiftr r 6) 0x3F);
   Z.lor 0x80 (Z.land r 0x3F)].

Definition EncodeRune (r : Z) : list Z :=
  let i := r mod 2 ^ 32 in
  if i <=? 0x7F then [i]
  else if i <=? 0x7FF then
    [Z.lor 0xC0 (Z.shiftr i 6); Z.lor 0x80 (Z.land i 0x3F)]
  else if (MaxRune <? i) || ((0xD800 <=? i) && (i <=? 0xDFFF)) then enc3 RuneError
  else if i <=? 0xFFFF then enc3 i
  else
    [Z.lor 0xF0 (Z.shiftr i 18);
     Z.lor 0x80 (Z.land (Z.shiftr i 12) 0x3F);
     Z.lor 0x80 (Z.land (Z.shiftr i 6) 0x3F);
     Z.lor 0x80 (Z.land i 0x3F)].

(** [string(rs)] for [rs []rune]. *)
Definition string_of_runes (rs : list Z) : gostring := flat_map EncodeRune rs.

End utf8.

(** ** strings *)
Module strings.

(** [strings.HasPrefix]. *)
Fixpoint HasPrefix (s prefix : gostring) : bool :=
  match prefix, s with
  | [], _ => true
  | p :: prefix', c :: s' => (c =? p) && HasPrefix s' prefix'
  | _ :: _, [] => false
  end.

(** [strings.Contains]. *)
Fixpoint Contains (s substr : gostring) : bool :=
  HasPrefix s substr ||
  match s with
  | [] => false
  | _ :: s' => Contains s' substr
  end.

(** Whether some rune of [s], read as [for _, r := range s], is
    [RuneError]. *)
Fixpoint hasRuneError (fuel : nat) (s : gostring) : bool :=
  match fuel, s with
  | O, _ | _, [] => false
  | S fuel', _ :: _ =>
    let '(r, sz) := utf8.DecodeRune s in
    (r =? utf8.RuneError) || hasRuneError fuel' (slice_from s sz)
  end.

(** [strings.ContainsRune], that is [IndexRune(s, r) >= 0]: a byte
    search for an ASCII rune, a search for the first ill-formed or
    replacement rune for [RuneError], nothing for an invalid rune, and a
    search for the encoding otherwise. *)
Definition ContainsRune (s : gostring) (r : Z) : bool :=
  if (0 <=? r) && (r <? utf8.RuneSelf) then existsb (Z.eqb r) s
  else if r =? utf8.RuneError then hasRuneError (List.length s) s
  else if (r <? 0) || (utf8.MaxRune <? r) || ((0xD800 <=? r) && (r <=? 0xDFFF))
  then false
  else Contains s (utf8.EncodeRune r).

End strings.

(** ** Errors *)

(** [strconv.ErrSyntax] and [strconv.ErrRange]. *)
Inductive NumErrKind : Type := ErrSyntax | ErrRange.

(** An operand of a [fmt] verb. *)
Inductive fmt_arg : Type :=
| ArgS (s : gostring)   (* %s *)
| ArgQ (s : gostring)   (* %q *)
| ArgD (z : Z)          (* %d *)
| ArgX (z : Z).         (* %x *)

(** The [error] values the lexer makes or receives.  A [fmt.Errorf] value
    keeps its format and operands. *)
Inductive error : Type :=
| io_EOF
| io_ErrUnexpectedEOF
| errors_New (msg : string)
| fmt_Errorf (format : string) (args : list fmt_arg)
| strconv_NumError (Func : string) (Num : gostring) (Err : NumErrKind).

(** [fmt.Sprintf] for the verb [%s]; a format with another verb is not
    rendered. *)
Fixpoint Sprintf (format : string) (args : list fmt_arg) : option string :=
  match format with
  | EmptyString => Some EmptyString
  | String "%" (String "s" rest) =>
    match args with
    | ArgS s :: args' =>
      option_map (append (string_of_bytes s)) (Sprintf rest args')
    | _ => None
    end
  | String "%" _ => None
  | String c rest => option_map (String c) (Sprintf rest args)
  end.

(** [err.Error()], where it is a fixed text or a [%s] format. *)
Definition Error (e : error) : option string :=
  match e with
  | io_EOF => Some "EOF"%string
  | io_ErrUnexpectedEOF => Some "unexpected EOF"%string
  | errors_New msg => Some msg
  | fmt_Errorf format args => Sprintf format args
  | strconv_NumError _ _ _ => None
  end.

(** ** strconv: integers *)
Module strconv.

(** [lower(c)] is [c | ('x' - 'X')]. *)
Definition lower (c : Z) : Z := Z.lor c 0x20.

Definition maxUint64 : Z := 2 ^ 64 - 1.

Definition syntaxError (fn : string) (s : gostring) : error :=
  strconv_NumError fn s ErrSyntax.
Definition rangeError (fn : string) (s : gostring) : error :=
  strconv_NumError fn s ErrRange.

(** The value of a digit, when [c] is one. *)
Definition digitVal (c : Z) : option Z :=
  if ("0"%rune <=? c) && (c <=? "9"%rune) then Some (c - "0"%rune)
  else if ("a"%rune <=? lower c) && (lower c <=? "z"%rune)
       then Some ((lower c - "a"%rune + 10) mod 256)
  else None.

(** The loop of [ParseUint] for a base that is not 0, where an
    underscore is no digit. *)
Fixpoint ParseUint_loop (s : gostring) (base cutoff maxVal n : Z)
  : Z * option NumErrKind :=
  match s with
  | [] => (n, None)
  | c :: s' =>
    match digitVal c with
    | None => (0, Some ErrSyntax)
    | Some d =>
      if d >=? base then (0, Some ErrSyntax)
      else if n >=? cutoff then (maxVal, Some ErrRange)
      else
        let n' := (n * base) mod 2 ^ 64 in
        let n1 := (n' + d) mod 2 ^ 64 in
        if (n1 <? n') || (maxVal <? n1) then (maxVal, Some ErrRange)
        else ParseUint_loop s' base cutoff maxVal n1
    end
  end.

(** [strconv.ParseUint(s, base, bitSize)] for [2 <= base <= 36] and
    [1 <= bitSize <= 64]. *)
Definition ParseUint (s : gostring) (base bitSize : Z) : Z * option error :=
  match s with
  | [] => (0, Some (syntaxError "ParseUint" s))
  | _ =>
    let cutoff := maxUint64 / base + 1 in
    let maxVal := 2 ^ bitSize - 1 in
    match ParseUint_loop s base cutoff maxVal 0 with
    | (n, None) => (n, None)
    | (n, Some k) => (n, Some (strconv_NumError "ParseUint" s k))
    end
  end.

(** [strconv.ParseInt(s, base, bitSize)], same bases and sizes. *)
Definition ParseInt (s0 : gostring) (base bitSize : Z) : Z * option error :=
  match s0 with
  | [] => (0, Some (syntaxError "ParseInt" s0))
  | c :: s' =>
    let neg := c =? "-"%rune in
    let s := if (c =? "+"%rune) || (c =? "-"%rune) then s' else s0 in
    let '(un, err) := ParseUint s base bitSize in
    let notRange :=
      match err with
      | Some (strconv_NumError _ _ ErrRange) => false
      | Some _ => true
      | None => false
      end in
    if notRange then (0, Some (syntaxError "ParseInt" s0))
    else
      let cutoff := 2 ^ (bitSize - 1) in
      if negb neg && (un >=? cutoff) then (cutoff - 1, Some (rangeError "ParseInt" s0))
      else if neg && (un >? cutoff) then (- cutoff, Some (rangeError "ParseInt" s0))
      else (if neg then - un else un, None)
  end.

End strconv.

(** ** math and strconv: 64-bit floats

    A [float64] is an IEEE-754 binary64 value in the representation of the
    standard library's [SpecFloat]: precision 53, infinities at exponent
    1024. *)

Definition float64 : Type := spec_float.

Module math.

(** [math.Inf(sign)]. *)
Definition Inf (sign : Z) : float64 := S754_infinity (sign <? 0).

(** [math.IsInf(f, sign)]. *)
Definition IsInf (f : float64) (sign : Z) : bool :=
  match f with
  | S754_infinity s =>
    if sign >? 0 then negb s else if sign <? 0 then s else true
  | _ => false
  end.

End math.

Module atof.

Import strconv.

Definition prec : Z := 53.
Definition emax : Z := 1024.

(** [commonPrefixLenIgnoreCase(s, prefix)], [prefix] in lower case. *)
Fixpoint commonPrefixLenIgnoreCase (s prefix : gostring) : Z :=
  match s, prefix with
  | c :: s', p :: prefix' =>
    let c := if ("A"%rune <=? c) && (c <=? "Z"%rune) then c + 32 else c in
    if c =? p then 1 + commonPrefixLenIgnoreCase s' prefix' else 0
  | _, _ => 0
  end.

(** [special(s)]: a leading infinity or NaN and the bytes it takes. *)
Definition special (s : gostring) : option (float64 * Z) :=
  let infinity (sign nsign : Z) (s1 : gostring) :=
    let n := commonPrefixLenIgnoreCase s1 (bytes_of_string "infinity") in
    let n := if (3 <? n) && (n <? 8) then 3 else n in
    if (n =? 3) || (n =? 8) then Some (math.Inf sign, nsign + n) else None in
  match s with
  | [] => None
  | c :: s' =>
    if (c =? "+"%rune) || (c =? "-"%rune)
    then infinity (if c =? "-"%rune then -1 else 1) 1 s'
    else if (c =? "i"%rune) || (c =? "I"%rune) then infinity 1 0 s
    else if (c =? "n"%rune) || (c =? "N"%rune) then
      if commonPrefixLenIgnoreCase s (bytes_of_string "nan") =? 3
      then Some (S754_nan, 3) else None
    else None
  end.

(** [underscoreOK(s)]: underscores only between digits, or between a
    base prefix and a digit.  [saw] is the class of the last byte:
    ["^"] the start, ["0"] a digit, ["_"] an underscore, ["!"] another. *)
Fixpoint underscoreOK_loop (hex : bool) (saw : Z) (s : gostring) : bool :=
  match s with
  | [] => negb (saw =? "_"%rune)
  | c :: s' =>
    if (("0"%rune <=? c) && (c <=? "9"%rune))
       || (hex && ("a"%rune <=? lower c) && (lower c <=? "f"%rune))
    then underscoreOK_loop hex "0"%rune s'
    else if c =? "_"%rune then
      if negb (saw =? "0"%rune) then false
      else underscoreOK_loop hex "_"%rune s'
    else if saw =? "_"%rune then false
    else underscoreOK_loop hex "!"%rune s'
  end.

Definition underscoreOK (s : gostring) : bool :=
  let s := match s with
           | c :: s' => if (c =? "-"%rune) || (c =? "+"%rune) then s' else s
           | [] => s
           end in
  match s with
  | c0 :: c1 :: s' =>
    if (c0 =? "0"%rune)
       && ((lower c1 =? "b"%rune) || (lower c1 =? "o"%rune) || (lower c1 =? "x"%rune))
    then underscoreOK_loop (lower c1 =? "x"%rune) "0"%rune s'
    else underscoreOK_loop false "^"%rune s
  | _ => underscoreOK_loop false "^"%rune s
  end.

(** What [readFloat] has seen of the mantissa.  Go keeps the first 19
    digits (16 in base 16) and a truncation flag; here the mantissa is
    kept whole, as the exact decimal that decides the rounding. *)
Record mantissa : Type := {
  m_val : Z;            (* the digits read, leading zeros dropped *)
  m_nd : Z;             (* how many *)
  m_dp : Z;             (* the point, counted from the first digit *)
  m_sawdot : bool;
  m_sawdigits : bool;
  m_underscores : bool;
  m_i : Z               (* bytes consumed *)
}.

(** The digit loop of [readFloat]; returns the unread rest. *)
Fixpoint readMantissa (base : Z) (s : gostring) (m : mantissa)
  : mantissa * gostring :=
  match s with
  | [] => (m, [])
  | c :: s' =>
    let next (m' : mantissa) :=
      readMantissa base s'
        {| m_val := m_val m'; m_nd := m_nd m'; m_dp := m_dp m';
           m_sawdot := m_sawdot m'; m_sawdigits := m_sawdigits m';
           m_underscores := m_underscores m'; m_i := m_i m + 1 |} in
    if c =? "_"%rune then
      next {| m_val := m_val m; m_nd := m_nd m; m_dp := m_dp m;
              m_sawdot := m_sawdot m; m_sawdigits := m_sawdigits m;
              m_underscores := true; m_i := m_i m |}
    else if c =? "."%rune then
      if m_sawdot m then (m, s)
      else next {| m_val := m_val m; m_nd := m_nd m; m_dp := m_nd m;
                   m_sawdot := true; m_sawdigits := m_sawdigits m;
                   m_underscores := m_underscores m; m_i := m_i m |}
    else if ("0"%rune <=? c) && (c <=? "9"%rune) then
      if (c =? "0"%rune) && (m_nd m =? 0) then
        next {| m_val := m_val m; m_nd := m_nd m; m_dp := m_dp m - 1;
                m_sawdot := m_sawdot m; m_sawdigits := true;
                m_underscores := m_underscores m; m_i := m_i m |}
      else
        next {| m_val := m_val m * base + (c - "0"%rune); m_nd := m_nd m + 1;
                m_dp := m_dp m;
                m_sawdot := m_sawdot m; m_sawdigits := true;
                m_underscores := m_underscores m; m_i := m_i m |}
    else if (base =? 16) && ("a"%rune <=? lower c) && (lower c <=? "f"%rune) then
      next {| m_val := m_val m * 16 + (lower c - "a"%rune + 10); m_nd := m_nd m + 1;
              m_dp := m_dp m;
              m_sawdot := m_sawdot m; m_sawdigits := true;
              m_underscores := m_underscores m; m_i := m_i m |}
    else (m, s)
  end.

(** The digits of the exponent: the value, capped as Go caps it, whether
    an underscore was seen, the bytes consumed. *)
Fixpoint readExponent (s : gostring) (e : Z) (us : bool) (i : Z)
  : Z * bool * Z :=
  match s with
  | c :: s' =>
    if c =? "_"%rune then readExponent s' e true (i + 1)
    else if ("0"%rune <=? c) && (c <=? "9"%rune) then
      readExponent s' (if e <? 10000 then e * 10 + (c - "0"%rune) else e) us (i + 1)
    else (e, us, i)
  | [] => (e, us, i)
  end.

(** The result of [readFloat] when it is [ok]. *)
Record scanned : Type := {
  sc_neg : bool;
  sc_hex : bool;
  sc_mant : Z;     (* the mantissa, exact *)
  sc_nd : Z;       (* its digits *)
  sc_dp : Z;       (* the point, after the exponent is applied *)
  sc_n : Z         (* bytes consumed *)
}.

(** [readFloat(s)]; [None] when it is not [ok]. *)
Definition readFloat (s : gostring) : option scanned :=
  match s with
  | [] => None
  | c :: s' =>
    let neg := c =? "-"%rune in
    let '(s1, i0) := if (c =? "+"%rune) || (c =? "-"%rune) then (s', 1) else (s, 0) in
    let hex := match s1 with
               | c0 :: c1 :: _ :: _ => (c0 =? "0"%rune) && (lower c1 =? "x"%rune)
               | _ => false
               end in
    let base := if hex then 16 else 10 in
    let expChar := if hex then "p"%rune else "e"%rune in
    let '(s2, i1) := if hex then (slice_from s1 2, i0 + 2) else (s1, i0) in
    let '(m, s3) :=
      readMantissa base s2
        {| m_val := 0; m_nd := 0; m_dp := 0; m_sawdot := false;
           m_sawdigits := false; m_underscores := false; m_i := i1 |} in
    if negb (m_sawdigits m) then None
    else
      let dp := if m_sawdot m then m_dp m else m_nd m in
      let dp := if hex then dp * 4 else dp in
      let nd := if hex then m_nd m * 4 else m_nd m in
      let finish (dp : Z) (us : bool) (i : Z) :=
        if us && negb (underscoreOK (slice s 0 i)) then None
        else Some {| sc_neg := neg; sc_hex := hex; sc_mant := m_val m;
                     sc_nd := nd; sc_dp := dp; sc_n := i |} in
      match s3 with
      | c :: s4 =>
        if lower c =? expChar then
          match s4 with
          | [] => None
          | c' :: s5 =>
            let '(esign, s6, i2) :=
              if c' =? "+"%rune then (1, s5, m_i m + 2)
              else if c' =? "-"%rune then (-1, s5, m_i m + 2)
              else (1, s4, m_i m + 1) in
            match s6 with
            | d :: _ =>
              if (d <? "0"%rune) || ("9"%rune <? d) then None
              else
                let '(e, us, i3) := readExponent s6 0 (m_underscores m) i2 in
                finish (dp + e * esign) us i3
            | [] => None
            end
          end
        else if hex then None
        else finish dp (m_underscores m) (m_i m)
      | [] => if hex then None else finish dp (m_underscores m) (m_i m)
      end
  end.

(** The binary64 value nearest to [m * 10^e10], ties to even, for
    [m > 0]; infinite when it is out of range. *)
Definition round_decimal (m : positive) (e10 : Z) : float64 :=
  if 0 <=? e10
  then binary_normalize prec emax (Zpos m * 10 ^ e10) 0 false
  else SFdiv prec emax (S754_finite false m 0)
                       (S754_finite false (Z.to_pos (10 ^ (- e10))) 0).

(** The value of what was scanned and whether it overflowed.  A decimal
    whose point lies more than 310 places right of its first digit
    overflows, one whose point lies more than 330 places to the left is
    zero. *)
Definition floatBits (sc : scanned) : float64 * bool :=
  let sign (f : float64) := if sc_neg sc then SFopp f else f in
  match sc_mant sc with
  | Zpos m =>
    let f :=
      if sc_hex sc then binary_normalize prec emax (Zpos m) (sc_dp sc - sc_nd sc) false
      else if sc_dp sc >? 310 then S754_infinity false
      else if sc_dp sc <? -330 then S754_zero false
      else round_decimal m (sc_dp sc - sc_nd sc) in
    (sign f, match f with S754_infinity _ => true | _ => false end)
  | _ => (sign (S754_zero false), false)
  end.

(** [parseFloatPrefix(s, 64)]: value, bytes consumed, error. *)
Definition parseFloatPrefix (s : gostring) : float64 * Z * option error :=
  match special s with
  | Some (f, n) => (f, n, None)
  | None =>
    match readFloat s with
    | None => (S754_zero false, 0, Some (syntaxError "ParseFloat" s))
    | Some sc =>
      let '(f, ovf) := floatBits sc in
      (f, sc_n sc, if ovf then Some (rangeError "ParseFloat" s) else None)
    end
  end.

(** [strconv.ParseFloat(s, 64)]. *)
Definition ParseFloat (s : gostring) : float64 * option error :=
  let '(f, n, err) := parseFloatPrefix s in
  let isSyntax := match err with
                  | Some (strconv_NumError _ _ ErrSyntax) => true
                  | _ => false
                  end in
  if negb (n =? len s) && negb isSyntax
  then (S754_zero false, Some (syntaxError "ParseFloat" s))
  else (f, err).

End atof.

(** ** State, panics and loops

    The lexer threads a reader and its own state through every call, and
    [unreadRune] can panic: a computation over a state [St] returns a value
    and the next state, or panics.  A [for] loop is run with a bound on
    its iterations, which the loops of the lexer never reach
    ([OutOfFuel]). *)

Inductive result (St A : Type) : Type :=
| Ok (a : A) (s : St)
| Panic (msg : string)
| OutOfFuel.
Arguments Ok {St A} a s.
Arguments Panic {St A} msg.
Arguments OutOfFuel {St A}.

Definition M (St A : Type) : Type := St -> result St A.

Definition ret {St A} (a : A) : M St A := fun s => Ok a s.

Definition bind {St A B} (m : M St A) (k : A -> M St B) : M St B :=
  fun s => match m s with
           | Ok a s' => k a s'
           | Panic msg => Panic msg
           | OutOfFuel => OutOfFuel
           end.

Definition get {St} : M St St := fun s => Ok s s.
Definition put {St} (s : St) : M St unit := fun _ => Ok tt s.
Definition modify {St} (f : St -> St) : M St unit := fun s => Ok tt (f s).
Definition panic {St A} (msg : string) : M St A := fun _ => Panic msg.

Declare Scope lex_scope.
Delimit Scope lex_scope with lex.
Notation "x <- m ;; k" := (bind m (fun x => k))
  (at level 61, m at next level, right associativity) : lex_scope.
Notation "' pat <- m ;; k" := (bind m (fun x => match x with pat => k end))
  (at level 61, pat pattern, m at next level, right associativity) : lex_scope.
Notation "m ;; k" := (bind m (fun _ => k))
  (at level 61, right associativity) : lex_scope.
Local Open Scope lex_scope.

(** [for { body }] with loop variables [v]: the body either goes round
    again with new variables or leaves the loop with a value. *)
Fixpoint loop {St V A} (fuel : nat) (body : V -> M St (V + A)) (v : V) : M St A :=
  match fuel with
  | O => fun _ => OutOfFuel
  | S fuel' =>
    r <- body v ;;
    match r with
    | inl v' => loop fuel' body v'
    | inr a => ret a
    end
  end.

(** ** The rune reader *)

Record runeReader : Type := {
  data : list Z;
  pos : Z;
  err : option error;
  mark : Z
}.

Definition R (A : Type) : Type := M runeReader A.

Definition readRune : R (Z * Z * option error) :=
  rr <- get ;;
  match err rr with
  | Some e => ret (0, 0, Some e)
  | None =>
    if pos rr =? len (data rr) then
      put {| data := data rr; pos := pos rr; err := Some io_EOF; mark := mark rr |} ;;
      ret (0, 0, Some io_EOF)
    else
      let '(r, sz) := utf8.DecodeRune (slice_from (data rr) (pos rr)) in
      if r =? utf8.RuneError then
        let e := fmt_Errorf "invalid UTF8 at offset %d: %x"
                   [ArgD (pos rr); ArgX (nth (Z.to_nat (pos rr)) (data rr) 0)] in
        put {| data := data rr; pos := pos rr; err := Some e; mark := mark rr |} ;;
        ret (0, 0, Some e)
      else
        put {| data := data rr; pos := pos rr + sz; err := None; mark := mark rr |} ;;
        ret (r, sz, None)
  end.

Definition offset : R Z := rr <- get ;; ret (pos rr).

Definition unreadRune (sz : Z) : R unit :=
  rr <- get ;;
  let newPos := pos rr - sz in
  if newPos <? mark rr then panic "unread past mark"
  else put {| data := data rr; pos := newPos; err := err rr; mark := mark rr |}.

Definition setMark : R unit :=
  modify (fun rr => {| data := data rr; pos := pos rr; err := err rr; mark := pos rr |}).

Definition getMark : R gostring :=
  rr <- get ;; ret (slice (data rr) (mark rr) (pos rr)).

(** ** The [ast] package: tokens, file info, terminal nodes *)
Module ast.

(** A token is its index in the token table. *)
Definition Token : Type := Z.

(** Modelled from the spec: [ast.SourcePos], of which the lexer reads
    the line; the column is left out. *)
Record SourcePos : Type := { Offset : Z; Line : Z }.

(** Modelled from the spec: [ast.FileInfo], with the file name, the
    bytes, the line-start offsets, the token table (offset and length of
    every token) and the comment attachments (comment, owner) in the
    order of the [AddComment] calls. *)
Record FileInfo : Type := {
  name : string;
  data : list Z;
  lines : list Z;
  tokens : list (Z * Z);
  comments : list (Token * Token)
}.

(** Modelled from the spec: [ast.NewFileInfo]; the line starts begin
    with offset 0. *)
Definition NewFileInfo (filename : string) (contents : list Z) : FileInfo :=
  {| name := filename; data := contents; lines := [0]; tokens := [];
     comments := [] |}.

(** Modelled from the spec: [AddLine(offsetAfterNewline)] appends a line
    start. *)
Definition AddLine (f : FileInfo) (off : Z) : FileInfo :=
  {| name := name f; data := data f; lines := lines f ++ [off];
     tokens := tokens f; comments := comments f |}.

(** Modelled from the spec: [AddToken(offset, length)] appends to the
    token table and returns the new token, the next index. *)
Definition AddToken (f : FileInfo) (off length : Z) : Token * FileInfo :=
  (len (tokens f),
   {| name := name f; data := data f; lines := lines f;
      tokens := tokens f ++ [(off, length)]; comments := comments f |}).

(** Modelled from the spec: [AddComment(comment, attributedTo)] records
    the owner of a comment. *)
Definition AddComment (f : FileInfo) (comment attributedTo : Token) : FileInfo :=
  {| name := name f; data := data f; lines := lines f; tokens := tokens f;
     comments := comments f ++ [(comment, attributedTo)] |}.

(** Modelled from the spec: [SourcePos(offset)], the 1-based line being
    the number of line starts at or before the offset, which is what the
    binary search over the sorted line starts finds. *)
Definition SourcePos_of (f : FileInfo) (off : Z) : SourcePos :=
  {| Offset := off;
     Line := len (filter (fun start => start <=? off) (lines f)) |}.

(** Modelled from the spec: the span of a token or node in its file,
    [ast.NodeInfo], with its [Start], [End] and [RawText].  [End] is the
    open end of the range [[start, end)]: it lies on the line of the last
    byte of the span, and of the start when the span is empty. *)
Record NodeInfo : Type := {
  fileInfo : FileInfo;
  span_offset : Z;
  span_length : Z
}.

Definition Start (n : NodeInfo) : SourcePos :=
  SourcePos_of (fileInfo n) (span_offset n).

Definition End (n : NodeInfo) : SourcePos :=
  let last := if span_length n >? 0
              then span_offset n + span_length n - 1
              else span_offset n in
  {| Offset := span_offset n + span_length n;
     Line := Line (SourcePos_of (fileInfo n) last) |}.

Definition RawText (n : NodeInfo) : gostring :=
  slice (data (fileInfo n)) (span_offset n) (span_offset n + span_length n).

(** Modelled from the spec: [TokenInfo(t)], the span of token [t]. *)
Definition TokenInfo (f : FileInfo) (t : Token) : NodeInfo :=
  let '(off, length) := nth (Z.to_nat t) (tokens f) (0, 0) in
  {| fileInfo := f; span_offset := off; span_length := length |}.

(** Modelled from the spec: the terminal nodes, each with its token and,
    for a literal, its decoded value. *)
Inductive TerminalNode : Type :=
| StringLiteralNode (val : gostring) (t : Token)
| IdentNode (val : gostring) (t : Token)
| UintLiteralNode (val : Z) (t : Token)
| FloatLiteralNode (val : float64) (t : Token)
| RuneNode (rune : Z) (t : Token).

Definition NewStringLiteralNode := StringLiteralNode.
Definition NewIdentNode := IdentNode.
Definition NewUintLiteralNode := UintLiteralNode.
Definition NewFloatLiteralNode := FloatLiteralNode.
Definition NewRuneNode := RuneNode.

(** [n.Token()]. *)
Definition Token_of (n : TerminalNode) : Token :=
  match n with
  | StringLiteralNode _ t | IdentNode _ t | UintLiteralNode _ t
  | FloatLiteralNode _ t | RuneNode _ t => t
  end.

(** Modelled from the spec: [NodeInfo(n)] for a terminal node, the span
    of its token. *)
Definition NodeInfo_of (f : FileInfo) (n : TerminalNode) : NodeInfo :=
  TokenInfo f (Token_of n).

End ast.

(** ** The [reporter] package *)
Module reporter.

(** Modelled from the spec: an error with its source position. *)
Record ErrorWithPos : Type := {
  GetPosition : ast.SourcePos;
  Unwrap : error
}.

(** [reporter.Error(pos, err)]. *)
Definition Error (pos : ast.SourcePos) (e : error) : ErrorWithPos :=
  {| GetPosition := pos; Unwrap := e |}.

(** Modelled from the spec: the diagnostic handler.  [report] is the
    caller's policy: [None] to keep going, an error to stop.  [failed]
    is the sticky error, set once the policy has decided to stop. *)
Record Handler : Type := {
  report : ErrorWithPos -> option error;
  failed : option error
}.

Definition NewHandler (rep : ErrorWithPos -> option error) : Handler :=
  {| report := rep; failed := None |}.

(** Modelled from the spec: [HandleError(posErr)]. *)
Definition HandleError (h : Handler) (e : ErrorWithPos) : option error * Handler :=
  match failed h with
  | Some x => (Some x, h)
  | None =>
    match report h e with
    | Some x => (Some x, {| report := report h; failed := Some x |})
    | None => (None, h)
    end
  end.

(** Modelled from the spec: [ReporterError()]. *)
Definition ReporterError (h : Handler) : option error := failed h.

End reporter.

(** ** The lexer state *)

(** The token kinds [Lex] returns as an [int]: the constants of the
    generated parser, and [TK c] for an [int] returned as it is (0 at the
    end of the input, [int(c)] for a rune). *)
Inductive symbol : Type :=
| TK (c : Z)
| _ERROR | _NAME | _INT_LIT | _FLOAT_LIT | _STRING_LIT
| _SYNTAX | _IMPORT | _WEAK | _PUBLIC | _PACKAGE | _OPTION | _TRUE | _FALSE
| _INF | _NAN | _REPEATED | _OPTIONAL | _REQUIRED | _DOUBLE | _FLOAT
| _INT32 | _INT64 | _UINT32 | _UINT64 | _SINT32 | _SINT64 | _FIXED32
| _FIXED64 | _SFIXED32 | _SFIXED64 | _BOOL | _STRING | _BYTES | _GROUP
| _ONEOF | _MAP | _EXTENSIONS | _TO | _MAX | _RESERVED | _ENUM | _MESSAGE
| _EXTEND | _SERVICE | _RPC | _STREAM | _RETURNS.

(** The fields of [protoSymType] the lexer sets. *)
Record protoSymType : Type := {
  sym_s : option ast.TerminalNode;
  sym_id : option ast.TerminalNode;
  sym_i : option ast.TerminalNode;
  sym_f : option ast.TerminalNode;
  sym_b : option ast.TerminalNode;
  sym_err : option reporter.ErrorWithPos
}.

Definition empty_sym : protoSymType :=
  {| sym_s := None; sym_id := None; sym_i := None; sym_f := None;
     sym_b := None; sym_err := None |}.

Record protoLex : Type := {
  input : runeReader;
  info : ast.FileInfo;
  handler : reporter.Handler;
  prevSym : option ast.TerminalNode;
  prevOffset : Z;
  eof : ast.Token;
  comments : list ast.Token
}.

Definition L (A : Type) : Type := M protoLex A.

Definition set_input (l : protoLex) (rr : runeReader) : protoLex :=
  {| input := rr; info := info l; handler := handler l; prevSym := prevSym l;
     prevOffset := prevOffset l; eof := eof l; comments := comments l |}.
Definition set_info (l : protoLex) (f : ast.FileInfo) : protoLex :=
  {| input := input l; info := f; handler := handler l; prevSym := prevSym l;
     prevOffset := prevOffset l; eof := eof l; comments := comments l |}.
Definition set_handler (l : protoLex) (h : reporter.Handler) : protoLex :=
  {| input := input l; info := info l; handler := h; prevSym := prevSym l;
     prevOffset := prevOffset l; eof := eof l; comments := comments l |}.
Definition set_prevSym (l : protoLex) (n : option ast.TerminalNode) : protoLex :=
  {| input := input l; info := info l; handler := handler l; prevSym := n;
     prevOffset := prevOffset l; eof := eof l; comments := comments l |}.
Definition set_prevOffset (l : protoLex) (o : Z) : protoLex :=
  {| input := input l; info := info l; handler := handler l; prevSym := prevSym l;
     prevOffset := o; eof := eof l; comments := comments l |}.
Definition set_eof (l : protoLex) (t : ast.Token) : protoLex :=
  {| input := input l; info := info l; handler := handler l; prevSym := prevSym l;
     prevOffset := prevOffset l; eof := t; comments := comments l |}.
Definition set_comments (l : protoLex) (cs : list ast.Token) : protoLex :=
  {| input := input l; info := info l; handler := handler l; prevSym := prevSym l;
     prevOffset := prevOffset l; eof := eof l; comments := cs |}.

(** A call on [l.input]. *)
Definition on_input {A} (m : R A) : L A :=
  fun l => match m (input l) with
           | Ok a rr => Ok a (set_input l rr)
           | Panic msg => Panic msg
           | OutOfFuel => OutOfFuel
           end.

Definition utf8Bom : list Z := [0xEF; 0xBB; 0xBF].

(** [newLexer] on the bytes the reader [in] yields. *)
Definition newLexer (contents : list Z) (filename : string)
    (h : reporter.Handler) : protoLex :=
  let contents :=
    if gostring_eqb (firstn 3 contents) utf8Bom then skipn 3 contents
    else contents in
  {| input := {| data := contents; pos := 0; err := None; mark := 0 |};
     info := ast.NewFileInfo filename contents;
     handler := h;
     prevSym := None; prevOffset := 0; eof := 0; comments := [] |}.

Definition keywords : list (string * symbol) :=
  [ ("syntax", _SYNTAX); ("import", _IMPORT); ("weak", _WEAK);
    ("public", _PUBLIC); ("package", _PACKAGE); ("option", _OPTION);
    ("true", _TRUE); ("false", _FALSE); ("inf", _INF); ("nan", _NAN);
    ("repeated", _REPEATED); ("optional", _OPTIONAL); ("required", _REQUIRED);
    ("double", _DOUBLE); ("float", _FLOAT); ("int32", _INT32);
    ("int64", _INT64); ("uint32", _UINT32); ("uint64", _UINT64);
    ("sint32", _SINT32); ("sint64", _SINT64); ("fixed32", _FIXED32);
    ("fixed64", _FIXED64); ("sfixed32", _SFIXED32); ("sfixed64", _SFIXED64);
    ("bool", _BOOL); ("string", _STRING); ("bytes", _BYTES);
    ("group", _GROUP); ("oneof", _ONEOF); ("map", _MAP);
    ("extensions", _EXTENSIONS); ("to", _TO); ("max", _MAX);
    ("reserved", _RESERVED); ("enum", _ENUM); ("message", _MESSAGE);
    ("extend", _EXTEND); ("service", _SERVICE); ("rpc", _RPC);
    ("stream", _STREAM); ("returns", _RETURNS) ]%string.

(** [keywords[str]]. *)
Fixpoint keyword_lookup (kws : list (string * symbol)) (str : gostring)
  : option symbol :=
  match kws with
  | [] => None
  | (k, t) :: kws' =>
    if gostring_eqb (bytes_of_string k) str then Some t
    else keyword_lookup kws' str
  end.

Definition maybeNewLine (r : Z) : L unit :=
  if r =? 10 (* '\n' *) then
    off <- on_input offset ;;
    modify (fun l => set_info l (ast.AddLine (info l) off))
  else ret tt.

(** [l.prev()]. *)
Definition prev (l : protoLex) : ast.SourcePos :=
  ast.SourcePos_of (info l) (prevOffset l).

(** ** Numeric literals *)

Definition numError (e : error) (kind s : gostring) : error :=
  match e with
  | strconv_NumError _ _ ErrRange =>
    fmt_Errorf "value out of range for %s: %s" [ArgS kind; ArgS s]
  | strconv_NumError _ _ ErrSyntax =>
    fmt_Errorf "invalid syntax in %s value: %s" [ArgS kind; ArgS s]
  | _ => e
  end.

(** What [Lex] makes of a numeric lexeme. *)
Inductive numberToken : Type :=
| IntToken (ui : Z)
| FloatToken (f : float64)
| BadNumber (e : error).

Section ParseFloat.

(** [strconv.ParseFloat(token, 64)], which [parseFloat] calls. *)
Variable strconv_ParseFloat : gostring -> float64 * option error.

Definition parseFloat (token : gostring) : float64 * option error :=
  if strings.ContainsRune token "_"%rune then
    (S754_zero false, Some (strconv_NumError "parseFloat" token ErrSyntax))
  else
    let '(f, err) := strconv_ParseFloat token in
    match err with
    | None => (f, None)
    | Some e =>
      match e with
      | strconv_NumError _ _ ErrRange =>
        if math.IsInf f 1 then (f, None) else (f, Some e)
      | _ => (f, Some e)
      end
    end.

(** The branch of [Lex] for a lexeme that starts with ["."] and a
    digit. *)
Definition lexDotNumber (token : gostring) : numberToken :=
  match parseFloat token with
  | (_, Some e) => BadNumber (numError e (bytes_of_string "float") token)
  | (f, None) => FloatToken f
  end.

(** The branch of [Lex] for a lexeme that starts with a digit:
    hexadecimal, floating point, or octal or decimal integer. *)
Definition lexNumber (token : gostring) : numberToken :=
  if strings.HasPrefix token (bytes_of_string "0x")
     || strings.HasPrefix token (bytes_of_string "0X")
  then
    match strconv.ParseUint (slice_from token 2) 16 64 with
    | (_, Some e) =>
      BadNumber (numError e (bytes_of_string "hexadecimal integer")
                          (slice_from token 2))
    | (ui, None) => IntToken ui
    end
  else if strings.Contains token (bytes_of_string ".")
          || strings.Contains token (bytes_of_string "e")
          || strings.Contains token (bytes_of_string "E")
  then
    match parseFloat token with
    | (_, Some e) => BadNumber (numError e (bytes_of_string "float") token)
    | (f, None) => FloatToken f
    end
  else
    let base := if nth 0 token 0 =? "0"%rune then 8 else 10 in
    match strconv.ParseUint token base 64 with
    | (ui, None) => IntToken ui
    | (_, Some e) =>
      let kind := if base =? 8 then "octal integer"%string else "integer"%string in
      match e with
      | strconv_NumError _ _ ErrRange =>
        (* if it's too big to be an int, parse it as a float *)
        match parseFloat token with
        | (f, None) => FloatToken f
        | (_, Some e') => BadNumber (numError e' (bytes_of_string "float") token)
        end
      | _ => BadNumber (numError e (bytes_of_string kind) token)
      end
    end.

End ParseFloat.

(** ** Tokens and comment attribution *)

Definition newToken : L ast.Token :=
  l <- get ;;
  let off := mark (input l) in
  let length := pos (input l) - mark (input l) in
  let '(t, f) := ast.AddToken (info l) off length in
  put (set_info l f) ;;
  ret t.

(** The loop of [setPrevAndAddComments] that merges adjacent line
    comments, over [comments[i:]]: the index at which the first group is
    detached, 0 when the loop ends without one. *)
Fixpoint commentGroupEnd (f : ast.FileInfo) (cs : list ast.Token) (i : Z)
    (prevSingleLineStyle : bool) (prevCommentLine : Z) : Z :=
  match cs with
  | [] => 0
  | c :: cs' =>
    let commentInfo := ast.TokenInfo f c in
    if negb prevSingleLineStyle
       || (ast.Line (ast.Start commentInfo) >? prevCommentLine + 1)
    then i
    else
      let singleLineStyle :=
        strings.HasPrefix (ast.RawText commentInfo) (bytes_of_string "//") in
      if negb singleLineStyle then i
      else commentGroupEnd f cs' (i + 1) singleLineStyle
             (ast.Line (ast.End commentInfo))
  end.

(** The first part of [setPrevAndAddComments]: the comments that become
    trailing comments of the previous terminal, and the rest. *)
Definition splitComments (l : protoLex) (n : ast.TerminalNode)
  : list ast.Token * list ast.Token :=
  let comments := comments l in
  match prevSym l, comments with
  | Some p, c :: rest =>
    let prevEnd := ast.Line (ast.End (ast.NodeInfo_of (info l) p)) in
    let nStart := ast.Line (ast.Start (ast.NodeInfo_of (info l) n)) in
    let commentInfo := ast.TokenInfo (info l) c in
    let commentStart := ast.Line (ast.Start commentInfo) in
    if (nStart >? prevEnd) && (commentStart - prevEnd <=? 1) then
      let prevSingleLineStyle :=
        strings.HasPrefix (ast.RawText commentInfo) (bytes_of_string "//") in
      let groupEnd :=
        if (commentStart =? prevEnd) || negb prevSingleLineStyle then 1
        else
          let g := commentGroupEnd (info l) rest 1 prevSingleLineStyle
                     (ast.Line (ast.End commentInfo)) in
          if g =? 0 then len comments else g in
      let commentEnd :=
        if groupEnd =? 1 then ast.Line (ast.End commentInfo)
        else
          let c2 := nth (Z.to_nat (groupEnd - 1)) comments 0 in
          ast.Line (ast.End (ast.TokenInfo (info l) c2)) in
      let isPunctuation :=
        match n with
        | ast.RuneNode rn _ => negb (rn =? "."%rune)
        | _ => false
        end in
      if isPunctuation
         || (len comments >? groupEnd)
         || ((commentStart =? prevEnd) && (nStart >? commentEnd))
         || (nStart - commentEnd >? 1)
      then (firstn (Z.to_nat groupEnd) comments, skipn (Z.to_nat groupEnd) comments)
      else ([], comments)
    else ([], comments)
  | _, _ => ([], comments)
  end.

(** [for _, c := range cs { l.info.AddComment(c, owner) }]. *)
Definition addComments (f : ast.FileInfo) (cs : list ast.Token)
    (owner : ast.Token) : ast.FileInfo :=
  fold_left (fun f c => ast.AddComment f c owner) cs f.

Definition setPrevAndAddComments (n : ast.TerminalNode) : L unit :=
  l <- get ;;
  let '(prevTrailingComments, comments) := splitComments l n in
  let l := set_comments l [] in
  (* now we can associate comments *)
  f <- match prevTrailingComments, prevSym l with
       | [], _ => ret (info l)
       | _ :: _, Some p =>
         ret (addComments (info l) prevTrailingComments (ast.Token_of p))
       | _ :: _, None => panic "nil pointer dereference"
       end ;;
  let f := addComments f comments (ast.Token_of n) in
  put (set_prevSym (set_info l f) (Some n)).

Definition setString (lval : protoSymType) (val : gostring) : L protoSymType :=
  t <- newToken ;;
  let n := ast.NewStringLiteralNode val t in
  setPrevAndAddComments n ;;
  ret {| sym_s := Some n; sym_id := sym_id lval; sym_i := sym_i lval;
         sym_f := sym_f lval; sym_b := sym_b lval; sym_err := sym_err lval |}.

Definition setIdent (lval : protoSymType) (val : gostring) : L protoSymType :=
  t <- newToken ;;
  let n := ast.NewIdentNode val t in
  setPrevAndAddComments n ;;
  ret {| sym_s := sym_s lval; sym_id := Some n; sym_i := sym_i lval;
         sym_f := sym_f lval; sym_b := sym_b lval; sym_err := sym_err lval |}.

Definition setInt (lval : protoSymType) (val : Z) : L protoSymType :=
  t <- newToken ;;
  let n := ast.NewUintLiteralNode val t in
  setPrevAndAddComments n ;;
  ret {| sym_s := sym_s lval; sym_id := sym_id lval; sym_i := Some n;
         sym_f := sym_f lval; sym_b := sym_b lval; sym_err := sym_err lval |}.

Definition setFloat (lval : protoSymType) (val : float64) : L protoSymType :=
  t <- newToken ;;
  let n := ast.NewFloatLiteralNode val t in
  setPrevAndAddComments n ;;
  ret {| sym_s := sym_s lval; sym_id := sym_id lval; sym_i := sym_i lval;
         sym_f := Some n; sym_b := sym_b lval; sym_err := sym_err lval |}.

Definition setRune (lval : protoSymType) (val : Z) : L protoSymType :=
  t <- newToken ;;
  let n := ast.NewRuneNode val t in
  setPrevAndAddComments n ;;
  ret {| sym_s := sym_s lval; sym_id := sym_id lval; sym_i := sym_i lval;
         sym_f := sym_f lval; sym_b := Some n; sym_err := sym_err lval |}.

Definition addSourceError (e : error) : L reporter.ErrorWithPos :=
  l <- get ;;
  let ewp := reporter.Error (prev l) e in
  let '(_, h) := reporter.HandleError (handler l) ewp in
  put (set_handler l h) ;;
  ret ewp.

Definition setError (lval : protoSymType) (e : error) : L protoSymType :=
  ewp <- addSourceError e ;;
  ret {| sym_s := sym_s lval; sym_id := sym_id lval; sym_i := sym_i lval;
         sym_f := sym_f lval; sym_b := sym_b lval; sym_err := Some ewp |}.

(** ** Scanning *)

Definition fuel_of (rr : runeReader) : nat := S (List.length (data rr)).

Definition readNumber : R unit :=
  rr <- get ;;
  loop (fuel_of rr)
    (fun allowExpSign : bool =>
       '(c, sz, err) <- readRune ;;
       match err with
       | Some _ => ret (inr tt)
       | None =>
         if ((c =? "-"%rune) || (c =? "+"%rune)) && negb allowExpSign then
           unreadRune sz ;; ret (inr tt)
         else if negb (c =? "."%rune) && negb (c =? "_"%rune)
                 && ((c <? "0"%rune) || (c >? "9"%rune))
                 && ((c <? "a"%rune) || (c >? "z"%rune))
                 && ((c <? "A"%rune) || (c >? "Z"%rune))
                 && negb (c =? "-"%rune) && negb (c =? "+"%rune)
         then
           (* no more chars in the number token *)
           unreadRune sz ;; ret (inr tt)
         else
           (* scientific notation char can be followed by an exponent sign *)
           ret (inl ((c =? "e"%rune) || (c =? "E"%rune)))
       end)
    false.

Definition readIdentifier : R unit :=
  rr <- get ;;
  loop (fuel_of rr)
    (fun _ : unit =>
       '(c, sz, err) <- readRune ;;
       match err with
       | Some _ => ret (inr tt)
       | None =>
         if negb (c =? "_"%rune)
            && ((c <? "a"%rune) || (c >? "z"%rune))
            && ((c <? "A"%rune) || (c >? "Z"%rune))
            && ((c <? "0"%rune) || (c >? "9"%rune))
         then unreadRune sz ;; ret (inr tt)
         else ret (inl tt)
       end)
    tt.

(** [for i := range u { c, _, err := l.input.readRune(); ...; u[i] = c }]:
    the runes read, or the first error. *)
Fixpoint readRunes (n : nat) : R (list Z * option error) :=
  match n with
  | O => ret ([], None)
  | S n' =>
    '(c, _, err) <- readRune ;;
    match err with
    | Some e => ret ([], Some e)
    | None =>
      '(u, err') <- readRunes n' ;;
      ret (c :: u, err')
    end
  end.

(** One round of the loop of [readStringLiteral], with the buffer so far:
    the new buffer, or the result of the function. *)
Definition readStringLiteral_body (quote : Z) (buf : list Z)
  : R (list Z + (gostring * option error)) :=
  let fail (e : error) : R (list Z + (gostring * option error)) :=
    ret (inr ([], Some e)) in
  '(c, _, err) <- readRune ;;
  match err with
  | Some e =>
    fail (match e with io_EOF => io_ErrUnexpectedEOF | _ => e end)
  | None =>
    if c =? 10 (* '\n' *) then
      fail (errors_New "encountered end-of-line before end of string literal")
    else if c =? quote then ret (inr (buf, None))
    else if c =? 0 then
      fail (errors_New "null character ('\0') not allowed in string literal")
    else if c =? "\"%rune then
      (* escape sequence *)
      '(c, _, err) <- readRune ;;
      match err with
      | Some e => fail e
      | None =>
        if (c =? "x"%rune) || (c =? "X"%rune) then
          (* hex escape *)
          '(c, _, err) <- readRune ;;
          match err with
          | Some e => fail e
          | None =>
            '(c2, sz2, err) <- readRune ;;
            match err with
            | Some e => fail e
            | None =>
              hex <- (if ((c2 <? "0"%rune) || (c2 >? "9"%rune))
                         && ((c2 <? "a"%rune) || (c2 >? "f"%rune))
                         && ((c2 <? "A"%rune) || (c2 >? "F"%rune))
                      then unreadRune sz2 ;; ret (utf8.string_of_runes [c])
                      else ret (utf8.string_of_runes [c; c2])) ;;
              match strconv.ParseInt hex 16 32 with
              | (_, Some _) => fail (fmt_Errorf "invalid hex escape: \x%q" [ArgQ hex])
              | (i, None) => ret (inl (buf ++ [i mod 256]))
              end
            end
          end
        else if (c >=? "0"%rune) && (c <=? "7"%rune) then
          (* octal escape *)
          '(c2, sz2, err) <- readRune ;;
          match err with
          | Some e => fail e
          | None =>
            r <- (if (c2 <? "0"%rune) || (c2 >? "7"%rune) then
                    unreadRune sz2 ;; ret (utf8.string_of_runes [c], None)
                  else
                    '(c3, sz3, err) <- readRune ;;
                    match err with
                    | Some e => ret ([], Some e)
                    | None =>
                      if (c3 <? "0"%rune) || (c3 >? "7"%rune) then
                        unreadRune sz3 ;; ret (utf8.string_of_runes [c; c2], None)
                      else ret (utf8.string_of_runes [c; c2; c3], None)
                    end) ;;
            match r with
            | (_, Some e) => fail e
            | (octal, None) =>
              match strconv.ParseInt octal 8 32 with
              | (_, Some _) => fail (fmt_Errorf "invalid octal escape: \%q" [ArgQ octal])
              | (i, None) =>
                if i >? 0xff then
                  fail (fmt_Errorf
                          "octal escape is out range, must be between 0 and 377: \%q"
                          [ArgQ octal])
                else ret (inl (buf ++ [i mod 256]))
              end
            end
          end
        else if c =? "u"%rune then
          (* short unicode escape *)
          '(u, err) <- readRunes 4 ;;
          match err with
          | Some e => fail e
          | None =>
            match strconv.ParseInt (utf8.string_of_runes u) 16 32 with
            | (_, Some _) =>
              fail (fmt_Errorf "invalid unicode escape: \u%q"
                               [ArgQ (utf8.string_of_runes u)])
            | (i, None) => ret (inl (buf ++ utf8.EncodeRune i))
            end
          end
        else if c =? "U"%rune then
          (* long unicode escape *)
          '(u, err) <- readRunes 8 ;;
          match err with
          | Some e => fail e
          | None =>
            match strconv.ParseInt (utf8.string_of_runes u) 16 32 with
            | (_, Some _) =>
              fail (fmt_Errorf "invalid unicode escape: \U%q"
                               [ArgQ (utf8.string_of_runes u)])
            | (i, None) =>
              if (i >? 0x10ffff) || (i <? 0) then
                fail (fmt_Errorf
                        "unicode escape is out of range, must be between 0 and 0x10ffff: \U%q"
                        [ArgQ (utf8.string_of_runes u)])
              else ret (inl (buf ++ utf8.EncodeRune i))
            end
          end
        else if c =? "a"%rune then ret (inl (buf ++ [7]))
        else if c =? "b"%rune then ret (inl (buf ++ [8]))
        else if c =? "f"%rune then ret (inl (buf ++ [12]))
        else if c =? "n"%rune then ret (inl (buf ++ [10]))
        else if c =? "r"%rune then ret (inl (buf ++ [13]))
        else if c =? "t"%rune then ret (inl (buf ++ [9]))
        else if c =? "v"%rune then ret (inl (buf ++ [11]))
        else if c =? "\"%rune then ret (inl (buf ++ ["\"%rune]))
        else if c =? 39 (* the single quote *) then ret (inl (buf ++ [39]))
        else if c =? 34 (* the double quote *) then ret (inl (buf ++ [34]))
        else if c =? "?"%rune then ret (inl (buf ++ ["?"%rune]))
        else
          fail (fmt_Errorf "invalid escape sequence: %q"
                           [ArgQ ("\"%rune :: utf8.EncodeRune c)])
      end
    else ret (inl (buf ++ utf8.EncodeRune c))
  end.

Definition readStringLiteral (quote : Z) : R (gostring * option error) :=
  rr <- get ;;
  loop (fuel_of rr) (readStringLiteral_body quote) [].

Definition skipToEndOfLineComment (lval : protoSymType) : L (protoSymType * bool) :=
  l <- get ;;
  loop (fuel_of (input l))
    (fun _ : unit =>
       '(c, _, err) <- on_input readRune ;;
       match err with
       | Some _ => ret (inr (lval, false))
       | None =>
         if c =? 10 (* '\n' *) then
           off <- on_input offset ;;
           modify (fun l => set_info l (ast.AddLine (info l) off)) ;;
           ret (inr (lval, false))
         else if c =? 0 then
           lval' <- setError lval (errors_New "invalid control character") ;;
           ret (inr (lval', true))
         else ret (inl tt)
       end)
    tt.

Definition skipToEndOfBlockComment (lval : protoSymType)
  : L (protoSymType * bool * bool) :=
  l <- get ;;
  loop (fuel_of (input l))
    (fun _ : unit =>
       '(c, _, err) <- on_input readRune ;;
       match err with
       | Some _ => ret (inr (lval, false, false))
       | None =>
         if c =? 0 then
           lval' <- setError lval (errors_New "invalid control character") ;;
           ret (inr (lval', false, true))
         else
           maybeNewLine c ;;
           if c =? "*"%rune then
             '(c, sz, err) <- on_input readRune ;;
             match err with
             | Some _ => ret (inr (lval, false, false))
             | None =>
               if c =? "/"%rune then ret (inr (lval, true, false))
               else on_input (unreadRune sz) ;; ret (inl tt)
             end
           else ret (inl tt)
       end)
    tt.

(** ** Lex *)

(** The end of the loop body of [Lex], for a rune that starts no longer
    token: a control character, another character that is no punctuation,
    or a punctuation rune. *)
Definition lexRune (lval : protoSymType) (c : Z)
  : L (unit + (symbol * protoSymType)) :=
  if (c <? 32) || (c =? 127) then
    lval <- setError lval (errors_New "invalid control character") ;;
    ret (inr (_ERROR, lval))
  else if negb (strings.ContainsRune (bytes_of_string ";,.:=-+(){}[]<>") c) then
    lval <- setError lval (errors_New "invalid character") ;;
    ret (inr (_ERROR, lval))
  else
    lval <- setRune lval c ;;
    ret (inr (TK c, lval)).

(** What [Lex] does with a numeric lexeme once it is decoded. *)
Definition emitNumber (lval : protoSymType) (t : numberToken)
  : L (unit + (symbol * protoSymType)) :=
  match t with
  | IntToken ui => lval <- setInt lval ui ;; ret (inr (_INT_LIT, lval))
  | FloatToken f => lval <- setFloat lval f ;; ret (inr (_FLOAT_LIT, lval))
  | BadNumber e => lval <- setError lval e ;; ret (inr (_ERROR, lval))
  end.

(** One round of the [for] loop of [Lex]: [inl tt] to go round again
    (white space or a comment was skipped), or the token kind [Lex] returns
    with the values set in [lval]. *)
Definition Lex_body (lval : protoSymType) (_ : unit)
  : L (unit + (symbol * protoSymType)) :=
  on_input setMark ;;
  off <- on_input offset ;;
  modify (fun l => set_prevOffset l off) ;;
  '(c, _, err) <- on_input readRune ;;
  match err with
  | Some io_EOF =>
    (* we're not actually returning a rune, but this will associate
       accumulated comments as a trailing comment on last symbol
       (if appropriate) *)
    lval <- setRune lval 0 ;;
    modify (fun l => set_eof l (match sym_b lval with
                                | Some n => ast.Token_of n
                                | None => eof l
                                end)) ;;
    ret (inr (TK 0, lval))
  | Some e =>
    lval <- setError lval e ;;
    ret (inr (_ERROR, lval))
  | None =>
    if strings.ContainsRune [10; 13; 9; 12; 11; 32] (* "\n\r\t\f\v " *) c then
      (* skip whitespace *)
      maybeNewLine c ;;
      ret (inl tt)
    else if c =? "."%rune then
      (* decimal literals could start with a dot *)
      '(cn, szn, err) <- on_input readRune ;;
      match err with
      | Some _ =>
        lval <- setRune lval c ;;
        ret (inr (TK c, lval))
      | None =>
        if (cn >=? "0"%rune) && (cn <=? "9"%rune) then
          on_input readNumber ;;
          token <- on_input getMark ;;
          emitNumber lval (lexDotNumber atof.ParseFloat token)
        else
          on_input (unreadRune szn) ;;
          lval <- setRune lval c ;;
          ret (inr (TK c, lval))
      end
    else if (c =? "_"%rune) || ((c >=? "a"%rune) && (c <=? "z"%rune))
            || ((c >=? "A"%rune) && (c <=? "Z"%rune)) then
      (* identifier *)
      on_input readIdentifier ;;
      str <- on_input getMark ;;
      match keyword_lookup keywords str with
      | Some t =>
        lval <- setIdent lval str ;;
        ret (inr (t, lval))
      | None =>
        lval <- setIdent lval str ;;
        ret (inr (_NAME, lval))
      end
    else if (c >=? "0"%rune) && (c <=? "9"%rune) then
      (* integer or float literal *)
      on_input readNumber ;;
      token <- on_input getMark ;;
      emitNumber lval (lexNumber atof.ParseFloat token)
    else if (c =? 39 (* the single quote *)) || (c =? 34 (* the double quote *)) then
      (* string literal *)
      '(str, err) <- on_input (readStringLiteral c) ;;
      match err with
      | Some e =>
        lval <- setError lval e ;;
        ret (inr (_ERROR, lval))
      | None =>
        lval <- setString lval str ;;
        ret (inr (_STRING_LIT, lval))
      end
    else if c =? "/"%rune then
      (* comment *)
      '(cn, szn, err) <- on_input readRune ;;
      match err with
      | Some _ =>
        lval <- setRune lval "/"%rune ;;
        ret (inr (TK c, lval))
      | None =>
        if cn =? "/"%rune then
          '(lval', hasErr) <- skipToEndOfLineComment lval ;;
          if hasErr then ret (inr (_ERROR, lval'))
          else
            t <- newToken ;;
            modify (fun l => set_comments l (comments l ++ [t])) ;;
            ret (inl tt)
        else if cn =? "*"%rune then
          '(lval', ok, hasErr) <- skipToEndOfBlockComment lval ;;
          if hasErr then ret (inr (_ERROR, lval'))
          else if negb ok then
            lval <- setError lval
                      (errors_New "block comment never terminates, unexpected EOF") ;;
            ret (inr (_ERROR, lval))
          else
            t <- newToken ;;
            modify (fun l => set_comments l (comments l ++ [t])) ;;
            ret (inl tt)
        else
          on_input (unreadRune szn) ;;
          lexRune lval c
      end
    else lexRune lval c
  end.

(** [Lex]: the token kind and what was set in [lval]. *)
Definition Lex (lval : protoSymType) : L (symbol * protoSymType) :=
  l <- get ;;
  match reporter.ReporterError (handler l) with
  | Some _ =>
    (* if error reporter already returned non-nil error,
       we can skip the rest of the input *)
    ret (TK 0, lval)
  | None =>
    put (set_comments l []) ;;
    loop (fuel_of (input l)) (Lex_body lval) tt
  end.

(** ** Running the lexer *)

(** The policy that accepts every error and the one that stops at the
    first. *)
Definition keepGoing : reporter.ErrorWithPos -> option error := fun _ => None.
Definition stopAtFirst : reporter.ErrorWithPos -> option error :=
  fun e => Some (reporter.Unwrap e).

(** The lexer on a source text. *)
Definition lexerOn (src : gostring) : protoLex :=
  newLexer src "test.proto" (reporter.NewHandler keepGoing).

(** [n] calls of [Lex], each with a fresh [lval]: the results in order
    and the final state. *)
Fixpoint LexN (n : nat) : L (list (symbol * protoSymType)) :=
  match n with
  | O => ret []
  | S n' =>
    r <- Lex empty_sym ;;
    rs <- LexN n' ;;
    ret (r :: rs)
  end.

(** The source text of a string literal in double quotes. *)
Definition quoted (body : string) : gostring := [34] ++ bytes_of_string body ++ [34].

(** The text of the error set in [lval], when it has one that renders. *)
Definition errText (lval : protoSymType) : option string :=
  match sym_err lval with
  | Some e => Error (reporter.Unwrap e)
  | None => None
  end.

(** Whether a text occurs in a message. *)
Definition mentions (msg text : string) : bool :=
  strings.Contains (bytes_of_string msg) (bytes_of_string text).

(** * Properties *)

(** ** Concrete runs *)

Example lex_message :
  exists l',
    LexN 5 (lexerOn (bytes_of_string "message Foo { }")) =
    Ok [ (_MESSAGE, {| sym_s := None;
                       sym_id := Some (ast.IdentNode (bytes_of_string "message") 0);
                       sym_i := None; sym_f := None; sym_b := None; sym_err := None |});
         (_NAME, {| sym_s := None;
                    sym_id := Some (ast.IdentNode (bytes_of_string "Foo") 1);
                    sym_i := None; sym_f := None; sym_b := None; sym_err := None |});
         (TK "{"%rune, {| sym_s := None; sym_id := None; sym_i := None; sym_f := None;
                          sym_b := Some (ast.RuneNode "{"%rune 2); sym_err := None |});
         (TK "}"%rune, {| sym_s := None; sym_id := None; sym_i := None; sym_f := None;
                          sym_b := Some (ast.RuneNode "}"%rune 3); sym_err := None |});
         (TK 0, {| sym_s := None; sym_id := None; sym_i := None; sym_f := None;
                   sym_b := Some (ast.RuneNode 0 4); sym_err := None |}) ] l'
    /\ ast.tokens (info l') = [(0, 7); (8, 3); (12, 1); (14, 1); (15, 0)].
Proof. eexists. split; vm_compute; reflexivity. Qed.

(** C2, as stated, fails: lexing [0x1_0000_0000_0000_0000] gives an
    error, but its message is about the syntax of a hexadecimal integer
    and does not mention a value out of range. *)
Lemma C2_underscore_hex_is_syntax_error :
  exists lval l',
    Lex empty_sym (lexerOn (bytes_of_string "0x1_0000_0000_0000_0000"))
    = Ok (_ERROR, lval) l'
    /\ errText lval
       = Some "invalid syntax in hexadecimal integer value: 1_0000_0000_0000_0000"%string
    /\ errText lval <> Some "value out of range for integer"%string
    /\ mentions "invalid syntax in hexadecimal integer value: 1_0000_0000_0000_0000"
                "value out of range" = false.
Proof.
  do 2 eexists. split; [vm_compute; reflexivity|].
  repeat split; try reflexivity. discriminate.
Qed.

(** C2, amended: [0xFFFFFFFFFFFFFFFF] is the unsigned integer literal
    [2^64 - 1]; [0x1_0000_0000_0000_0000] is an error whose message is
    "invalid syntax in hexadecimal integer value: 1_0000_0000_0000_0000";
    the overflowing [0x10000000000000000] is an error whose message is
    "value out of range for hexadecimal integer: 10000000000000000". *)
Theorem C2_hex_literals :
  (exists lval l',
     Lex empty_sym (lexerOn (bytes_of_string "0xFFFFFFFFFFFFFFFF"))
     = Ok (_INT_LIT, lval) l'
     /\ sym_i lval = Some (ast.UintLiteralNode (2 ^ 64 - 1) 0)
     /\ sym_err lval = None)
  /\ (exists lval l',
        Lex empty_sym (lexerOn (bytes_of_string "0x1_0000_0000_0000_0000"))
        = Ok (_ERROR, lval) l'
        /\ errText lval
           = Some "invalid syntax in hexadecimal integer value: 1_0000_0000_0000_0000"%string)
  /\ (exists lval l',
        Lex empty_sym (lexerOn (bytes_of_string "0x10000000000000000"))
        = Ok (_ERROR, lval) l'
        /\ errText lval
           = Some "value out of range for hexadecimal integer: 10000000000000000"%string).
Proof.
  repeat split; do 2 eexists; (split; [vm_compute; reflexivity|]);
    repeat split; reflexivity.
Qed.

(** C7: the string literal ["\xFF\101\n\u0041"] lexes to the bytes
    [0xFF 0x41 0x0A 0x41]; a hex escape of one or two digits and an octal
    escape of one to three digits each give one byte. *)
Theorem C7_string_escapes :
  (exists lval l',
     Lex empty_sym (lexerOn (quoted "\xFF\101\n\u0041"))
     = Ok (_STRING_LIT, lval) l'
     /\ sym_s lval = Some (ast.StringLiteralNode [0xFF; 0x41; 0x0A; 0x41] 0)
     /\ sym_err lval = None)
  /\ (exists lval l',
        Lex empty_sym (lexerOn (quoted "\xF\x0f\7\17\177"))
        = Ok (_STRING_LIT, lval) l'
        /\ sym_s lval = Some (ast.StringLiteralNode [0x0F; 0x0F; 7; 15; 127] 0)).
Proof.
  split; do 2 eexists; (split; [vm_compute; reflexivity|]);
    repeat split; reflexivity.
Qed.

(** ** Comment attribution: [setPrevAndAddComments] *)

(** The line a token starts on, and the line it ends on. *)
Definition startLine (f : ast.FileInfo) (t : ast.Token) : Z :=
  ast.Line (ast.Start (ast.TokenInfo f t)).
Definition endLine (f : ast.FileInfo) (t : ast.Token) : Z :=
  ast.Line (ast.End (ast.TokenInfo f t)).

(** The attachments [AddComment] records for comments [cs] given to
    [owner]. *)
Definition attach (owner : ast.Token) (cs : list ast.Token)
  : list (ast.Token * ast.Token) :=
  map (fun c => (c, owner)) cs.

(** The comments given to the previous terminal, when there is one. *)
Definition attachPrev (p : option ast.TerminalNode) (cs : list ast.Token)
  : list (ast.Token * ast.Token) :=
  match p with
  | Some p => attach (ast.Token_of p) cs
  | None => []
  end.

Lemma addComments_comments f cs owner :
  ast.comments (addComments f cs owner) = ast.comments f ++ attach owner cs.
Proof.
  unfold addComments. revert f.
  induction cs as [|c cs IH]; intros f; simpl.
  - now rewrite app_nil_r.
  - rewrite IH. simpl. now rewrite <- app_assoc.
Qed.

Lemma addComments_tokens f cs owner :
  ast.tokens (addComments f cs owner) = ast.tokens f.
Proof.
  unfold addComments. revert f.
  induction cs as [|c cs IH]; intros f; simpl; [reflexivity|now rewrite IH].
Qed.

Lemma addComments_lines f cs owner :
  ast.lines (addComments f cs owner) = ast.lines f.
Proof.
  unfold addComments. revert f.
  induction cs as [|c cs IH]; intros f; simpl; [reflexivity|now rewrite IH].
Qed.

Lemma addComments_data f cs owner :
  ast.data (addComments f cs owner) = ast.data f.
Proof.
  unfold addComments. revert f.
  induction cs as [|c cs IH]; intros f; simpl; [reflexivity|now rewrite IH].
Qed.

(** The lines of tokens depend on the token table and the line starts
    only. *)
Lemma startLine_ext f f' t :
  ast.tokens f = ast.tokens f' -> ast.lines f = ast.lines f' ->
  startLine f t = startLine f' t.
Proof.
  intros Ht Hl. unfold startLine, ast.TokenInfo, ast.Start, ast.SourcePos_of.
  rewrite Ht. destruct (nth _ _ _); simpl. now rewrite Hl.
Qed.

Lemma endLine_ext f f' t :
  ast.tokens f = ast.tokens f' -> ast.lines f = ast.lines f' ->
  endLine f t = endLine f' t.
Proof.
  intros Ht Hl. unfold endLine, ast.TokenInfo, ast.End, ast.SourcePos_of.
  rewrite Ht. destruct (nth _ _ _); simpl. now rewrite Hl.
Qed.

(** The split is a split of the pending comments. *)
Lemma splitComments_app l n :
  fst (splitComments l n) ++ snd (splitComments l n) = comments l.
Proof.
  unfold splitComments.
  destruct (prevSym l) as [p|]; [|reflexivity].
  destruct (comments l) as [|c rest] eqn:Hc; [reflexivity|].
  repeat match goal with
         | |- context [if ?x then _ else _] => destruct x
         end; simpl fst; simpl snd; try reflexivity; apply firstn_skipn.
Qed.

(** Comments go to the previous terminal only under the line
    conditions. *)
Lemma splitComments_trailing l n :
  fst (splitComments l n) <> [] ->
  exists p c rest,
    prevSym l = Some p /\ comments l = c :: rest
    /\ startLine (info l) (ast.Token_of n) > endLine (info l) (ast.Token_of p)
    /\ startLine (info l) c - endLine (info l) (ast.Token_of p) <= 1.
Proof.
  unfold splitComments.
  destruct (prevSym l) as [p|]; [|intros H; now elim H].
  destruct (comments l) as [|c rest] eqn:Hc; [intros H; now elim H|].
  fold (startLine (info l) c).
  unfold ast.NodeInfo_of.
  fold (startLine (info l) (ast.Token_of n)).
  fold (endLine (info l) (ast.Token_of p)).
  destruct ((startLine (info l) (ast.Token_of n) >? endLine (info l) (ast.Token_of p))
            && (startLine (info l) c - endLine (info l) (ast.Token_of p) <=? 1)) eqn:E;
    [|intros H; now elim H].
  intros _. exists p, c, rest.
  apply andb_true_iff in E. destruct E as [E1 E2].
  repeat split; lia.
Qed.

Lemma splitComments_no_prev l n :
  prevSym l = None \/ comments l = [] -> splitComments l n = ([], comments l).
Proof.
  unfold splitComments. intros [H|H]; rewrite H; [reflexivity|].
  now destruct (prevSym l).
Qed.

(** What [setPrevAndAddComments] leaves. *)
Lemma setPrevAndAddComments_eq n l :
  setPrevAndAddComments n l =
  Ok tt
     {| input := input l;
        info := addComments
                  (match prevSym l with
                   | Some p => addComments (info l) (fst (splitComments l n)) (ast.Token_of p)
                   | None => info l
                   end)
                  (snd (splitComments l n)) (ast.Token_of n);
        handler := handler l;
        prevSym := Some n;
        prevOffset := prevOffset l;
        eof := eof l;
        comments := [] |}.
Proof.
  unfold setPrevAndAddComments, bind, get. simpl.
  destruct (splitComments l n) as [tr le] eqn:E. simpl.
  destruct tr as [|t tr].
  - unfold ret, put. simpl. destruct (prevSym l); reflexivity.
  - destruct (prevSym l) as [p|] eqn:Hp.
    + reflexivity.
    + rewrite splitComments_no_prev in E by now left. discriminate.
Qed.

(** C1: at every terminal [n] the lexer makes, the pending comments are
    split in two: a prefix attached to the previous terminal [p] as its
    trailing comments, and the rest attached to [n] as its leading
    comments.  Without a previous terminal, or without pending comments,
    they all go to [n]; and the prefix is not empty only when [n] starts on
    a later line than [p] ends and the first comment starts at most one
    line below the end of [p]. *)
Theorem C1_comment_attribution (l : protoLex) (n : ast.TerminalNode) :
  exists trailing leading l',
    setPrevAndAddComments n l = Ok tt l'
    /\ comments l = trailing ++ leading
    /\ ast.comments (info l')
       = ast.comments (info l) ++ attachPrev (prevSym l) trailing
         ++ attach (ast.Token_of n) leading
    /\ prevSym l' = Some n
    /\ comments l' = []
    /\ (prevSym l = None \/ comments l = [] -> trailing = [])
    /\ (trailing <> [] ->
        exists p c rest,
          prevSym l = Some p /\ comments l = c :: rest
          /\ startLine (info l) (ast.Token_of n) > endLine (info l) (ast.Token_of p)
          /\ startLine (info l) c - endLine (info l) (ast.Token_of p) <= 1).
Proof.
  exists (fst (splitComments l n)), (snd (splitComments l n)).
  eexists. split; [apply setPrevAndAddComments_eq|]. simpl.
  split; [symmetry; apply splitComments_app|].
  split.
  { rewrite addComments_comments.
    destruct (prevSym l) as [p|] eqn:Hp; simpl.
    - rewrite addComments_comments. now rewrite app_assoc.
    - reflexivity. }
  split; [reflexivity|]. split; [reflexivity|].
  split.
  - intros H. now rewrite (splitComments_no_prev l n H).
  - apply splitComments_trailing.
Qed.

(** ** Reasoning about computations

    [total m s Q]: from the state [s] the computation [m] returns, without
    a panic and within its fuel, a value and a state that satisfy [Q]. *)

Definition total {St A} (m : M St A) (s : St) (Q : A -> St -> Prop) : Prop :=
  match m s with
  | Ok a s' => Q a s'
  | _ => False
  end.

Lemma total_run {St A} (m : M St A) s Q :
  total m s Q -> exists a s', m s = Ok a s' /\ Q a s'.
Proof.
  unfold total. destruct (m s) as [a s'| |]; try contradiction.
  intros H. now exists a, s'.
Qed.

Lemma total_of_run {St A} (m : M St A) s a s' (Q : A -> St -> Prop) :
  m s = Ok a s' -> Q a s' -> total m s Q.
Proof. unfold total. intros ->. trivial. Qed.

Lemma total_weaken {St A} (m : M St A) s (Q Q' : A -> St -> Prop) :
  total m s Q -> (forall a s', Q a s' -> Q' a s') -> total m s Q'.
Proof.
  unfold total. destruct (m s); try contradiction. intros H HQ. auto.
Qed.

Lemma total_and {St A} (m : M St A) s (Q Q' : A -> St -> Prop) :
  total m s Q -> total m s Q' -> total m s (fun a s' => Q a s' /\ Q' a s').
Proof. unfold total. destruct (m s); try contradiction. auto. Qed.

Lemma total_ret {St A} (a : A) (s : St) (Q : A -> St -> Prop) :
  Q a s -> total (ret a) s Q.
Proof. trivial. Qed.

Lemma total_bind {St A B} (m : M St A) (k : A -> M St B) s (Q : B -> St -> Prop) :
  total m s (fun a s' => total (k a) s' Q) -> total (bind m k) s Q.
Proof.
  unfold total, bind. destruct (m s); try contradiction. trivial.
Qed.

Lemma total_get {St} (s : St) (Q : St -> St -> Prop) :
  Q s s -> total get s Q.
Proof. trivial. Qed.

Lemma total_put {St} (s s0 : St) (Q : unit -> St -> Prop) :
  Q tt s -> total (put s) s0 Q.
Proof. trivial. Qed.

Lemma total_modify {St} (f : St -> St) (s : St) (Q : unit -> St -> Prop) :
  Q tt (f s) -> total (modify f) s Q.
Proof. trivial. Qed.

Lemma total_on_input {A} (m : R A) (l : protoLex) (Q : A -> protoLex -> Prop) :
  total m (input l) (fun a rr => Q a (set_input l rr)) -> total (on_input m) l Q.
Proof.
  unfold total, on_input. destruct (m (input l)); try contradiction. trivial.
Qed.

(** A loop whose body keeps an invariant [I] and lowers a measure [mu]
    every time it goes round again ends within any fuel above the
    measure. *)
Lemma total_loop {St V A} (body : V -> M St (V + A))
    (I : V -> St -> Prop) (mu : St -> nat) (Q : A -> St -> Prop) :
  (forall v s, I v s ->
     total (body v) s
       (fun r s' => match r with
                    | inl v' => I v' s' /\ (mu s' < mu s)%nat
                    | inr a => Q a s'
                    end)) ->
  forall fuel v s, I v s -> (mu s < fuel)%nat -> total (loop fuel body v) s Q.
Proof.
  intros Hbody fuel. induction fuel as [|fuel IH]; intros v s HI Hmu; [lia|].
  simpl. apply total_bind.
  eapply total_weaken; [apply Hbody, HI|].
  intros [v'|a] s' H; simpl in H.
  - destruct H as [HI' Hlt]. apply IH; [assumption|lia].
  - apply total_ret, H.
Qed.

(** ** The rune reader: what a read consumes *)

Lemma len_nonneg {A} (s : list A) : 0 <= len s.
Proof. unfold len. lia. Qed.

Lemma len_cons {A} (a : A) (s : list A) : len (a :: s) = len s + 1.
Proof. unfold len. simpl List.length. lia. Qed.

Lemma len_app {A} (s t : list A) : len (s ++ t) = len s + len t.
Proof. unfold len. rewrite length_app. lia. Qed.

Lemma len_slice_from {A} (s : list A) (i : Z) :
  0 <= i <= len s -> len (slice_from s i) = len s - i.
Proof. unfold len, slice_from. intros H. rewrite length_skipn. lia. Qed.

Lemma nth_slice_from {A} (s : list A) (i j : Z) (d : A) :
  0 <= i -> 0 <= j ->
  nth (Z.to_nat j) (slice_from s i) d = nth (Z.to_nat (i + j)) s d.
Proof.
  intros Hi Hj. unfold slice_from. rewrite nth_skipn.
  f_equal. lia.
Qed.

(** A rune that is decoded takes between one byte and what is there. *)
Lemma DecodeRune_size p r sz :
  utf8.DecodeRune p = (r, sz) -> r <> utf8.RuneError -> 1 <= sz <= len p.
Proof.
  unfold utf8.DecodeRune.
  destruct p as [|p0 t]; [intros [= <- <-] H; now elim H|].
  repeat match goal with
         | |- context [if ?x then _ else _] => destruct x eqn:?
         | |- context [match ?x with [] => _ | _ :: _ => _ end] => destruct x
         | |- (_, _) = (_, _) -> _ => intros [= <- <-]; intros
         end;
    try (exfalso; congruence);
    unfold len; simpl List.length; lia.
Qed.

(** The bytes of a decoded rune other than NUL are not zero. *)
Lemma DecodeRune_nonzero p r sz j :
  utf8.DecodeRune p = (r, sz) -> r <> utf8.RuneError -> r <> 0 ->
  0 <= j < sz -> nth (Z.to_nat j) p 0 <> 0.
Proof.
  unfold utf8.DecodeRune.
  destruct p as [|p0 t]; [intros [= <- <-] H; now elim H|].
  repeat match goal with
         | |- context [if ?x then _ else _] => destruct x eqn:?
         | |- context [match ?x with [] => _ | _ :: _ => _ end] => destruct x
         | |- (_, _) = (_, _) -> _ => intros [= <- <-]; intros
         end;
    try (exfalso; congruence);
    repeat match goal with
           | H : (_ || _) = false |- _ => apply orb_false_iff in H; destruct H
           end;
    match goal with
    | H : 0 <= j < _ |- _ =>
      assert (j = 0 \/ j = 1 \/ j = 2 \/ j = 3) as [ -> | [ -> | [ -> | -> ] ] ] by lia
    end; simpl; try lia.
Qed.

(** A reader is well formed when its mark and position lie in its data,
    the mark not after the position. *)
Definition wf (rr : runeReader) : Prop :=
  0 <= mark rr <= pos rr /\ pos rr <= len (data rr).

(** What [readRune] returns: on success the rune decoded at the position
    and its width, the position moved past it; on an error the reader
    stays where it is and keeps the error. *)
Definition readRune_post (rr : runeReader) (r : Z * Z * option error)
    (rr' : runeReader) : Prop :=
  let '(c, sz, e) := r in
  data rr' = data rr /\ mark rr' = mark rr /\
  match e with
  | None =>
    err rr = None /\ err rr' = None /\ pos rr' = pos rr + sz /\ 1 <= sz
    /\ pos rr' <= len (data rr)
    /\ utf8.DecodeRune (slice_from (data rr) (pos rr)) = (c, sz)
    /\ c <> utf8.RuneError
  | Some _ => pos rr' = pos rr /\ err rr' = e /\ c = 0 /\ sz = 0
  end.

Lemma readRune_spec rr : wf rr -> total readRune rr (readRune_post rr).
Proof.
  intros [Hm Hp]. unfold total, readRune, bind, get, readRune_post.
  destruct (err rr) as [e|] eqn:He; simpl.
  { unfold ret. simpl. repeat split; auto. }
  destruct (pos rr =? len (data rr)) eqn:Hpos; simpl.
  { unfold ret. simpl. repeat split; auto. }
  destruct (utf8.DecodeRune _) as [r sz] eqn:Hd.
  destruct (r =? utf8.RuneError) eqn:Hr; simpl.
  { repeat split; auto. }
  apply Z.eqb_neq in Hr, Hpos.
  pose proof (DecodeRune_size _ _ _ Hd Hr) as Hsz.
  rewrite len_slice_from in Hsz by lia.
  repeat split; auto; lia.
Qed.

(** The reader has moved forward in the same data, with the same mark. *)
Definition adv (rr rr' : runeReader) : Prop :=
  data rr' = data rr /\ mark rr' = mark rr
  /\ pos rr <= pos rr' /\ pos rr' <= len (data rr).

Lemma adv_refl rr : wf rr -> adv rr rr.
Proof. unfold wf, adv. intuition lia. Qed.

Lemma adv_trans a b c : adv a b -> adv b c -> adv a c.
Proof.
  unfold adv. intros (?&?&?&?) (?&?&?&?).
  repeat split; try congruence; try lia.
Qed.

Lemma adv_wf a b : wf a -> adv a b -> wf b.
Proof. unfold wf, adv. intros [? ?] (Hd&Hm&?&?). rewrite Hd, Hm. lia. Qed.

(** What is left to read. *)
Definition remaining (rr : runeReader) : nat :=
  Z.to_nat (len (data rr) - pos rr).

Lemma remaining_fuel rr : wf rr -> (remaining rr < fuel_of rr)%nat.
Proof. unfold wf, remaining, fuel_of, len. lia. Qed.

Lemma readRune_adv rr c sz e rr' :
  wf rr -> readRune_post rr (c, sz, e) rr' -> adv rr rr'.
Proof.
  unfold readRune_post, adv, wf. intros [? ?] (?&?&Hpost).
  destruct e; intuition lia.
Qed.

(** [unreadRune] of a rune just read does not cross the mark. *)
Lemma unreadRune_spec rr sz (Q : unit -> runeReader -> Prop) :
  mark rr <= pos rr - sz ->
  Q tt {| data := data rr; pos := pos rr - sz; err := err rr; mark := mark rr |} ->
  total (unreadRune sz) rr Q.
Proof.
  intros Hm HQ. unfold total, unreadRune, bind, get. simpl.
  destruct (pos rr - sz <? mark rr) eqn:E; [lia|]. exact HQ.
Qed.

(** One step through a computation. *)
Ltac mstep :=
  lazymatch goal with
  | |- total (bind _ _) _ _ => apply total_bind
  | |- total (ret _) _ _ => apply total_ret
  | |- total get _ _ => apply total_get
  | |- total (put _) _ _ => apply total_put
  | |- total (modify _) _ _ => apply total_modify
  | |- total (on_input _) _ _ => apply total_on_input
  | |- total (if ?c then _ else _) _ _ => destruct c eqn:?
  | |- total (match ?e with Some _ => _ | None => _ end) _ _ => destruct e eqn:?
  | |- total (let '(_, _) := ?x in _) _ _ => destruct x eqn:?
  end.

(** A read, with what it returned named. *)
Ltac mread c sz e rr H :=
  eapply total_weaken;
  [ apply readRune_spec
  | intros [[c sz] e] rr H ].

(** Arithmetic on reader positions. *)
Ltac rr_norm :=
  simpl in *; unfold readRune_post, adv, wf, remaining in *; simpl in *;
  repeat match goal with
         | H : _ /\ _ |- _ => destruct H
         end;
  repeat match goal with
         | H : data _ = data _ |- _ => rewrite H in *
         | H : mark _ = mark _ |- _ => rewrite H in *
         end;
  unfold adv, wf, remaining in *; simpl in *.

Ltac rr_lia := rr_norm; repeat split; simpl; try assumption; try congruence; lia.

(** An unread of the rune [readRune] has just returned. *)
Ltac munread := apply unreadRune_spec; [ rr_lia | ].

Lemma readNumber_spec rr : wf rr -> total readNumber rr (fun _ rr' => adv rr rr').
Proof.
  intros Hwf. unfold readNumber. mstep. mstep.
  apply (total_loop _ (fun _ s => adv rr s) remaining);
    [ | apply adv_refl, Hwf | apply remaining_fuel, Hwf ].
  intros allowExpSign s Hs.
  pose proof (adv_wf _ _ Hwf Hs) as Hwfs.
  mstep. mread c sz e s1 H1; [exact Hwfs|].
  simpl. destruct e as [e|]; repeat mstep; try munread; rr_lia.
Qed.

Lemma readIdentifier_spec rr :
  wf rr -> total readIdentifier rr (fun _ rr' => adv rr rr').
Proof.
  intros Hwf. unfold readIdentifier. mstep. mstep.
  apply (total_loop _ (fun _ s => adv rr s) remaining);
    [ | apply adv_refl, Hwf | apply remaining_fuel, Hwf ].
  intros [] s Hs.
  pose proof (adv_wf _ _ Hwf Hs) as Hwfs.
  mstep. mread c sz e s1 H1; [exact Hwfs|].
  simpl. destruct e as [e|]; repeat mstep; try munread; rr_lia.
Qed.

(** ** String literals: no NUL is consumed *)

(** No byte of [d] from offset [i] up to [j] is zero. *)
Definition noNulBetween (d : list Z) (i j : Z) : Prop :=
  forall k, i <= k < j -> nth (Z.to_nat k) d 0 <> 0.

Lemma noNul_read rr c sz rr' :
  wf rr -> readRune_post rr (c, sz, None) rr' -> c <> 0 ->
  noNulBetween (data rr) (pos rr) (pos rr').
Proof.
  intros Hwf Hpost Hc k Hk.
  simpl in Hpost. destruct Hpost as (_ & _ & _ & _ & Hpos & Hsz & _ & Hd & Hr).
  unfold wf in Hwf.
  replace k with (pos rr + (k - pos rr)) by lia.
  rewrite <- nth_slice_from by lia.
  eapply DecodeRune_nonzero; eauto. lia.
Qed.

Lemma digitVal_nul : strconv.digitVal 0 = None.
Proof. reflexivity. Qed.

Lemma ParseUint_loop_nonzero s base cutoff maxVal n v :
  strconv.ParseUint_loop s base cutoff maxVal n = (v, None) ->
  Forall (fun c => c <> 0) s.
Proof.
  revert n. induction s as [|c s IH]; intros n; simpl; [constructor|].
  destruct (strconv.digitVal c) as [d|] eqn:Hd; [|discriminate].
  destruct (d >=? base); [discriminate|].
  destruct (n >=? cutoff); [discriminate|].
  destruct (_ || _); [discriminate|].
  intros H. constructor; [|eapply IH, H].
  intros ->. rewrite digitVal_nul in Hd. discriminate.
Qed.

Lemma ParseUint_nonzero s base bitSize v :
  strconv.ParseUint s base bitSize = (v, None) -> Forall (fun c => c <> 0) s.
Proof.
  unfold strconv.ParseUint. destruct s as [|c s]; [discriminate|].
  destruct (strconv.ParseUint_loop _ _ _ _ _) as [n [k|]] eqn:E; [discriminate|].
  intros _. eapply ParseUint_loop_nonzero, E.
Qed.

Lemma ParseUint_loop_range s base cutoff maxVal n v :
  strconv.ParseUint_loop s base cutoff maxVal n = (v, Some ErrRange) ->
  v = maxVal.
Proof.
  revert n. induction s as [|c s IH]; intros n; simpl; [discriminate|].
  destruct (strconv.digitVal c) as [d|]; [|discriminate].
  destruct (d >=? base); [discriminate|].
  destruct (n >=? cutoff); [now intros [= <-]|].
  destruct (_ || _); [now intros [= <-]|].
  apply IH.
Qed.

(** [ParseInt], for 32 bits, accepts no string with a NUL byte. *)
Lemma ParseInt_nonzero s base v :
  strconv.ParseInt s base 32 = (v, None) -> Forall (fun c => c <> 0) s.
Proof.
  unfold strconv.ParseInt. destruct s as [|c s]; [discriminate|].
  destruct (strconv.ParseUint _ base 32) as [un [e|]] eqn:E.
  { unfold strconv.ParseUint in E.
    destruct (if (c =? 43) || (c =? 45) then s else c :: s); [now inversion E|].
    destruct (strconv.ParseUint_loop _ _ _ _ _) as [n [[|]|]] eqn:El;
      inversion E; subst; try discriminate.
    apply ParseUint_loop_range in El. subst un.
    destruct (c =? 45); simpl; discriminate. }
  intros _. apply ParseUint_nonzero in E.
  destruct ((c =? 43) || (c =? 45)) eqn:Hs; [|exact E].
  constructor; [|exact E]. lia.
Qed.

Lemma EncodeRune_nul : utf8.EncodeRune 0 = [0].
Proof. reflexivity. Qed.

Lemma string_of_runes_nul u :
  In 0 u -> In 0 (utf8.string_of_runes u).
Proof.
  unfold utf8.string_of_runes. intros H.
  apply in_flat_map. exists 0. split; [exact H|]. rewrite EncodeRune_nul. now left.
Qed.

Lemma ParseInt_runes_nonzero u base v :
  strconv.ParseInt (utf8.string_of_runes u) base 32 = (v, None) -> ~ In 0 u.
Proof.
  intros H Hin. apply ParseInt_nonzero in H.
  apply string_of_runes_nul in Hin.
  rewrite Forall_forall in H. now apply (H 0 Hin).
Qed.

(** [unreadRune], with the state it leaves described. *)
Lemma unreadRune_total rr sz (Q : unit -> runeReader -> Prop) :
  mark rr <= pos rr - sz ->
  (forall rr', data rr' = data rr -> mark rr' = mark rr ->
               pos rr' = pos rr - sz -> err rr' = err rr -> Q tt rr') ->
  total (unreadRune sz) rr Q.
Proof.
  intros Hm HQ. apply unreadRune_spec; [exact Hm|]. now apply HQ.
Qed.

(** Pieces of the data without NUL, put together. *)
Ltac nn_solve :=
  unfold noNulBetween in *;
  let k := fresh "k" in
  let Hk := fresh "Hk" in
  intros k Hk;
  repeat match goal with
         | H : data _ = data _ |- _ => rewrite H in *
         end;
  repeat match goal with
         | H : forall j, ?x <= j < ?y -> nth (Z.to_nat j) _ 0 <> 0 |- _ =>
           destruct (Z_lt_le_dec k y);
           [ destruct (Z_lt_le_dec k x); [ clear H | apply H; lia ] | clear H ];
           try lia
         end;
  lia.

(** [readRunes]: the reader moves on, and the bytes consumed are not zero
    unless a NUL is among the runes. *)
Lemma readRunes_spec n rr :
  wf rr ->
  total (readRunes n) rr
    (fun r rr' =>
       adv rr rr' /\
       (snd r = None -> ~ In 0 (fst r) ->
        noNulBetween (data rr) (pos rr) (pos rr'))).
Proof.
  revert rr. induction n as [|n IH]; intros rr Hwf; simpl.
  - mstep. split; [apply adv_refl, Hwf|]. simpl. intros _ _ k Hk. lia.
  - mstep. mread c sz e s1 H1; [exact Hwf|].
    pose proof (readRune_adv _ _ _ _ _ Hwf H1) as Ha1.
    pose proof (adv_wf _ _ Hwf Ha1) as Hwf1.
    destruct e as [e|].
    + mstep. split; [exact Ha1|]. simpl. discriminate.
    + mstep. eapply total_weaken; [apply IH, Hwf1|].
      intros [u e'] s2 [Ha2 Hn2]. mstep. simpl in *.
      split; [eapply adv_trans; eassumption|].
      intros He' Hin.
      assert (Hc : c <> 0) by (intros ->; apply Hin; now left).
      pose proof (noNul_read _ _ _ _ Hwf H1 Hc) as Hn1.
      assert (Hn2' : noNulBetween (data s1) (pos s1) (pos s2))
        by (apply Hn2; [exact He'|]; intros Hx; apply Hin; now right).
      clear Hn2 IH. rr_norm. nn_solve.
Qed.

(** A read from a well-formed reader, with the facts it leaves; the
    branch of an error and the branch of a rune. *)
Ltac sl_read :=
  lazymatch goal with
  | Hwf : wf ?s |- total readRune ?s _ =>
    let c := fresh "c" in
    let sz := fresh "sz" in
    let e := fresh "e" in
    let s' := fresh "s" in
    let H := fresh "Hrd" in
    let Ha := fresh "Ha" in
    let Hw := fresh "Hwf" in
    eapply total_weaken; [apply readRune_spec; exact Hwf|];
    intros [[c sz] e] s' H;
    pose proof (readRune_adv _ _ _ _ _ Hwf H) as Ha;
    pose proof (adv_wf _ _ Hwf Ha) as Hw;
    destruct e
  end.

(** An unread of a rune read before, with the facts it leaves. *)
Ltac sl_unread :=
  lazymatch goal with
  | |- total (unreadRune _) _ _ =>
    let s' := fresh "s" in
    let Hd := fresh "Hd" in
    let Hm := fresh "Hm" in
    let Hp := fresh "Hp" in
    let He := fresh "He" in
    let Hw := fresh "Hwf" in
    apply unreadRune_total;
    [ rr_lia
    | intros s' Hd Hm Hp He;
      assert (Hw : wf s') by rr_lia ]
  end.

Ltac sl_match :=
  lazymatch goal with
  | |- total (bind _ _) _ _ => apply total_bind
  | |- total (ret _) _ _ => apply total_ret
  | |- total (if ?c then _ else _) _ _ => destruct c eqn:?
  | |- total (match ?e with Some _ => _ | None => _ end) _ _ =>
    first [ is_var e; destruct e | destruct e eqn:? ]
  | |- total (let '(_, _) := ?x in _) _ _ =>
    first [ is_var x; destruct x | destruct x eqn:? ]
  end.

(** The facts of the reads so far as facts about NUL bytes. *)
Ltac nn_prep :=
  repeat match goal with
         | H : strconv.ParseInt (utf8.string_of_runes _) _ 32 = (_, None) |- _ =>
           apply ParseInt_runes_nonzero in H; simpl in H
         end;
  repeat match goal with
         | Hw : wf ?s, H : readRune_post ?s (?c, ?sz, None) ?s' |- _ =>
           try (let Hc := fresh "Hc" in
                assert (Hc : c <> 0) by lia;
                pose proof (noNul_read s c sz s' Hw H Hc));
           simpl in H; destruct H as (? & ? & ? & ? & ? & ? & ? & ? & ?)
         end.

(** One round of the loop of [readStringLiteral] moves the reader on; when
    it goes round again it has consumed something, and unless it fails the
    bytes it consumed are not zero. *)
Lemma readStringLiteral_body_spec quote buf s :
  wf s -> quote <> 0 ->
  total (readStringLiteral_body quote buf) s
    (fun r s' =>
       adv s s' /\
       match r with
       | inl _ => (remaining s' < remaining s)%nat
                  /\ noNulBetween (data s) (pos s) (pos s')
       | inr (_, None) => noNulBetween (data s) (pos s) (pos s')
       | inr (_, Some _) => True
       end).
Proof.
  intros Hwf Hq. unfold readStringLiteral_body. cbv zeta.
  repeat first
    [ progress cbv beta iota zeta
    | sl_read
    | sl_unread
    | lazymatch goal with
      | Hw : wf ?s1 |- total (readRunes ?n) ?s1 _ =>
        let u := fresh "u" in
        let e := fresh "e" in
        let s' := fresh "s" in
        let Ha := fresh "Ha" in
        let Hn := fresh "Hn" in
        let Hw' := fresh "Hwf" in
        eapply total_weaken; [apply (readRunes_spec n s1 Hw)|];
        intros [u e] s' [Ha Hn]; simpl in Hn;
        pose proof (adv_wf _ _ Hw Ha) as Hw'
      end
    | sl_match ].
  all: try (split; [rr_lia | exact I]).
  all: split; [rr_lia|].
  all: try (split; [rr_lia|]).
  all: nn_prep.
  all: try (match goal with
            | Hn : None = None -> _ -> noNulBetween _ _ _ |- _ =>
              specialize (Hn eq_refl ltac:(assumption))
            end).
  all: nn_solve.
Qed.

(** [readStringLiteral] returns, and when it returns a string the bytes
    it consumed, up to the closing quote, are not zero. *)
Lemma readStringLiteral_spec quote rr :
  wf rr -> quote <> 0 ->
  total (readStringLiteral quote) rr
    (fun r rr' =>
       adv rr rr' /\
       (snd r = None -> noNulBetween (data rr) (pos rr) (pos rr'))).
Proof.
  intros Hwf Hq. unfold readStringLiteral. mstep. mstep.
  apply (total_loop _
           (fun _ s => adv rr s /\ noNulBetween (data rr) (pos rr) (pos s))
           remaining);
    [ | split; [apply adv_refl, Hwf | intros k Hk; lia]
      | apply remaining_fuel, Hwf ].
  intros buf s [Hs Hn].
  pose proof (adv_wf _ _ Hwf Hs) as Hwfs.
  eapply total_weaken; [apply readStringLiteral_body_spec; assumption|].
  intros r s' [Ha Hr]. simpl.
  assert (Hadv : adv rr s') by (eapply adv_trans; eassumption).
  destruct r as [buf'|[str [e|]]].
  - destruct Hr as [Hlt Hn']. split; [split; [assumption|]|assumption].
    clear Hlt. rr_norm. nn_solve.
  - split; [assumption|]. discriminate.
  - split; [assumption|]. intros _. rr_norm. nn_solve.
Qed.

(** The reader of a lexer made by [newLexer] is well formed. *)
Lemma newLexer_wf contents filename h : wf (input (newLexer contents filename h)).
Proof.
  unfold newLexer, wf. cbn [input data pos mark].
  match goal with |- context [len ?x] => pose proof (len_nonneg x) end.
  lia.
Qed.


(** ** Emitting a terminal *)

(** The state [l'] after a terminal [n] was emitted from the state [l]:
    the token of [n] is the next of the table, and the pending comments
    are attached, a prefix to the previous terminal and the rest to [n]. *)
Definition emitted (l : protoLex) (n : ast.TerminalNode) (l' : protoLex) : Prop :=
  exists trailing leading,
    comments l = trailing ++ leading
    /\ ast.tokens (info l')
       = ast.tokens (info l)
         ++ [(mark (input l), pos (input l) - mark (input l))]
    /\ ast.Token_of n = len (ast.tokens (info l))
    /\ ast.comments (info l')
       = ast.comments (info l) ++ attachPrev (prevSym l) trailing
         ++ attach (ast.Token_of n) leading
    /\ prevSym l' = Some n
    /\ comments l' = []
    /\ handler l' = handler l
    /\ input l' = input l
    /\ (trailing <> [] ->
        exists p c rest,
          prevSym l = Some p /\ comments l = c :: rest
          /\ startLine (info l') (ast.Token_of n)
             > endLine (info l') (ast.Token_of p)
          /\ startLine (info l') c - endLine (info l') (ast.Token_of p) <= 1).

(** [newToken] followed by [setPrevAndAddComments], as every [set]
    function does. *)
Lemma emit_total {A} (mk : ast.Token -> ast.TerminalNode) (k : ast.TerminalNode -> A)
    (l : protoLex) (Q : A -> protoLex -> Prop) :
  (forall t, ast.Token_of (mk t) = t) ->
  (forall l', emitted l (mk (len (ast.tokens (info l)))) l' ->
              Q (k (mk (len (ast.tokens (info l))))) l') ->
  total (t <- newToken ;; setPrevAndAddComments (mk t) ;; ret (k (mk t))) l Q.
Proof.
  intros Hmk HQ.
  apply total_bind. unfold newToken.
  apply total_bind, total_get. cbn [ast.AddToken].
  apply total_bind, total_put, total_ret.
  set (t := len (ast.tokens (info l))).
  match goal with |- total _ ?s _ => set (l1 := s) end.
  apply total_bind. unfold total at 1.
  rewrite (setPrevAndAddComments_eq (mk t) l1).
  apply total_ret.
  apply HQ.
  exists (fst (splitComments l1 (mk t))), (snd (splitComments l1 (mk t))).
  cbn [info comments prevSym handler input].
  split; [symmetry; apply (splitComments_app l1)|].
  split.
  { rewrite addComments_tokens.
    destruct (prevSym l1); [rewrite addComments_tokens|]; reflexivity. }
  split; [apply Hmk|].
  split.
  { rewrite addComments_comments. subst l1. cbn [prevSym set_info].
    destruct (prevSym l) as [p|] eqn:Hp; cbn [attachPrev].
    - rewrite addComments_comments. cbn [info set_info ast.comments].
      now rewrite app_assoc.
    - reflexivity. }
  do 4 (split; [reflexivity|]).
  intros Htr. destruct (splitComments_trailing l1 (mk t) Htr)
    as (p & c & rest & Hp & Hc & H1 & H2).
  exists p, c, rest. split; [exact Hp|]. split; [exact Hc|].
  assert (Ht : forall x, startLine
             (addComments
                (match prevSym l1 with
                 | Some p0 => addComments (info l1) (fst (splitComments l1 (mk t)))
                                (ast.Token_of p0)
                 | None => info l1
                 end) (snd (splitComments l1 (mk t))) (ast.Token_of (mk t))) x
           = startLine (info l1) x).
  { intros x. apply startLine_ext.
    - rewrite addComments_tokens.
      destruct (prevSym l1); [rewrite addComments_tokens|]; reflexivity.
    - rewrite addComments_lines.
      destruct (prevSym l1); [rewrite addComments_lines|]; reflexivity. }
  assert (He : forall x, endLine
             (addComments
                (match prevSym l1 with
                 | Some p0 => addComments (info l1) (fst (splitComments l1 (mk t)))
                                (ast.Token_of p0)
                 | None => info l1
                 end) (snd (splitComments l1 (mk t))) (ast.Token_of (mk t))) x
           = endLine (info l1) x).
  { intros x. apply endLine_ext.
    - rewrite addComments_tokens.
      destruct (prevSym l1); [rewrite addComments_tokens|]; reflexivity.
    - rewrite addComments_lines.
      destruct (prevSym l1); [rewrite addComments_lines|]; reflexivity. }
  rewrite !Ht, !He. split; assumption.
Qed.

Lemma setRune_total lval val l (Q : protoSymType -> protoLex -> Prop) :
  (forall l', emitted l (ast.RuneNode val (len (ast.tokens (info l)))) l' ->
     Q {| sym_s := sym_s lval; sym_id := sym_id lval; sym_i := sym_i lval;
          sym_f := sym_f lval;
          sym_b := Some (ast.RuneNode val (len (ast.tokens (info l))));
          sym_err := sym_err lval |} l') ->
  total (setRune lval val) l Q.
Proof.
  intros H. unfold setRune.
  apply (emit_total (ast.RuneNode val)
           (fun n => {| sym_s := sym_s lval; sym_id := sym_id lval;
                        sym_i := sym_i lval; sym_f := sym_f lval;
                        sym_b := Some n; sym_err := sym_err lval |}));
    [reflexivity|exact H].
Qed.

Lemma setIdent_total lval val l (Q : protoSymType -> protoLex -> Prop) :
  (forall l', emitted l (ast.IdentNode val (len (ast.tokens (info l)))) l' ->
     Q {| sym_s := sym_s lval;
          sym_id := Some (ast.IdentNode val (len (ast.tokens (info l))));
          sym_i := sym_i lval; sym_f := sym_f lval; sym_b := sym_b lval;
          sym_err := sym_err lval |} l') ->
  total (setIdent lval val) l Q.
Proof.
  intros H. unfold setIdent.
  apply (emit_total (ast.IdentNode val)
           (fun n => {| sym_s := sym_s lval; sym_id := Some n;
                        sym_i := sym_i lval; sym_f := sym_f lval;
                        sym_b := sym_b lval; sym_err := sym_err lval |}));
    [reflexivity|exact H].
Qed.

Lemma setInt_total lval val l (Q : protoSymType -> protoLex -> Prop) :
  (forall l', emitted l (ast.UintLiteralNode val (len (ast.tokens (info l)))) l' ->
     Q {| sym_s := sym_s lval; sym_id := sym_id lval;
          sym_i := Some (ast.UintLiteralNode val (len (ast.tokens (info l))));
          sym_f := sym_f lval; sym_b := sym_b lval;
          sym_err := sym_err lval |} l') ->
  total (setInt lval val) l Q.
Proof.
  intros H. unfold setInt.
  apply (emit_total (ast.UintLiteralNode val)
           (fun n => {| sym_s := sym_s lval; sym_id := sym_id lval;
                        sym_i := Some n; sym_f := sym_f lval;
                        sym_b := sym_b lval; sym_err := sym_err lval |}));
    [reflexivity|exact H].
Qed.

Lemma setFloat_total lval val l (Q : protoSymType -> protoLex -> Prop) :
  (forall l', emitted l (ast.FloatLiteralNode val (len (ast.tokens (info l)))) l' ->
     Q {| sym_s := sym_s lval; sym_id := sym_id lval; sym_i := sym_i lval;
          sym_f := Some (ast.FloatLiteralNode val (len (ast.tokens (info l))));
          sym_b := sym_b lval; sym_err := sym_err lval |} l') ->
  total (setFloat lval val) l Q.
Proof.
  intros H. unfold setFloat.
  apply (emit_total (ast.FloatLiteralNode val)
           (fun n => {| sym_s := sym_s lval; sym_id := sym_id lval;
                        sym_i := sym_i lval; sym_f := Some n;
                        sym_b := sym_b lval; sym_err := sym_err lval |}));
    [reflexivity|exact H].
Qed.

Lemma setString_total lval val l (Q : protoSymType -> protoLex -> Prop) :
  (forall l', emitted l (ast.StringLiteralNode val (len (ast.tokens (info l)))) l' ->
     Q {| sym_s := Some (ast.StringLiteralNode val (len (ast.tokens (info l))));
          sym_id := sym_id lval; sym_i := sym_i lval; sym_f := sym_f lval;
          sym_b := sym_b lval; sym_err := sym_err lval |} l') ->
  total (setString lval val) l Q.
Proof.
  intros H. unfold setString.
  apply (emit_total (ast.StringLiteralNode val)
           (fun n => {| sym_s := Some n; sym_id := sym_id lval;
                        sym_i := sym_i lval; sym_f := sym_f lval;
                        sym_b := sym_b lval; sym_err := sym_err lval |}));
    [reflexivity|exact H].
Qed.

(** [setError] reports the error to the handler and sets it in [lval];
    nothing else changes. *)
Lemma setError_total lval e l (Q : protoSymType -> protoLex -> Prop) :
  (forall h ewp,
     reporter.Unwrap ewp = e ->
     Q {| sym_s := sym_s lval; sym_id := sym_id lval; sym_i := sym_i lval;
          sym_f := sym_f lval; sym_b := sym_b lval; sym_err := Some ewp |}
       (set_handler l h)) ->
  total (setError lval e) l Q.
Proof.
  intros H. unfold total, setError, addSourceError, bind, get, put, ret.
  destruct (reporter.HandleError _ _) as [x h]. apply H. reflexivity.
Qed.

(** ** Scanning keeps what was attached *)

(** From [l] to [l'] the lexer only scanned: the reader moved forward and
    line starts were added; the token table, the attachments, the pending
    comments and the previous terminal are as they were. *)
Definition scanned (l l' : protoLex) : Prop :=
  adv (input l) (input l')
  /\ ast.tokens (info l') = ast.tokens (info l)
  /\ ast.comments (info l') = ast.comments (info l)
  /\ prevSym l' = prevSym l
  /\ comments l' = comments l.

Lemma scanned_refl l : wf (input l) -> scanned l l.
Proof. intros H. split; [apply adv_refl, H|]. repeat split. Qed.

Lemma scanned_trans a b c : scanned a b -> scanned b c -> scanned a c.
Proof.
  intros (H1 & H2 & H3 & H4 & H5) (G1 & G2 & G3 & G4 & G5).
  split; [eapply adv_trans; eassumption|].
  repeat split; congruence.
Qed.

(** Projections of the states the lexer builds. *)
Ltac lx_simpl :=
  cbn [input info handler prevSym prevOffset eof comments
       set_input set_info set_handler set_prevSym set_prevOffset set_eof
       set_comments ast.AddLine ast.tokens ast.comments ast.data ast.lines
       ast.name] in *.

(** Steps of a computation on the lexer state. *)
Ltac lx_step :=
  first
    [ progress cbv beta iota zeta
    | progress lx_simpl
    | lazymatch goal with
      | |- total (on_input _) _ _ => apply total_on_input
      | |- total get _ _ => apply total_get
      | |- total (put _) _ _ => apply total_put
      | |- total (modify _) _ _ => apply total_modify
      | |- total offset _ _ => unfold offset
      | |- total setMark _ _ => unfold setMark
      | |- total getMark _ _ => unfold getMark
      | |- total (maybeNewLine _) _ _ => unfold maybeNewLine
      end
    | sl_read
    | sl_unread
    | sl_match ].

(** What scanning has established, for a state built from [l] by moving
    its reader and adding lines. *)
Ltac scanned_solve :=
  lx_simpl; cbn [fst snd] in *; cbv iota;
  repeat split; lx_simpl;
  first [ reflexivity | assumption | discriminate | rr_lia ].

Lemma skipToEndOfLineComment_spec lval l :
  wf (input l) ->
  total (skipToEndOfLineComment lval) l
    (fun r l' =>
       scanned l l' /\
       if snd r then sym_err (fst r) <> None
       else handler l' = handler l /\ fst r = lval).
Proof.
  intros Hwf. unfold skipToEndOfLineComment. apply total_bind, total_get.
  apply (total_loop _
           (fun _ s => scanned l s /\ handler s = handler l)
           (fun s => remaining (input s)));
    [ | split; [apply scanned_refl, Hwf|reflexivity]
      | apply remaining_fuel, Hwf ].
  intros [] s [Hs Hh].
  assert (Hwfs : wf (input s)) by (eapply adv_wf; [exact Hwf|apply Hs]).
  destruct Hs as (Ha & Ht & Hc & Hp & Hm).
  repeat lx_step.
  all: try (apply setError_total; intros h ewp _; repeat lx_step).
  all: scanned_solve.
Qed.

Lemma skipToEndOfBlockComment_spec lval l :
  wf (input l) ->
  total (skipToEndOfBlockComment lval) l
    (fun r l' =>
       scanned l l' /\
       if snd r then sym_err (fst (fst r)) <> None
       else handler l' = handler l /\ fst (fst r) = lval).
Proof.
  intros Hwf. unfold skipToEndOfBlockComment. apply total_bind, total_get.
  apply (total_loop _
           (fun _ s => scanned l s /\ handler s = handler l)
           (fun s => remaining (input s)));
    [ | split; [apply scanned_refl, Hwf|reflexivity]
      | apply remaining_fuel, Hwf ].
  intros [] s [Hs Hh].
  assert (Hwfs : wf (input s)) by (eapply adv_wf; [exact Hwf|apply Hs]).
  destruct Hs as (Ha & Ht & Hc & Hp & Hm).
  repeat lx_step.
  all: try (apply setError_total; intros h ewp _; repeat lx_step).
  all: scanned_solve.
Qed.

(** ** One round of [Lex] *)

(** The terminal [n] is set in [lval]. *)
Definition holds (lval : protoSymType) (n : ast.TerminalNode) : Prop :=
  sym_s lval = Some n \/ sym_id lval = Some n \/ sym_i lval = Some n
  \/ sym_f lval = Some n \/ sym_b lval = Some n.

(** The token table, the attachments, the pending comments, the previous
    terminal and the handler are the same in [l] and [l']. *)
Definition kept (l l' : protoLex) : Prop :=
  ast.tokens (info l') = ast.tokens (info l)
  /\ ast.comments (info l') = ast.comments (info l)
  /\ prevSym l' = prevSym l
  /\ comments l' = comments l
  /\ handler l' = handler l.

(** What one round of the loop of [Lex] does.  When it goes round again
    it has consumed input and either skipped white space or collected one
    comment, as a new token; nothing is attached.  When it returns, it
    returns an error, with nothing attached and no token added, or it has
    emitted a terminal; the kind 0 is returned with the rune node 0
    only. *)
Definition Lex_body_post (l : protoLex) (r : unit + symbol * protoSymType)
    (l' : protoLex) : Prop :=
  wf (input l') /\ data (input l') = data (input l) /\
  match r with
  | inl _ =>
    (remaining (input l') < remaining (input l))%nat
    /\ handler l' = handler l /\ prevSym l' = prevSym l
    /\ ast.comments (info l') = ast.comments (info l)
    /\ ((ast.tokens (info l') = ast.tokens (info l) /\ comments l' = comments l)
        \/ (exists span,
              ast.tokens (info l') = ast.tokens (info l) ++ [span]
              /\ comments l' = comments l ++ [len (ast.tokens (info l))]))
  | inr (k, lv) =>
    (k = _ERROR /\ sym_err lv <> None
     /\ ast.comments (info l') = ast.comments (info l)
     /\ ast.tokens (info l') = ast.tokens (info l)
     /\ comments l' = comments l /\ prevSym l' = prevSym l)
    \/ (exists l1 n,
          kept l l1 /\ emitted l1 n l' /\ holds lv n /\ k <> _ERROR
          /\ (k = TK 0 ->
              n = ast.RuneNode 0 (ast.Token_of n) /\ sym_b lv = Some n
              /\ eof l' = ast.Token_of n))
  end.

Lemma keyword_lookup_kind str t :
  keyword_lookup keywords str = Some t -> t <> _ERROR /\ forall c, t <> TK c.
Proof.
  unfold keywords. cbn [keyword_lookup].
  repeat match goal with
         | |- context [if ?x then _ else _] => destruct x
         end;
    intros [= <-]; split; intros; discriminate.
Qed.

Lemma emitted_set_eof l n l' t : emitted l n l' -> emitted l n (set_eof l' t).
Proof. unfold emitted. lx_simpl. trivial. Qed.

(** Calls of the scanning functions, with their specifications. *)
Ltac lx_call :=
  lazymatch goal with
  | Hw : wf ?s |- total readNumber ?s _ =>
    let s' := fresh "s" in
    let Ha := fresh "Ha" in
    let Hw' := fresh "Hwf" in
    eapply total_weaken; [apply (readNumber_spec s Hw)|];
    intros [] s' Ha; pose proof (adv_wf _ _ Hw Ha) as Hw'
  | Hw : wf ?s |- total readIdentifier ?s _ =>
    let s' := fresh "s" in
    let Ha := fresh "Ha" in
    let Hw' := fresh "Hwf" in
    eapply total_weaken; [apply (readIdentifier_spec s Hw)|];
    intros [] s' Ha; pose proof (adv_wf _ _ Hw Ha) as Hw'
  | Hw : wf ?s |- total (readStringLiteral ?q) ?s _ =>
    let s' := fresh "s" in
    let Ha := fresh "Ha" in
    let Hn := fresh "Hn" in
    let Hw' := fresh "Hwf" in
    let str := fresh "str" in
    let e := fresh "e" in
    eapply total_weaken; [apply (readStringLiteral_spec q s Hw); lia|];
    intros [str e] s' [Ha Hn]; pose proof (adv_wf _ _ Hw Ha) as Hw'
  | |- total (setRune _ _) _ _ =>
    let l' := fresh "l" in
    let He := fresh "Hem" in
    apply setRune_total; intros l' He
  | |- total (setIdent _ _) _ _ =>
    let l' := fresh "l" in
    let He := fresh "Hem" in
    apply setIdent_total; intros l' He
  | |- total (setInt _ _) _ _ =>
    let l' := fresh "l" in
    let He := fresh "Hem" in
    apply setInt_total; intros l' He
  | |- total (setFloat _ _) _ _ =>
    let l' := fresh "l" in
    let He := fresh "Hem" in
    apply setFloat_total; intros l' He
  | |- total (setString _ _) _ _ =>
    let l' := fresh "l" in
    let He := fresh "Hem" in
    apply setString_total; intros l' He
  | |- total (setError _ _) _ _ =>
    let h := fresh "h" in
    let ewp := fresh "ewp" in
    apply setError_total; intros h ewp _
  | |- total (skipToEndOfLineComment ?lv) ?s _ =>
    let lv' := fresh "lv" in
    let hasErr := fresh "hasErr" in
    let s' := fresh "l" in
    let Hsc := fresh "Hsc" in
    let Hr := fresh "Hr" in
    let Hw' := fresh "Hwf" in
    eapply total_weaken;
    [apply (skipToEndOfLineComment_spec lv s); lx_simpl; assumption|];
    intros [lv' hasErr] s' [Hsc Hr];
    assert (Hw' : wf (input s'))
      by (eapply adv_wf; [|apply Hsc]; lx_simpl; assumption);
    cbn [fst snd] in Hr
  | |- total (skipToEndOfBlockComment ?lv) ?s _ =>
    let lv' := fresh "lv" in
    let ok := fresh "ok" in
    let hasErr := fresh "hasErr" in
    let s' := fresh "l" in
    let Hsc := fresh "Hsc" in
    let Hr := fresh "Hr" in
    let Hw' := fresh "Hwf" in
    eapply total_weaken;
    [apply (skipToEndOfBlockComment_spec lv s); lx_simpl; assumption|];
    intros [[lv' ok] hasErr] s' [Hsc Hr];
    assert (Hw' : wf (input s'))
      by (eapply adv_wf; [|apply Hsc]; lx_simpl; assumption);
    cbn [fst snd] in Hr
  | |- total newToken _ _ => unfold newToken; cbn [ast.AddToken]
  | |- total (emitNumber _ ?t) _ _ => unfold emitNumber; destruct t
  | |- total (lexRune _ _) _ _ => unfold lexRune
  | |- total (match ?e with io_EOF => _ | _ => _ end) _ _ => destruct e
  end.

(** The end of a branch of [Lex_body]. *)
Ltac post_emitted :=
  lazymatch goal with
  | Hem : emitted ?l1 ?n ?l0 |- _ =>
    let Hin := fresh "Hin" in
    assert (Hin : input l0 = input l1)
      by (destruct Hem as (? & ? & ? & ? & ? & ? & ? & ? & ? & Hin' & ?);
          exact Hin');
    unfold Lex_body_post; lx_simpl; rewrite ?Hin; lx_simpl;
    split; [rr_lia|]; split; [rr_lia|];
    right; exists l1, n;
    split; [unfold kept, scanned in *; lx_simpl; repeat split; congruence|];
    split; [first [exact Hem | apply emitted_set_eof; exact Hem]|];
    split; [unfold holds; cbn; tauto|];
    split; [first [discriminate | eapply keyword_lookup_kind; eassumption]|];
    first [ intros _; repeat split; reflexivity
          | intros [= Hc]; exfalso; lia
          | intros Hk; exfalso; eapply keyword_lookup_kind; eassumption
          | discriminate ]
  end.

Ltac post_prep :=
  unfold Lex_body_post, scanned in *; lx_simpl;
  repeat match goal with
         | H : _ /\ _ |- _ => destruct H
         end.

Ltac post_error :=
  post_prep;
  split; [rr_lia|]; split; [rr_lia|];
  left; cbn [sym_err];
  repeat split; first [ reflexivity | assumption | discriminate | congruence ].

Ltac post_continue :=
  post_prep;
  split; [rr_lia|]; split; [rr_lia|];
  split; [rr_lia|];
  split; [congruence|]; split; [congruence|]; split; [congruence|];
  first [ left; split; congruence
        | right; eexists;
          match goal with
          | H : ast.tokens (info ?x) = _, H' : comments ?x = _ |- _ =>
            rewrite H, H'
          end; split; reflexivity ].

Lemma Lex_body_spec lval l :
  wf (input l) -> total (Lex_body lval tt) l (Lex_body_post l).
Proof.
  intros Hwf. unfold Lex_body.
  repeat lx_step.
  set (m0 := {| data := data (input l); pos := pos (input l);
                err := err (input l); mark := pos (input l) |}).
  assert (Hwf0 : wf m0) by (unfold wf in *; simpl; lia).
  assert (Hd0 : data m0 = data (input l)) by reflexivity.
  assert (Hp0 : pos m0 = pos (input l)) by reflexivity.
  clearbody m0.
  repeat first [ lx_step | lx_call ].
  all: try (post_error; fail).
  all: try (post_emitted; fail).
  all: try (post_continue; fail).
Qed.

(** ** A call of [Lex] *)

(** The next [k] tokens of the table of [l]. *)
Definition fresh_tokens (l : protoLex) (k : nat) : list ast.Token :=
  map (fun i => len (ast.tokens (info l)) + Z.of_nat i) (seq 0 k).

Lemma fresh_tokens_S l k :
  fresh_tokens l (S k)
  = fresh_tokens l k ++ [len (ast.tokens (info l)) + Z.of_nat k].
Proof. unfold fresh_tokens. now rewrite seq_S, map_app. Qed.

Lemma fresh_tokens_bounds l k c :
  In c (fresh_tokens l k) ->
  len (ast.tokens (info l)) <= c < len (ast.tokens (info l)) + Z.of_nat k.
Proof.
  unfold fresh_tokens. rewrite in_map_iff. intros (i & <- & Hi).
  apply in_seq in Hi. lia.
Qed.

Lemma fresh_tokens_NoDup l k : NoDup (fresh_tokens l k).
Proof.
  unfold fresh_tokens.
  apply NoDup_map_NoDup_ForallPairs; [|apply seq_NoDup].
  intros i j _ _ H. lia.
Qed.

(** What a call of [Lex] does when the handler has not failed.  The
    comments it collects are new tokens [cs], in order.  Either it returns
    an error: then no comment is attached, and the comments collected stay
    pending.  Or it emits a terminal [n], the next token after [cs]: then
    [cs] is split in two, a prefix attached to the previous terminal and
    the rest to [n], the prefix being empty unless the line conditions
    hold; and the kind 0 comes with the rune node 0, which is also set as
    the [eof] token. *)
Definition Lex_post (l : protoLex) (r : symbol * protoSymType)
    (l' : protoLex) : Prop :=
  let '(k, lv) := r in
  wf (input l') /\ data (input l') = data (input l) /\
  exists spans,
    let cs := fresh_tokens l (List.length spans) in
    (k = _ERROR /\ sym_err lv <> None
     /\ ast.tokens (info l') = ast.tokens (info l) ++ spans
     /\ ast.comments (info l') = ast.comments (info l)
     /\ comments l' = cs
     /\ prevSym l' = prevSym l)
    \/ (exists n span trailing leading,
          k <> _ERROR /\ holds lv n
          /\ ast.tokens (info l') = ast.tokens (info l) ++ spans ++ [span]
          /\ ast.Token_of n = len (ast.tokens (info l)) + len spans
          /\ cs = trailing ++ leading
          /\ ast.comments (info l')
             = ast.comments (info l) ++ attachPrev (prevSym l) trailing
               ++ attach (ast.Token_of n) leading
          /\ prevSym l' = Some n
          /\ comments l' = []
          /\ (trailing <> [] ->
              exists p c rest,
                prevSym l = Some p /\ cs = c :: rest
                /\ startLine (info l') (ast.Token_of n)
                   > endLine (info l') (ast.Token_of p)
                /\ startLine (info l') c - endLine (info l') (ast.Token_of p) <= 1)
          /\ (k = TK 0 ->
              n = ast.RuneNode 0 (ast.Token_of n) /\ sym_b lv = Some n
              /\ eof l' = ast.Token_of n)).

(** A call of [Lex] returns, whatever the input. *)
Lemma Lex_spec lval l :
  wf (input l) ->
  total (Lex lval) l
    (fun r l' =>
       match reporter.ReporterError (handler l) with
       | Some _ => r = (TK 0, lval) /\ l' = l
       | None => Lex_post l r l'
       end).
Proof.
  intros Hwf. unfold Lex. apply total_bind, total_get.
  destruct (reporter.ReporterError (handler l)) as [e|] eqn:Hrep.
  { apply total_ret. split; reflexivity. }
  apply total_bind, total_put.
  apply (total_loop _
           (fun _ s =>
              wf (input s) /\ data (input s) = data (input l)
              /\ handler s = handler l /\ prevSym s = prevSym l
              /\ ast.comments (info s) = ast.comments (info l)
              /\ exists spans,
                   ast.tokens (info s) = ast.tokens (info l) ++ spans
                   /\ comments s = fresh_tokens l (List.length spans))
           (fun s => remaining (input s))).
  - intros [] s (Hwfs & Hd & Hh & Hp & Hc & spans & Ht & Hcs).
    eapply total_weaken; [apply Lex_body_spec, Hwfs|].
    intros [[]|[k lv]] s' (Hwf' & Hd' & Hpost).
    + destruct Hpost as (Hlt & Hh' & Hp' & Hc' & Hcase).
      split; [|exact Hlt].
      split; [exact Hwf'|]. split; [congruence|].
      split; [congruence|]. split; [congruence|]. split; [congruence|].
      destruct Hcase as [[Ht' Hcs']|(span & Ht' & Hcs')].
      * exists spans. split; congruence.
      * exists (spans ++ [span]). split.
        { rewrite Ht', Ht. now rewrite <- app_assoc. }
        rewrite Hcs', Hcs, Ht, length_app. simpl List.length.
        rewrite Nat.add_1_r, fresh_tokens_S, len_app.
        unfold len at 2. reflexivity.
    + split; [exact Hwf'|]. split; [congruence|].
      exists spans.
      destruct Hpost as [(Hk & He & Hc' & Ht' & Hcs' & Hp')
                        |(l1 & n & Hkept & Hem & Hholds & Hk & Heof)].
      * left. repeat split; try assumption; congruence.
      * right. destruct Hkept as (Kt & Kc & Kp & Kcs & Kh).
        destruct Hem as (trailing & leading & E1 & E2 & E3 & E4 & E5 & E6
                         & E7 & E8 & E9).
        exists n, (mark (input l1), pos (input l1) - mark (input l1)),
               trailing, leading.
        split; [exact Hk|]. split; [exact Hholds|].
        split; [rewrite E2, Kt, Ht; now rewrite <- app_assoc|].
        split; [rewrite E3, Kt, Ht, len_app; reflexivity|].
        split; [congruence|].
        split; [rewrite E4, Kc, Hc, Kp, Hp; reflexivity|].
        split; [exact E5|]. split; [exact E6|].
        split; [|exact Heof].
        intros Htr. destruct (E9 Htr) as (p & c & rest & F1 & F2 & F3 & F4).
        exists p, c, rest. repeat split; try assumption; congruence.
  - lx_simpl. split; [exact Hwf|]. repeat split.
    exists []. split; [now rewrite app_nil_r|reflexivity].
  - apply remaining_fuel, Hwf.
Qed.

(** ** The end of the input *)


(** The state after [n] calls of [Lex] on a source text. *)
Definition lexerAfter (n : nat) (src : gostring) : protoLex :=
  match LexN n (lexerOn src) with
  | Ok _ l => l
  | _ => lexerOn src
  end.






(** ** Every comment of a call is attached once, or none is *)

(** C8, as stated, fails: in the source of a line comment followed by
    [@], the comment is collected as token 0, then the invalid character
    makes [Lex] return an error; nothing is attached then, nor by the
    calls that follow, up to the end of the input. *)
Lemma C8_comment_dropped_on_error :
  exists lv1 lv2 lv3 l',
    LexN 3 (lexerOn (bytes_of_string "//c" ++ [10] ++ bytes_of_string "@ x"))
    = Ok [(_ERROR, lv1); (_NAME, lv2); (TK 0, lv3)] l'
    /\ errText lv1 = Some "invalid character"%string
    /\ ast.tokens (info l') = [(0, 4); (6, 1); (7, 0)]
    /\ strings.HasPrefix
         (ast.RawText (ast.TokenInfo (info l') 0)) (bytes_of_string "//") = true
    /\ ast.comments (info l') = [].
Proof.
  do 4 eexists. split; [vm_compute; reflexivity|].
  repeat split; reflexivity.
Qed.

(** What a call of [Lex] attaches.  The tokens it adds to the table are
    the comments [cs] it collected, in order, and after them the token of
    the terminal it emits, if it emits one.  When it emits a terminal,
    the comments of the attachments it adds are exactly [cs], each once,
    and every owner is the previous terminal or the terminal emitted.
    When it returns an error it attaches nothing, and [cs] stays in the
    pending list, which the next call clears. *)
Definition attach_post (l : protoLex) (r : symbol * protoSymType)
    (l' : protoLex) : Prop :=
  exists spans new,
    let cs := fresh_tokens l (List.length spans) in
    NoDup cs
    /\ ast.comments (info l') = ast.comments (info l) ++ new
    /\ (fst r = _ERROR ->
        new = [] /\ comments l' = cs
        /\ ast.tokens (info l') = ast.tokens (info l) ++ spans)
    /\ (fst r <> _ERROR ->
        exists n span,
          holds (snd r) n
          /\ ast.tokens (info l') = ast.tokens (info l) ++ spans ++ [span]
          /\ ast.Token_of n = len (ast.tokens (info l)) + len spans
          /\ map fst new = cs
          /\ comments l' = []
          /\ forall c o, In (c, o) new ->
               o = ast.Token_of n
               \/ exists p, prevSym l = Some p /\ o = ast.Token_of p).

Lemma attach_fst owner cs : map fst (attach owner cs) = cs.
Proof.
  unfold attach. rewrite map_map. simpl. apply map_id.
Qed.

Lemma attachPrev_fst p cs :
  p <> None -> map fst (attachPrev p cs) = cs.
Proof.
  destruct p as [p|]; [|intros H; now elim H]. intros _. apply attach_fst.
Qed.

Lemma attach_owner owner cs c o : In (c, o) (attach owner cs) -> o = owner.
Proof.
  unfold attach. rewrite in_map_iff. intros (x & [= <- <-] & _). reflexivity.
Qed.

(** C8, amended: in every call of [Lex] that emits a terminal, each
    comment token collected during the call is attached exactly once, to
    the previous terminal (trailing) or to the terminal emitted (leading);
    in a call that returns an error, the comments collected are attached
    to nothing: they stay in the pending list, which the next call
    clears. *)
Theorem C8_comments_attached_once (lval : protoSymType) (l : protoLex) :
  wf (input l) -> reporter.ReporterError (handler l) = None ->
  total (Lex lval) l (attach_post l).
Proof.
  intros Hwf Hrep.
  eapply total_weaken; [apply Lex_spec, Hwf|].
  rewrite Hrep. intros [k lv] l' (_ & _ & spans & Hcase).
  unfold attach_post. cbn [fst snd]. exists spans.
  destruct Hcase as [(Hk & He & Ht & Hc & Hcs & Hp)
                    |(n & span & trailing & leading & Hk & Hh & Ht & Htok
                      & Hcs & Hatt & Hp & Hpend & Hlines & _)].
  - exists []. split; [apply fresh_tokens_NoDup|].
    split; [now rewrite app_nil_r|].
    split; [intros _; repeat split; assumption|].
    intros Hne. now elim Hne.
  - exists (attachPrev (prevSym l) trailing ++ attach (ast.Token_of n) leading).
    split; [apply fresh_tokens_NoDup|].
    split; [exact Hatt|].
    split; [intros Hk'; now elim Hk|].
    intros _. exists n, span.
    split; [exact Hh|]. split; [exact Ht|]. split; [exact Htok|].
    split.
    { rewrite map_app, attach_fst, Hcs.
      destruct trailing as [|c tr].
      - destruct (prevSym l); reflexivity.
      - rewrite attachPrev_fst; [reflexivity|].
        destruct (Hlines ltac:(discriminate)) as (p & _ & _ & Hprev & _).
        rewrite Hprev. discriminate. }
    split; [exact Hpend|].
    intros c o Hin. apply in_app_or in Hin. destruct Hin as [Hin|Hin].
    + right. destruct (prevSym l) as [p|]; [|contradiction].
      exists p. split; [reflexivity|]. eapply attach_owner, Hin.
    + left. eapply attach_owner, Hin.
Qed.

(** A run of C8 on the source [a /*x*/ /*y*/ b], from the state after
    [a]: the two comments are attached once each, here both to [b]. *)
Lemma C8_comments_attached_once_witness :
  wf (input (lexerAfter 1 (bytes_of_string "a /*x*/ /*y*/ b")))
  /\ reporter.ReporterError
       (handler (lexerAfter 1 (bytes_of_string "a /*x*/ /*y*/ b"))) = None
  /\ total (Lex empty_sym) (lexerAfter 1 (bytes_of_string "a /*x*/ /*y*/ b"))
       (attach_post (lexerAfter 1 (bytes_of_string "a /*x*/ /*y*/ b")))
  /\ total (Lex empty_sym) (lexerAfter 1 (bytes_of_string "a /*x*/ /*y*/ b"))
       (fun r l' => fst r = _NAME
                    /\ ast.comments (info l') = [(1, 3); (2, 3)]).
Proof.
  assert (Hwf : wf (input (lexerAfter 1 (bytes_of_string "a /*x*/ /*y*/ b"))))
    by (vm_compute; repeat split; discriminate).
  split; [exact Hwf|]. split; [reflexivity|].
  split; [exact (C8_comments_attached_once empty_sym _ Hwf eq_refl)|].
  vm_compute. split; reflexivity.
Defined.

(** ** Float literals *)

(** A lexeme that [Lex] reads as a floating-point literal: it starts with
    a digit, is no hexadecimal literal, and has a point or an exponent. *)
Definition floatLexeme (token : gostring) : bool :=
  negb (strings.HasPrefix token (bytes_of_string "0x")
        || strings.HasPrefix token (bytes_of_string "0X"))
  && (strings.Contains token (bytes_of_string ".")
      || strings.Contains token (bytes_of_string "e")
      || strings.Contains token (bytes_of_string "E")).


Lemma append_empty (s : string) : (s ++ "")%string = s.
Proof. induction s as [|c s IH]; simpl; [reflexivity|now rewrite IH]. Qed.




(** C10, as stated, fails on its example: [strconv] reports no error when
    a float underflows, so [1e-9999] lexes to the float literal 0, without
    an error. *)
Lemma C10_underflow_is_zero :
  atof.ParseFloat (bytes_of_string "1e-9999") = (S754_zero false, None)
  /\ exists lval l',
       Lex empty_sym (lexerOn (bytes_of_string "1e-9999")) = Ok (_FLOAT_LIT, lval) l'
       /\ sym_f lval = Some (ast.FloatLiteralNode (S754_zero false) 0)
       /\ sym_err lval = None
       /\ reporter.ReporterError (handler l') = None.
Proof.
  split; [reflexivity|].
  do 2 eexists. split; [vm_compute; reflexivity|].
  repeat split; reflexivity.
Qed.

(** C10, amended: the leniency of [parseFloat] applies to an overflow to
    positive infinity only.  Whenever [strconv.ParseFloat] reports, for a
    lexeme without underscores, an error that is not a range error with
    the result positive infinity, [parseFloat] returns that error and
    [Lex] makes an error of it instead of a float literal: "value out of
    range for float: <lexeme>" for a range error, "invalid syntax in float
    value: <lexeme>" for a syntax error. *)
Theorem C10_other_float_errors_reported
    (strconv_ParseFloat : gostring -> float64 * option error)
    (token : gostring) (f : float64) (fn : string) (num : gostring)
    (k : NumErrKind) :
  strings.ContainsRune token "_"%rune = false ->
  strconv_ParseFloat token = (f, Some (strconv_NumError fn num k)) ->
  (k = ErrRange -> math.IsInf f 1 = false) ->
  parseFloat strconv_ParseFloat token = (f, Some (strconv_NumError fn num k))
  /\ lexDotNumber strconv_ParseFloat token
     = BadNumber (numError (strconv_NumError fn num k) (bytes_of_string "float") token)
  /\ (floatLexeme token = true ->
      lexNumber strconv_ParseFloat token
      = BadNumber (numError (strconv_NumError fn num k) (bytes_of_string "float") token))
  /\ Error (numError (strconv_NumError fn num k) (bytes_of_string "float") token)
     = Some (match k with
             | ErrRange => "value out of range for float: "
             | ErrSyntax => "invalid syntax in float value: "
             end ++ string_of_bytes token)%string.
Proof.
  intros Hus Hpf Hinf.
  assert (Hp : parseFloat strconv_ParseFloat token
               = (f, Some (strconv_NumError fn num k))).
  { unfold parseFloat. rewrite Hus, Hpf.
    destruct k; [reflexivity|]. now rewrite (Hinf eq_refl). }
  split; [exact Hp|]. split; [|split].
  - unfold lexDotNumber. now rewrite Hp.
  - unfold floatLexeme, lexNumber. intros Hfl.
    apply andb_true_iff in Hfl. destruct Hfl as [Hhex Hdot].
    apply negb_true_iff in Hhex. rewrite Hhex, Hdot, Hp. reflexivity.
  - destruct k; cbn; now rewrite append_empty.
Qed.

(** A [strconv.ParseFloat] that would report every lexeme as a range
    error with the result 0, as an underflow would be if it were an
    error. *)
Definition underflowing (s : gostring) : float64 * option error :=
  (S754_zero false, Some (strconv_NumError "ParseFloat" s ErrRange)).

(** C10 on [1e], a syntax error of the [strconv] of the model, which
    [Lex] reports; and on [1e-9999] with a [strconv] that would report the
    underflow as a range error. *)
Lemma C10_other_float_errors_reported_witness :
  (parseFloat atof.ParseFloat (bytes_of_string "1e")
   = (S754_zero false,
      Some (strconv_NumError "ParseFloat" (bytes_of_string "1e") ErrSyntax))
   /\ lexDotNumber atof.ParseFloat (bytes_of_string "1e")
      = BadNumber (numError (strconv_NumError "ParseFloat" (bytes_of_string "1e") ErrSyntax)
                            (bytes_of_string "float") (bytes_of_string "1e"))
   /\ (floatLexeme (bytes_of_string "1e") = true ->
       lexNumber atof.ParseFloat (bytes_of_string "1e")
       = BadNumber (numError (strconv_NumError "ParseFloat" (bytes_of_string "1e") ErrSyntax)
                             (bytes_of_string "float") (bytes_of_string "1e")))
   /\ Error (numError (strconv_NumError "ParseFloat" (bytes_of_string "1e") ErrSyntax)
                      (bytes_of_string "float") (bytes_of_string "1e"))
      = Some ("invalid syntax in float value: "
              ++ string_of_bytes (bytes_of_string "1e"))%string)
  /\ (parseFloat underflowing (bytes_of_string "1e-9999")
      = (S754_zero false,
         Some (strconv_NumError "ParseFloat" (bytes_of_string "1e-9999") ErrRange))
      /\ lexDotNumber underflowing (bytes_of_string "1e-9999")
         = BadNumber (numError (strconv_NumError "ParseFloat" (bytes_of_string "1e-9999") ErrRange)
                               (bytes_of_string "float") (bytes_of_string "1e-9999"))
      /\ (floatLexeme (bytes_of_string "1e-9999") = true ->
          lexNumber underflowing (bytes_of_string "1e-9999")
          = BadNumber (numError (strconv_NumError "ParseFloat" (bytes_of_string "1e-9999") ErrRange)
                                (bytes_of_string "float") (bytes_of_string "1e-9999")))
      /\ Error (numError (strconv_NumError "ParseFloat" (bytes_of_string "1e-9999") ErrRange)
                         (bytes_of_string "float") (bytes_of_string "1e-9999"))
         = Some ("value out of range for float: "
                 ++ string_of_bytes (bytes_of_string "1e-9999"))%string)
  /\ (exists lval l',
        Lex empty_sym (lexerOn (bytes_of_string "1e")) = Ok (_ERROR, lval) l'
        /\ errText lval = Some "invalid syntax in float value: 1e"%string).
Proof.
  split; [|split].
  - apply (C10_other_float_errors_reported atof.ParseFloat (bytes_of_string "1e"));
      [reflexivity|reflexivity|discriminate].
  - apply (C10_other_float_errors_reported underflowing (bytes_of_string "1e-9999"));
      [reflexivity|reflexivity|reflexivity].
  - do 2 eexists. split; [vm_compute; reflexivity|reflexivity].
Defined.

(** ** String literals and NUL *)





(** ** Runes and their bytes *)

Lemma land_le_l a b : 0 <= a -> Z.land a b <= a.
Proof.
  intros Ha.
  pose proof (Z.lor_ldiff_and a b) as H1.
  pose proof (Z.add_lor_land (Z.ldiff a b) (Z.land a b)) as H2.
  assert (H3 : Z.land (Z.ldiff a b) (Z.land a b) = 0).
  { rewrite (Z.land_comm a b), Z.land_assoc, Z.land_ldiff. reflexivity. }
  assert (H4 : 0 <= Z.ldiff a b) by (apply Z.ldiff_nonneg; now left).
  lia.
Qed.

Lemma lor_ge_l a b : 0 <= a -> 0 <= b -> a <= Z.lor a b.
Proof.
  intros Ha Hb.
  pose proof (Z.add_lor_land a b).
  pose proof (land_le_l b a Hb). rewrite Z.land_comm in H0. lia.
Qed.

Lemma lor_ge_r a b : 0 <= a -> 0 <= b -> b <= Z.lor a b.
Proof. intros Ha Hb. rewrite Z.lor_comm. now apply lor_ge_l. Qed.

Lemma land_mask_nonneg a m : 0 <= m -> 0 <= Z.land a m.
Proof. intros H. apply Z.land_nonneg. now right. Qed.

Lemma shiftl_nonneg a n : 0 <= a -> 0 <= Z.shiftl a n.
Proof. intros H. now apply Z.shiftl_nonneg. Qed.

Lemma land_31 a : Z.land a 31 = a mod 32.
Proof. change 31 with (Z.ones 5). now rewrite Z.land_ones. Qed.

Lemma land_15 a : Z.land a 15 = a mod 16.
Proof. change 15 with (Z.ones 4). now rewrite Z.land_ones. Qed.

Lemma land_7 a : Z.land a 7 = a mod 8.
Proof. change 7 with (Z.ones 3). now rewrite Z.land_ones. Qed.

Lemma land_63 a : Z.land a 63 = a mod 64.
Proof. change 63 with (Z.ones 6). now rewrite Z.land_ones. Qed.

Lemma shiftl_6 a : Z.shiftl a 6 = a * 64.
Proof. now rewrite Z.shiftl_mul_pow2. Qed.

Lemma shiftl_12 a : Z.shiftl a 12 = a * 4096.
Proof. now rewrite Z.shiftl_mul_pow2. Qed.

Lemma shiftl_18 a : Z.shiftl a 18 = a * 262144.
Proof. now rewrite Z.shiftl_mul_pow2. Qed.

(** A rune decoded from one byte is that byte, an ASCII character; a rune
    decoded from more is no ASCII character, and neither are its bytes. *)
Lemma DecodeRune_bytes p c sz :
  utf8.DecodeRune p = (c, sz) -> c <> utf8.RuneError ->
  (sz = 1 /\ nth 0 p 0 = c /\ c < 128)
  \/ (1 < sz /\ 128 <= c /\ forall j, 0 <= j < sz -> 128 <= nth (Z.to_nat j) p 0).
Proof.
  unfold utf8.DecodeRune.
  destruct p as [|p0 t]; [intros [= <- <-] H; now elim H|].
  destruct (p0 <? 128) eqn:H0.
  { intros [= <- <-] _. left. simpl. lia. }
  destruct ((p0 <? 194) || (244 <? p0)) eqn:H1;
    [intros [= <- <-] H; now elim H|].
  destruct (len (p0 :: t) <? _); [intros [= <- <-] H; now elim H|].
  destruct t as [|b1 t1]; [intros [= <- <-] H; now elim H|].
  destruct ((b1 <? _) || (_ <? b1)) eqn:H2;
    [intros [= <- <-] H; now elim H|].
  assert (Hb1 : 128 <= b1 <= 191).
  { destruct (p0 =? 224), (p0 =? 240), (p0 =? 237), (p0 =? 244); lia. }
  rewrite !land_31, !land_15, !land_7, !land_63, !shiftl_6, !shiftl_12, !shiftl_18.
  destruct (_ <=? 2) eqn:Hs2.
  { intros [= <- <-] _. right. split; [lia|]. split.
    - pose proof (lor_ge_l (p0 mod 32 * 64) (b1 mod 64)).
      assert (p0 < 224) by (destruct (p0 <? 224) eqn:?, (p0 <? 240) eqn:?; lia).
      Z.div_mod_to_equations. lia.
    - intros j Hj. assert (j = 0 \/ j = 1) as [ -> | -> ] by lia; simpl; lia. }
  destruct t1 as [|b2 t2]; [intros [= <- <-] H; now elim H|].
  destruct ((b2 <? 128) || (191 <? b2)) eqn:H3;
    [intros [= <- <-] H; now elim H|].
  rewrite ?land_63, ?shiftl_6, ?shiftl_12, ?shiftl_18.
  assert (Hp0 : 224 <= p0) by (destruct (p0 <? 224) eqn:?; lia).
  destruct (_ <=? 3) eqn:Hs3.
  { intros [= <- <-] _. right. split; [lia|]. split.
    - pose proof (lor_ge_l (Z.lor (p0 mod 16 * 4096) (b1 mod 64 * 64))
                    (b2 mod 64)).
      pose proof (lor_ge_l (p0 mod 16 * 4096) (b1 mod 64 * 64)).
      pose proof (lor_ge_r (p0 mod 16 * 4096) (b1 mod 64 * 64)).
      assert (p0 < 240) by (destruct (p0 <? 224) eqn:?, (p0 <? 240) eqn:?; lia).
      destruct (p0 =? 224) eqn:?; Z.div_mod_to_equations; lia.
    - intros j Hj.
      assert (j = 0 \/ j = 1 \/ j = 2) as [ -> | [ -> | -> ] ] by lia; simpl; lia. }
  destruct t2 as [|b3 t3]; [intros [= <- <-] H; now elim H|].
  destruct ((b3 <? 128) || (191 <? b3)) eqn:H4;
    [intros [= <- <-] H; now elim H|].
  rewrite ?land_63, ?shiftl_6, ?shiftl_12, ?shiftl_18.
  assert (Hp0' : 240 <= p0)
    by (destruct (p0 <? 224) eqn:?, (p0 <? 240) eqn:?; lia).
  intros [= <- <-] _. right. split; [lia|]. split.
  - pose proof (lor_ge_l (Z.lor (Z.lor (p0 mod 8 * 262144) (b1 mod 64 * 4096))
                                (b2 mod 64 * 64)) (b3 mod 64)).
    pose proof (lor_ge_l (Z.lor (p0 mod 8 * 262144) (b1 mod 64 * 4096))
                  (b2 mod 64 * 64)).
    pose proof (lor_ge_l (p0 mod 8 * 262144) (b1 mod 64 * 4096)).
    pose proof (lor_ge_r (p0 mod 8 * 262144) (b1 mod 64 * 4096)).
    destruct (p0 =? 224) eqn:?, (p0 =? 240) eqn:?; Z.div_mod_to_equations; lia.
  - intros j Hj.
    assert (j = 0 \/ j = 1 \/ j = 2 \/ j = 3) as [ -> | [ -> | [ -> | -> ] ] ]
      by lia; simpl; lia.
Qed.

(** The bytes a read consumed: the one byte of an ASCII rune, or bytes
    that are no ASCII characters. *)
Lemma readRune_bytes rr c sz rr' :
  wf rr -> readRune_post rr (c, sz, None) rr' ->
  (sz = 1 /\ nth (Z.to_nat (pos rr)) (data rr) 0 = c /\ c < 128)
  \/ (128 <= c
      /\ forall i, pos rr <= i < pos rr' -> 128 <= nth (Z.to_nat i) (data rr) 0).
Proof.
  intros Hwf Hpost. simpl in Hpost.
  destruct Hpost as (_ & _ & _ & _ & Hpos & Hsz & _ & Hd & Hr).
  unfold wf in Hwf.
  destruct (DecodeRune_bytes _ _ _ Hd Hr) as [(H1 & H2 & H3)|(H1 & H2 & H3)].
  - left. split; [exact H1|]. split; [|exact H3].
    rewrite <- H2. change 0%nat with (Z.to_nat 0).
    rewrite nth_slice_from by lia. f_equal. lia.
  - right. split; [exact H2|]. intros i Hi.
    replace i with (pos rr + (i - pos rr)) by lia.
    rewrite <- nth_slice_from by lia. apply H3. lia.
Qed.

Lemma slice_from_cons (d : list Z) (i : Z) :
  0 <= i < len d ->
  slice_from d i = nth (Z.to_nat i) d 0 :: slice_from d (i + 1).
Proof.
  unfold slice_from, len. intros Hi.
  replace (Z.to_nat (i + 1)) with (S (Z.to_nat i)) by lia.
  assert (Hn : (Z.to_nat i < List.length d)%nat) by lia.
  revert Hn. generalize (Z.to_nat i). clear Hi i.
  induction d as [|x d IH]; intros n Hn; simpl in *; [lia|].
  destruct n as [|n]; [reflexivity|]. apply IH. lia.
Qed.

(** A read at an ASCII byte returns that byte. *)
Lemma readRune_ascii rr :
  wf rr -> err rr = None -> pos rr < len (data rr) ->
  nth (Z.to_nat (pos rr)) (data rr) 0 < 128 ->
  readRune rr
  = Ok (nth (Z.to_nat (pos rr)) (data rr) 0, 1, None)
       {| data := data rr; pos := pos rr + 1; err := None; mark := mark rr |}.
Proof.
  intros Hwf Herr Hpos Hb. unfold wf in Hwf.
  unfold readRune, bind, get. rewrite Herr.
  destruct (pos rr =? len (data rr)) eqn:E; [lia|].
  rewrite slice_from_cons by lia.
  unfold utf8.DecodeRune.
  destruct (_ <? 128) eqn:E1; [|lia].
  destruct (_ =? utf8.RuneError) eqn:E2; [unfold utf8.RuneError in E2; lia|].
  reflexivity.
Qed.

(** A read at the end of the data returns [io.EOF] and keeps it. *)
Lemma readRune_eof rr :
  err rr = None -> pos rr = len (data rr) ->
  readRune rr
  = Ok (0, 0, Some io_EOF)
       {| data := data rr; pos := pos rr; err := Some io_EOF; mark := mark rr |}.
Proof.
  intros Herr Hpos. unfold readRune, bind, get. rewrite Herr, Hpos, Z.eqb_refl.
  reflexivity.
Qed.

(** ** What a comment consumes *)

(** Every byte of [d] from offset [i] up to [j] satisfies [P]. *)
Definition allBetween (P : Z -> Prop) (d : list Z) (i j : Z) : Prop :=
  forall k, i <= k < j -> P (nth (Z.to_nat k) d 0).

Lemma allBetween_app P d i j j' :
  allBetween P d i j -> allBetween P d j j' -> allBetween P d i j'.
Proof.
  intros H1 H2 k Hk. destruct (Z_lt_le_dec k j); [apply H1|apply H2]; lia.
Qed.

Lemma allBetween_shrink P d i j j' :
  allBetween P d i j -> j' <= j -> allBetween P d i j'.
Proof. intros H Hj k Hk. apply H. lia. Qed.

Lemma allBetween_empty P d i : allBetween P d i i.
Proof. intros k Hk. lia. Qed.

(** The bytes of a rune that was read satisfy what its ASCII value and
    every byte that is no ASCII character satisfy. *)
Lemma allBetween_read (P : Z -> Prop) rr c sz rr' :
  wf rr -> readRune_post rr (c, sz, None) rr' ->
  (c < 128 -> P c) -> (forall x, 128 <= x -> P x) ->
  allBetween P (data rr) (pos rr) (pos rr').
Proof.
  intros Hwf Hpost Hc Hx k Hk.
  destruct (readRune_bytes _ _ _ _ Hwf Hpost) as [(H1 & H2 & H3)|(H1 & H2)].
  - simpl in Hpost. destruct Hpost as (_ & _ & _ & _ & Hpos & _).
    assert (k = pos rr) as -> by lia. rewrite H2. now apply Hc.
  - apply Hx, H2, Hk.
Qed.

(** An ASCII rune that was read is the byte at the position, and takes
    one byte. *)
Lemma readRune_ascii_inv rr c sz rr' :
  wf rr -> readRune_post rr (c, sz, None) rr' -> c < 128 ->
  pos rr' = pos rr + 1 /\ nth (Z.to_nat (pos rr)) (data rr) 0 = c.
Proof.
  intros Hwf Hpost Hc.
  destruct (readRune_bytes _ _ _ _ Hwf Hpost) as [(H1 & H2 & H3)|(H1 & H2)]; [|lia].
  simpl in Hpost. destruct Hpost as (_ & _ & _ & _ & Hpos & _).
  split; [lia|exact H2].
Qed.

(** Neither a newline nor a NUL. *)
Definition plain (x : Z) : Prop := x <> 10 /\ x <> 0.

(** What [skipToEndOfLineComment] consumes: bytes that are neither NUL
    nor newline and then, unless the reader fails or the input ends, one
    byte, a newline or a NUL.  It reports an error for the NUL, and only
    then; after a newline it has recorded the start of the next line. *)
Definition lineComment_post (lval : protoSymType) (l : protoLex)
    (r : protoSymType * bool) (l' : protoLex) : Prop :=
  let d := data (input l) in
  let p := pos (input l) in
  let p' := pos (input l') in
  if snd r then
    p < p' /\ allBetween plain d p (p' - 1)
    /\ nth (Z.to_nat (p' - 1)) d 0 = 0
    /\ errText (fst r) = Some "invalid control character"%string
  else
    fst r = lval
    /\ ((p < p' /\ allBetween plain d p (p' - 1)
         /\ nth (Z.to_nat (p' - 1)) d 0 = 10
         /\ err (input l') = None
         /\ ast.lines (info l') = ast.lines (info l) ++ [p'])
        \/ (allBetween plain d p p' /\ err (input l') <> None
            /\ ast.lines (info l') = ast.lines (info l))).

Lemma skipToEndOfLineComment_precise lval l :
  wf (input l) ->
  total (skipToEndOfLineComment lval) l (lineComment_post lval l).
Proof.
  intros Hwf. unfold skipToEndOfLineComment. apply total_bind, total_get.
  apply (total_loop _
           (fun _ s =>
              adv (input l) (input s)
              /\ allBetween plain (data (input l)) (pos (input l)) (pos (input s))
              /\ ast.lines (info s) = ast.lines (info l))
           (fun s => remaining (input s)));
    [ | split; [apply adv_refl, Hwf|split; [apply allBetween_empty|reflexivity]]
      | apply remaining_fuel, Hwf ].
  intros [] s (Ha & Hall & Hl).
  assert (Hwfs : wf (input s)) by (eapply adv_wf; eassumption).
  assert (Hd : data (input s) = data (input l)) by apply Ha.
  apply total_bind, total_on_input.
  eapply total_weaken; [apply readRune_spec, Hwfs|].
  intros [[c sz] e] s1 Hrd. cbv beta iota.
  pose proof (readRune_adv _ _ _ _ _ Hwfs Hrd) as Ha1.
  destruct e as [e|].
  { apply total_ret. unfold lineComment_post. lx_simpl. cbn [fst snd].
    split; [reflexivity|]. right.
    simpl in Hrd. destruct Hrd as (_ & _ & Hp & He & _).
    rewrite Hp, He. split; [assumption|]. split; [discriminate|assumption]. }
  destruct (c =? 10) eqn:Hc10.
  { apply Z.eqb_eq in Hc10. subst c.
    destruct (readRune_ascii_inv _ _ _ _ Hwfs Hrd ltac:(lia)) as [Hp Hb].
    repeat lx_step. unfold lineComment_post. lx_simpl. cbn [fst snd].
    split; [reflexivity|]. left. rewrite Hp, Hl.
    replace (pos (input s) + 1 - 1) with (pos (input s)) by lia.
    simpl in Hrd. destruct Hrd as (_ & _ & _ & He & _).
    split; [rr_lia|]. split; [assumption|].
    split; [rewrite <- Hd; exact Hb|]. split; [assumption|reflexivity]. }
  destruct (c =? 0) eqn:Hc0.
  { apply Z.eqb_eq in Hc0. subst c.
    destruct (readRune_ascii_inv _ _ _ _ Hwfs Hrd ltac:(lia)) as [Hp Hb].
    apply total_bind, setError_total. intros h ewp Hun. apply total_ret.
    unfold lineComment_post. lx_simpl. cbn [fst snd]. rewrite Hp.
    replace (pos (input s) + 1 - 1) with (pos (input s)) by lia.
    split; [rr_lia|]. split; [assumption|].
    split; [rewrite <- Hd; exact Hb|].
    unfold errText. cbn [sym_err]. now rewrite Hun. }
  apply total_ret. lx_simpl.
  split; [|rr_lia].
  split; [eapply adv_trans; eassumption|]. split; [|exact Hl].
  eapply allBetween_app; [exact Hall|].
  rewrite <- Hd.
  apply (allBetween_read plain _ _ _ _ Hwfs Hrd); unfold plain; lia.
Qed.

(** No [*/] starts at an offset of [d] from [i] up to [j]. *)
Definition noStarSlash (d : list Z) (i j : Z) : Prop :=
  forall k, i <= k < j ->
    ~ (nth (Z.to_nat k) d 0 = "*"%rune /\ nth (Z.to_nat (k + 1)) d 0 = "/"%rune).

Lemma noStarSlash_app d i j j' :
  noStarSlash d i j -> noStarSlash d j j' -> noStarSlash d i j'.
Proof.
  intros H1 H2 k Hk. destruct (Z_lt_le_dec k j); [apply H1|apply H2]; lia.
Qed.

Lemma noStarSlash_noStar d i j :
  allBetween (fun x => x <> "*"%rune) d i j -> noStarSlash d i j.
Proof. intros H k Hk [Hs _]. now apply (H k Hk). Qed.

(** What [skipToEndOfBlockComment] consumes: bytes without a NUL among
    them, up to the first [*/], which it consumes too, unless it meets a
    NUL first, for which it reports an error, and for nothing else, or the
    reader fails or the input ends first, and then it reports the comment
    as not terminated. *)
Definition blockComment_post (lval : protoSymType) (l : protoLex)
    (r : protoSymType * bool * bool) (l' : protoLex) : Prop :=
  let d := data (input l) in
  let p := pos (input l) in
  let p' := pos (input l') in
  let '(lv, ok, hasErr) := r in
  if hasErr then
    ok = false /\ p < p' /\ noNulBetween d p (p' - 1)
    /\ nth (Z.to_nat (p' - 1)) d 0 = 0
    /\ errText lv = Some "invalid control character"%string
  else
    lv = lval /\ noNulBetween d p p'
    /\ if ok then
         p + 2 <= p' /\ noStarSlash d p (p' - 2)
         /\ nth (Z.to_nat (p' - 2)) d 0 = "*"%rune
         /\ nth (Z.to_nat (p' - 1)) d 0 = "/"%rune
         /\ err (input l') = None
       else err (input l') <> None.

Lemma skipToEndOfBlockComment_precise lval l :
  wf (input l) ->
  total (skipToEndOfBlockComment lval) l (blockComment_post lval l).
Proof.
  intros Hwf. unfold skipToEndOfBlockComment. apply total_bind, total_get.
  apply (total_loop _
           (fun _ s =>
              adv (input l) (input s)
              /\ noNulBetween (data (input l)) (pos (input l)) (pos (input s))
              /\ noStarSlash (data (input l)) (pos (input l)) (pos (input s)))
           (fun s => remaining (input s)));
    [ | split; [apply adv_refl, Hwf|split; intros k Hk; lia]
      | apply remaining_fuel, Hwf ].
  intros [] s (Ha & Hnn & Hns).
  assert (Hwfs : wf (input s)) by (eapply adv_wf; eassumption).
  assert (Hd : data (input s) = data (input l)) by apply Ha.
  apply total_bind, total_on_input.
  eapply total_weaken; [apply readRune_spec, Hwfs|].
  intros [[c sz] e] s1 Hrd. cbv beta iota.
  pose proof (readRune_adv _ _ _ _ _ Hwfs Hrd) as Ha1.
  pose proof (adv_wf _ _ Hwfs Ha1) as Hwf1.
  destruct e as [e|].
  { apply total_ret. unfold blockComment_post. lx_simpl.
    simpl in Hrd. destruct Hrd as (_ & _ & Hp & He & _).
    rewrite Hp, He. split; [reflexivity|]. split; [assumption|discriminate]. }
  destruct (c =? 0) eqn:Hc0.
  { apply Z.eqb_eq in Hc0. subst c.
    destruct (readRune_ascii_inv _ _ _ _ Hwfs Hrd ltac:(lia)) as [Hp Hb].
    apply total_bind, setError_total. intros h ewp Hun. apply total_ret.
    unfold blockComment_post. lx_simpl. rewrite Hp.
    replace (pos (input s) + 1 - 1) with (pos (input s)) by lia.
    split; [reflexivity|]. split; [rr_lia|]. split; [assumption|].
    split; [rewrite <- Hd; exact Hb|].
    unfold errText. cbn [sym_err]. now rewrite Hun. }
  apply Z.eqb_neq in Hc0.
  assert (Hnn1 : noNulBetween (data (input l)) (pos (input l)) (pos s1)).
  { apply (allBetween_app (fun x => x <> 0) _ _ (pos (input s))); [exact Hnn|].
    rewrite <- Hd.
    apply (allBetween_read (fun x => x <> 0) _ _ _ _ Hwfs Hrd); lia. }
  apply total_bind.
  apply (total_weaken _ _
           (fun _ l1 => input l1 = s1
                        /\ l1 = set_info (set_input s s1) (info l1))).
  { unfold maybeNewLine. destruct (c =? 10).
    - repeat lx_step. split; reflexivity.
    - apply total_ret. lx_simpl. split; [reflexivity|].
      unfold set_info, set_input. now destruct s. }
  intros [] l1 [Hin1 _]. cbv beta.
  destruct (c =? 42) eqn:Hc42.
  - apply Z.eqb_eq in Hc42. subst c.
    destruct (readRune_ascii_inv _ _ _ _ Hwfs Hrd ltac:(lia)) as [Hp Hb].
    rewrite Hd in Hb.
    apply total_bind, total_on_input. rewrite Hin1.
    eapply total_weaken; [apply readRune_spec, Hwf1|].
    intros [[c2 sz2] e2] s2 Hrd2. cbv beta iota.
    pose proof (readRune_adv _ _ _ _ _ Hwf1 Hrd2) as Ha2.
    assert (Hd1 : data s1 = data (input l)) by rr_lia.
    destruct e2 as [e2|].
    { apply total_ret. unfold blockComment_post. lx_simpl.
      simpl in Hrd2. destruct Hrd2 as (_ & _ & Hp2 & He2 & _).
      rewrite Hp2, He2. split; [reflexivity|]. split; [assumption|discriminate]. }
    destruct (c2 =? 47) eqn:Hc47.
    + apply Z.eqb_eq in Hc47. subst c2.
      destruct (readRune_ascii_inv _ _ _ _ Hwf1 Hrd2 ltac:(lia)) as [Hp2 Hb2].
      rewrite Hd1 in Hb2.
      apply total_ret. unfold blockComment_post. lx_simpl. rewrite Hp2, Hp.
      replace (pos (input s) + 1 + 1 - 2) with (pos (input s)) by lia.
      replace (pos (input s) + 1 + 1 - 1) with (pos (input s) + 1) by lia.
      split; [reflexivity|]. split.
      { apply (allBetween_app (fun x => x <> 0) _ _ (pos s1)); [exact Hnn1|].
        rewrite <- Hd1, <- Hp,
          <- (Z.add_0_r (pos s1 + 1)), Z.add_0_r.
        replace (pos s1 + 1) with (pos s2) by lia.
        apply (allBetween_read (fun x => x <> 0) _ _ _ _ Hwf1 Hrd2); lia. }
      split; [rr_lia|]. split; [assumption|]. split; [assumption|].
      split; [rewrite <- Hp; assumption|].
      simpl in Hrd2. now destruct Hrd2 as (_ & _ & _ & He2 & _).
    + apply Z.eqb_neq in Hc47.
      apply total_bind, total_on_input. apply unreadRune_total; [rr_lia|].
      intros s3 Hd3 Hm3 Hp3 He3. apply total_ret. lx_simpl.
      assert (Hp3' : pos s3 = pos s1) by rr_lia.
      split; [|rr_lia].
      split; [rr_lia|]. split; [now rewrite Hp3'|].
      rewrite Hp3', Hp.
      apply (noStarSlash_app _ _ (pos (input s))); [exact Hns|].
      intros k Hk [_ Hslash]. assert (k = pos (input s)) as -> by lia.
      rewrite <- Hp, <- Hd1 in Hslash.
      destruct (readRune_bytes _ _ _ _ Hwf1 Hrd2) as [(_ & H2 & _)|(_ & H2)].
      * lia.
      * specialize (H2 (pos s1)). simpl in Hrd2. lia.
  - apply Z.eqb_neq in Hc42. apply total_ret.
    split; [|rewrite Hin1; rr_lia]. rewrite Hin1.
    split; [eapply adv_trans; eassumption|]. split; [exact Hnn1|].
    apply (noStarSlash_app _ _ (pos (input s))); [exact Hns|].
    apply noStarSlash_noStar. rewrite <- Hd.
    apply (allBetween_read (fun x => x <> 42) _ _ _ _ Hwfs Hrd); lia.
Qed.

(** ** A slash *)

Lemma total_readRune_ascii rr (Q : Z * Z * option error -> runeReader -> Prop) :
  wf rr -> err rr = None -> pos rr < len (data rr) ->
  nth (Z.to_nat (pos rr)) (data rr) 0 < 128 ->
  Q (nth (Z.to_nat (pos rr)) (data rr) 0, 1, None)
    {| data := data rr; pos := pos rr + 1; err := None; mark := mark rr |} ->
  total readRune rr Q.
Proof.
  intros Hwf He Hp Hb HQ. unfold total. now rewrite readRune_ascii.
Qed.


(** A condition on a known rune, evaluated. *)
Ltac eval_if :=
  lazymatch goal with
  | |- total (if ?c then _ else _) _ _ =>
    let v := eval vm_compute in c in
    lazymatch v with
    | true => change c with true
    | false => change c with false
    end;
    cbv iota
  end.










(** ** Comments: C5 and C9 *)





Lemma ContainsRune_whitespace c :
  0 <= c < 128 ->
  strings.ContainsRune [10; 13; 9; 12; 11; 32] c = true ->
  c = 9 \/ c = 10 \/ c = 11 \/ c = 12 \/ c = 13 \/ c = 32.
Proof.
  intros Hc. unfold strings.ContainsRune, utf8.RuneSelf.
  replace ((0 <=? c) && (c <? 128)) with true by lia.
  simpl existsb. lia.
Qed.

(** At the top level a control character that is no white space is the
    error "invalid control character". *)
Lemma Lex_body_control lval l :
  wf (input l) -> err (input l) = None ->
  pos (input l) < len (data (input l)) ->
  (let c := nth (Z.to_nat (pos (input l))) (data (input l)) 0 in
   0 <= c < 9 \/ 13 < c < 32 \/ c = 127) ->
  total (Lex_body lval tt) l
    (fun r _ => exists lv,
         r = inr (_ERROR, lv)
         /\ errText lv = Some "invalid control character"%string).
Proof.
  intros Hwf Herr Hpos Hc. cbv zeta in Hc.
  unfold Lex_body.
  apply total_bind, total_on_input, total_modify.
  apply total_bind, total_on_input, total_bind, total_get, total_ret.
  apply total_bind, total_modify.
  lx_simpl; cbn [pos data err mark].
  apply total_bind, total_on_input.
  apply total_readRune_ascii; lx_simpl; cbn [pos data err mark];
    [unfold wf in *; cbn [pos data err mark]; lia|exact Herr|exact Hpos|lia|].
  set (c := nth _ _ _) in *. cbv beta iota.
  destruct (strings.ContainsRune _ c) eqn:Hws.
  { apply ContainsRune_whitespace in Hws; lia. }
  repeat lazymatch goal with
         | |- total (if ?b then _ else _) _ _ =>
           destruct b eqn:?; [exfalso; lia|]
         end.
  unfold lexRune.
  destruct ((c <? 32) || (c =? 127)) eqn:Hctl; [|exfalso; lia].
  apply total_bind, setError_total. intros h ewp Hun. apply total_ret.
  eexists. split; [reflexivity|].
  unfold errText. cbn [sym_err]. now rewrite Hun.
Qed.

(** What the lexer does with a control character: inside a line comment
    and inside a block comment only the NUL is an error, every other byte
    being consumed as content; at the top level every control character
    that is no white space is an error. *)
Definition controlCharacters (lval : protoSymType) (l : protoLex) : Prop :=
  total (skipToEndOfLineComment lval) l (lineComment_post lval l)
  /\ total (skipToEndOfBlockComment lval) l (blockComment_post lval l)
  /\ (err (input l) = None ->
      pos (input l) < len (data (input l)) ->
      (let c := nth (Z.to_nat (pos (input l))) (data (input l)) 0 in
       0 <= c < 9 \/ 13 < c < 32 \/ c = 127) ->
      total (Lex_body lval tt) l
        (fun r _ => exists lv,
             r = inr (_ERROR, lv)
             /\ errText lv = Some "invalid control character"%string)).

(** C9: inside the body of a line comment or of a block comment only the
    NUL codepoint triggers the error "invalid control character": the
    scan of a comment reports an error exactly when the last byte it
    consumed is a NUL, and every other byte, a control character as well,
    is consumed as content.  At the top level such a control character is
    the error "invalid control character". *)
Theorem C9_control_characters_in_comments (lval : protoSymType) (l : protoLex) :
  wf (input l) -> controlCharacters lval l.
Proof.
  intros Hwf. unfold controlCharacters. split; [|split].
  - apply skipToEndOfLineComment_precise, Hwf.
  - apply skipToEndOfBlockComment_precise, Hwf.
  - intros. now apply Lex_body_control.
Qed.

(** The source of a line comment with the control characters 1 and 127,
    a newline, a block comment with the same, and [x]. *)
Definition controlSource : gostring :=
  bytes_of_string "//" ++ [1; 127; 10] ++ bytes_of_string "/*" ++ [1; 127]
  ++ bytes_of_string "*/x".

(** C9 on comments with the control characters 1 and 127: both comments
    are collected and [Lex] goes on to [x]; the same characters at the top
    level, and a NUL in a comment, are errors. *)
Lemma C9_control_characters_in_comments_witness :
  wf (input (lexerOn controlSource))
  /\ controlCharacters empty_sym (lexerOn controlSource)
  /\ (exists lval l',
        Lex empty_sym (lexerOn controlSource) = Ok (_NAME, lval) l'
        /\ sym_id lval = Some (ast.IdentNode (bytes_of_string "x") 2)
        /\ ast.tokens (info l') = [(0, 5); (5, 6); (11, 1)]
        /\ ast.comments (info l') = [(0, 2); (1, 2)]
        /\ reporter.ReporterError (handler l') = None)
  /\ (exists lval l',
        Lex empty_sym (lexerOn [1]) = Ok (_ERROR, lval) l'
        /\ errText lval = Some "invalid control character"%string)
  /\ (exists lval l',
        Lex empty_sym (lexerOn [127]) = Ok (_ERROR, lval) l'
        /\ errText lval = Some "invalid control character"%string)
  /\ (exists lval l',
        Lex empty_sym (lexerOn (bytes_of_string "//a" ++ [0; 10])) = Ok (_ERROR, lval) l'
        /\ errText lval = Some "invalid control character"%string)
  /\ (exists lval l',
        Lex empty_sym (lexerOn (bytes_of_string "/*a" ++ [0] ++ bytes_of_string "*/"))
        = Ok (_ERROR, lval) l'
        /\ errText lval = Some "invalid control character"%string).
Proof.
  assert (Hwf : wf (input (lexerOn controlSource)))
    by (vm_compute; repeat split; discriminate).
  split; [exact Hwf|].
  split; [exact (C9_control_characters_in_comments empty_sym _ Hwf)|].
  split.
  { do 2 eexists. split; [vm_compute; reflexivity|]. repeat split; reflexivity. }
  repeat split; do 2 eexists; (split; [vm_compute; reflexivity|reflexivity]).
Defined.

(** * More properties of the lexer *)

(** ** The rune reader *)

(** A reader whose fields are those of [rr] is [rr]. *)
Lemma runeReader_eta rr :
  {| data := data rr; pos := pos rr; err := err rr; mark := mark rr |} = rr.
Proof. now destruct rr. Qed.

(** What a successful read leaves. *)
Lemma readRune_ok_inv rr c sz rr' :
  readRune rr = Ok (c, sz, None) rr' ->
  err rr = None
  /\ utf8.DecodeRune (slice_from (data rr) (pos rr)) = (c, sz)
  /\ c <> utf8.RuneError
  /\ pos rr <> len (data rr)
  /\ rr' = {| data := data rr; pos := pos rr + sz; err := None; mark := mark rr |}.
Proof.
  unfold readRune, bind, get, put, ret.
  destruct (err rr) as [e|]; [discriminate|].
  destruct (pos rr =? len (data rr)) eqn:Hp; [discriminate|].
  destruct (utf8.DecodeRune _) as [r n] eqn:Hd.
  destruct (r =? utf8.RuneError) eqn:Hr; [discriminate|].
  intros [= <- <- <-]. apply Z.eqb_neq in Hp, Hr. repeat split; assumption.
Qed.

(** X1: [unreadRune] with the size [readRune] has just returned undoes the
    read: the reader is back in the state it was in, and nothing panics. *)
Theorem X1_unreadRune_undoes_readRune (rr rr' : runeReader) (c sz : Z) :
  wf rr ->
  readRune rr = Ok (c, sz, None) rr' ->
  unreadRune sz rr' = Ok tt rr.
Proof.
  intros [Hm _] Hread.
  destruct (readRune_ok_inv _ _ _ _ Hread) as (He & _ & _ & _ & ->).
  unfold unreadRune, bind, get, put. cbn [pos mark data err].
  destruct (pos rr + sz - sz <? mark rr) eqn:E; [lia|].
  rewrite <- He, Z.add_simpl_r. now rewrite runeReader_eta.
Qed.

(** A reader in the middle of [ab], after a mark at 0. *)
Definition midReader : runeReader :=
  {| data := bytes_of_string "ab"; pos := 1; err := None; mark := 0 |}.

Lemma X1_unreadRune_undoes_readRune_witness :
  unreadRune 1 {| data := bytes_of_string "ab"; pos := 2; err := None; mark := 0 |}
  = Ok tt midReader.
Proof.
  apply (X1_unreadRune_undoes_readRune midReader _ "b"%rune 1).
  - unfold wf. vm_compute. repeat split; discriminate.
  - reflexivity.
Defined.

(** X2: an error of the reader is kept.  When [readRune] returns an
    error it returns the rune 0 and the size 0 and does not move, and
    every later read returns the same error and changes nothing. *)
Theorem X2_readRune_error_is_kept (rr rr' : runeReader) (c sz : Z) (e : error) :
  readRune rr = Ok (c, sz, Some e) rr' ->
  c = 0 /\ sz = 0
  /\ data rr' = data rr /\ pos rr' = pos rr /\ mark rr' = mark rr
  /\ err rr' = Some e
  /\ readRune rr' = Ok (0, 0, Some e) rr'.
Proof.
  unfold readRune, bind, get, put, ret.
  destruct (err rr) as [e0|] eqn:He.
  { intros [= <- <- <- <-]. rewrite He. repeat split; assumption. }
  destruct (pos rr =? len (data rr)) eqn:Hp.
  { intros [= <- <- <- <-]. repeat split. }
  destruct (utf8.DecodeRune _) as [r n] eqn:Hd.
  destruct (r =? utf8.RuneError) eqn:Hr; [|discriminate].
  intros [= <- <- <- <-]. repeat split.
Qed.

(** X2 at the end of the data, and at a byte that starts no rune. *)
Lemma X2_readRune_error_is_kept_witness :
  (0 = 0 /\ 0 = 0
   /\ data {| data := [97]; pos := 1; err := Some io_EOF; mark := 0 |} = [97]
   /\ pos {| data := [97]; pos := 1; err := Some io_EOF; mark := 0 |} = 1
   /\ mark {| data := [97]; pos := 1; err := Some io_EOF; mark := 0 |} = 0
   /\ err {| data := [97]; pos := 1; err := Some io_EOF; mark := 0 |} = Some io_EOF
   /\ readRune {| data := [97]; pos := 1; err := Some io_EOF; mark := 0 |}
      = Ok (0, 0, Some io_EOF)
           {| data := [97]; pos := 1; err := Some io_EOF; mark := 0 |})
  /\ exists e rr',
       readRune {| data := [255]; pos := 0; err := None; mark := 0 |}
       = Ok (0, 0, Some e) rr'
       /\ e = fmt_Errorf "invalid UTF8 at offset %d: %x" [ArgD 0; ArgX 255]
       /\ pos rr' = 0.
Proof.
  split.
  - apply (X2_readRune_error_is_kept
             {| data := [97]; pos := 1; err := None; mark := 0 |}).
    reflexivity.
  - do 2 eexists. split; [vm_compute; reflexivity|]. split; reflexivity.
Defined.

(** ** [newLexer] and the byte order mark *)

Lemma gostring_eqb_bom s :
  gostring_eqb (firstn 3 s) utf8Bom = strings.HasPrefix s utf8Bom.
Proof.
  unfold utf8Bom.
  destruct s as [|a [|b [|c s]]]; cbn [firstn gostring_eqb strings.HasPrefix];
    try reflexivity.
  now destruct s.
Qed.

(** X3: [newLexer] drops one byte order mark at the head of the source,
    and no more: the source [bom ++ s] starts the lexer on [s], the same
    state as the source [s] does when [s] begins with no mark of its own,
    so that offsets are counted after the mark. *)
Theorem X3_newLexer_drops_bom (s : gostring) (filename : string)
    (h : reporter.Handler) :
  data (input (newLexer (utf8Bom ++ s) filename h)) = s
  /\ ast.data (info (newLexer (utf8Bom ++ s) filename h)) = s
  /\ pos (input (newLexer (utf8Bom ++ s) filename h)) = 0
  /\ (strings.HasPrefix s utf8Bom = false ->
      newLexer (utf8Bom ++ s) filename h = newLexer s filename h).
Proof.
  unfold newLexer. rewrite (gostring_eqb_bom s).
  change (gostring_eqb (firstn 3 (utf8Bom ++ s)) utf8Bom) with true.
  cbv iota. cbn [input info data pos ast.data ast.NewFileInfo].
  change (skipn 3 (utf8Bom ++ s)) with s.
  repeat split. intros ->. reflexivity.
Qed.

(** ** Runes and their encoding *)

(** Bits that do not overlap: [lor] is the sum. *)
Lemma lor_disjoint x y n :
  0 <= n -> 0 <= y < 2 ^ n -> x mod 2 ^ n = 0 -> Z.lor x y = x + y.
Proof.
  intros Hn Hy Hx.
  assert (Hl : Z.land x y = 0).
  { apply Z.bits_inj'. intros i Hi. rewrite Z.land_spec, Z.bits_0.
    destruct (Z.lt_ge_cases i n) as [Hlt|Hge].
    - rewrite <- (Z.mod_pow2_bits_low x n i) by lia.
      rewrite Hx, Z.bits_0. reflexivity.
    - rewrite <- (Z.mod_small y (2 ^ n)) by lia.
      rewrite Z.mod_pow2_bits_high by lia. apply andb_false_r. }
  pose proof (Z.add_lor_land x y) as H. rewrite Hl in H. lia.
Qed.

Lemma shiftr_6 a : Z.shiftr a 6 = a / 64.
Proof. now rewrite Z.shiftr_div_pow2. Qed.
Lemma shiftr_12 a : Z.shiftr a 12 = a / 4096.
Proof. now rewrite Z.shiftr_div_pow2. Qed.
Lemma shiftr_18 a : Z.shiftr a 18 = a / 262144.
Proof. now rewrite Z.shiftr_div_pow2. Qed.

(** The rune of a sequence of two, three and four bytes. *)
Lemma decode2 p0 b1 :
  Z.lor (Z.shiftl (Z.land p0 31) 6) (Z.land b1 63)
  = p0 mod 32 * 64 + b1 mod 64.
Proof.
  rewrite land_31, land_63, shiftl_6.
  apply (lor_disjoint _ _ 6); [lia| |].
  - change (2 ^ 6) with 64. apply Z.mod_pos_bound. lia.
  - apply Z.mod_mul. discriminate.
Qed.

Lemma decode3 p0 b1 b2 :
  Z.lor (Z.lor (Z.shiftl (Z.land p0 15) 12) (Z.shiftl (Z.land b1 63) 6))
        (Z.land b2 63)
  = p0 mod 16 * 4096 + b1 mod 64 * 64 + b2 mod 64.
Proof.
  rewrite land_15, !land_63, shiftl_6, shiftl_12.
  rewrite (lor_disjoint (p0 mod 16 * 4096) (b1 mod 64 * 64) 12).
  - apply (lor_disjoint _ _ 6); [lia| |].
    + change (2 ^ 6) with 64. apply Z.mod_pos_bound. lia.
    + change (2 ^ 6) with 64. Z.div_mod_to_equations. lia.
  - lia.
  - change (2 ^ 12) with 4096. Z.div_mod_to_equations. lia.
  - apply Z.mod_mul. discriminate.
Qed.

Lemma decode4 p0 b1 b2 b3 :
  Z.lor (Z.lor (Z.lor (Z.shiftl (Z.land p0 7) 18) (Z.shiftl (Z.land b1 63) 12))
               (Z.shiftl (Z.land b2 63) 6))
        (Z.land b3 63)
  = p0 mod 8 * 262144 + b1 mod 64 * 4096 + b2 mod 64 * 64 + b3 mod 64.
Proof.
  rewrite land_7, !land_63, shiftl_6, shiftl_12, shiftl_18.
  rewrite (lor_disjoint (p0 mod 8 * 262144) (b1 mod 64 * 4096) 18).
  - rewrite (lor_disjoint _ (b2 mod 64 * 64) 12).
    + apply (lor_disjoint _ _ 6); [lia| |].
      * change (2 ^ 6) with 64. apply Z.mod_pos_bound. lia.
      * change (2 ^ 6) with 64. Z.div_mod_to_equations. lia.
    + lia.
    + change (2 ^ 12) with 4096. Z.div_mod_to_equations. lia.
    + change (2 ^ 12) with 4096. Z.div_mod_to_equations. lia.
  - lia.
  - change (2 ^ 18) with 262144. Z.div_mod_to_equations. lia.
  - apply Z.mod_mul. discriminate.
Qed.

(** A lead or continuation mark and the bits below it. *)
Lemma lor_mark m x n :
  0 <= n -> m mod 2 ^ n = 0 -> 0 <= x < 2 ^ n -> Z.lor m x = m + x.
Proof. intros Hn Hm Hx. now apply (lor_disjoint m x n). Qed.

(** The rune decoded from [p], a sequence that begins with a byte, is
    encoded as the bytes it was decoded from. *)
Lemma EncodeRune_DecodeRune p c sz :
  0 <= nth 0 p 0 ->
  utf8.DecodeRune p = (c, sz) -> c <> utf8.RuneError ->
  utf8.EncodeRune c = firstn (Z.to_nat sz) p.
Proof.
  unfold utf8.DecodeRune, utf8.RuneError.
  destruct p as [|p0 t]; [intros _ [= <- <-] H; now elim H|].
  cbn [nth]. intros Hp0.
  destruct (p0 <? 128) eqn:H0.
  { intros [= <- <-] _. unfold utf8.EncodeRune.
    rewrite Z.mod_small by lia.
    destruct (p0 <=? 127) eqn:E; [reflexivity|lia]. }
  destruct ((p0 <? 194) || (244 <? p0)) eqn:H1;
    [intros [= <- <-] H; now elim H|].
  destruct (len (p0 :: t) <? _); [intros [= <- <-] H; now elim H|].
  destruct t as [|b1 t1]; [intros [= <- <-] H; now elim H|].
  destruct ((b1 <? _) || (_ <? b1)) eqn:H2;
    [intros [= <- <-] H; now elim H|].
  assert (Hb1 : 128 <= b1 <= 191).
  { destruct (p0 =? 224), (p0 =? 240), (p0 =? 237), (p0 =? 244); lia. }
  rewrite ?decode2.
  destruct (_ <=? 2) eqn:Hs2.
  { intros [= <- <-] _.
    assert (Hp : 194 <= p0 < 224)
      by (destruct (p0 <? 224) eqn:?, (p0 <? 240) eqn:?; lia).
    set (c := p0 mod 32 * 64 + b1 mod 64).
    assert (Hc : 128 <= c <= 2047 /\ c / 64 = p0 - 192 /\ c mod 64 = b1 - 128)
      by (subst c; Z.div_mod_to_equations; lia).
    destruct Hc as (Hc & Hq & Hr).
    unfold utf8.EncodeRune. rewrite (Z.mod_small c) by lia.
    destruct (c <=? 127) eqn:E1; [lia|].
    destruct (c <=? 2047) eqn:E2; [|lia].
    rewrite shiftr_6, land_63, Hq, Hr.
    rewrite (lor_mark 192 (p0 - 192) 5), (lor_mark 128 (b1 - 128) 6);
      try reflexivity; try lia.
    change (Z.to_nat 2) with 2%nat. cbn [firstn].
    replace (192 + (p0 - 192)) with p0 by lia.
    replace (128 + (b1 - 128)) with b1 by lia. reflexivity. }
  destruct t1 as [|b2 t2]; [intros [= <- <-] H; now elim H|].
  destruct ((b2 <? 128) || (191 <? b2)) eqn:H3;
    [intros [= <- <-] H; now elim H|].
  assert (Hp224 : 224 <= p0) by (destruct (p0 <? 224) eqn:?; lia).
  rewrite ?decode3.
  destruct (_ <=? 3) eqn:Hs3.
  { intros [= <- <-] Hne.
    assert (Hp : 224 <= p0 < 240)
      by (destruct (p0 <? 224) eqn:?, (p0 <? 240) eqn:?; lia).
    set (c := p0 mod 16 * 4096 + b1 mod 64 * 64 + b2 mod 64) in *.
    assert (Hc : 2048 <= c <= 65535 /\ (c < 55296 \/ 57343 < c)
                 /\ c / 4096 = p0 - 224
                 /\ (c / 64) mod 64 = b1 - 128 /\ c mod 64 = b2 - 128).
    { subst c.
      destruct (p0 =? 224) eqn:?, (p0 =? 237) eqn:?,
               (p0 =? 240) eqn:?, (p0 =? 244) eqn:?;
        try lia; Z.div_mod_to_equations; lia. }
    destruct Hc as (Hc & Hsur & Hq & Hm & Hr).
    unfold utf8.EncodeRune, utf8.MaxRune. rewrite (Z.mod_small c) by lia.
    destruct (c <=? 127) eqn:E1; [lia|].
    destruct (c <=? 2047) eqn:E2; [lia|].
    destruct ((1114111 <? c) || ((55296 <=? c) && (c <=? 57343))) eqn:E3; [lia|].
    destruct (c <=? 65535) eqn:E4; [|lia].
    unfold utf8.enc3.
    rewrite shiftr_12, shiftr_6, !land_63, Hq, Hm, Hr.
    rewrite (lor_mark 224 (p0 - 224) 4), (lor_mark 128 (b1 - 128) 6),
      (lor_mark 128 (b2 - 128) 6); try reflexivity; try lia.
    change (Z.to_nat 3) with 3%nat. cbn [firstn].
    replace (224 + (p0 - 224)) with p0 by lia.
    replace (128 + (b1 - 128)) with b1 by lia.
    replace (128 + (b2 - 128)) with b2 by lia. reflexivity. }
  destruct t2 as [|b3 t3]; [intros [= <- <-] H; now elim H|].
  destruct ((b3 <? 128) || (191 <? b3)) eqn:H4;
    [intros [= <- <-] H; now elim H|].
  assert (Hp : 240 <= p0 <= 244)
    by (destruct (p0 <? 224) eqn:?, (p0 <? 240) eqn:?; lia).
  rewrite ?decode4.
  intros [= <- <-] Hne.
  set (c := p0 mod 8 * 262144 + b1 mod 64 * 4096 + b2 mod 64 * 64 + b3 mod 64) in *.
  assert (Hc : 65536 <= c <= 1114111
               /\ c / 262144 = p0 - 240
               /\ (c / 4096) mod 64 = b1 - 128
               /\ (c / 64) mod 64 = b2 - 128 /\ c mod 64 = b3 - 128).
  { subst c.
    destruct (p0 =? 224) eqn:?, (p0 =? 237) eqn:?,
             (p0 =? 240) eqn:?, (p0 =? 244) eqn:?;
      try lia; Z.div_mod_to_equations; lia. }
  destruct Hc as (Hc & Hq & Hm1 & Hm2 & Hr).
  unfold utf8.EncodeRune, utf8.MaxRune. rewrite (Z.mod_small c) by lia.
  destruct (c <=? 127) eqn:E1; [lia|].
  destruct (c <=? 2047) eqn:E2; [lia|].
  destruct ((1114111 <? c) || ((55296 <=? c) && (c <=? 57343))) eqn:E3; [lia|].
  destruct (c <=? 65535) eqn:E4; [lia|].
  rewrite shiftr_18, shiftr_12, shiftr_6, !land_63, Hq, Hm1, Hm2, Hr.
  rewrite (lor_mark 240 (p0 - 240) 3), (lor_mark 128 (b1 - 128) 6),
    (lor_mark 128 (b2 - 128) 6), (lor_mark 128 (b3 - 128) 6);
    try reflexivity; try lia.
  change (Z.to_nat 4) with 4%nat. cbn [firstn].
  replace (240 + (p0 - 240)) with p0 by lia.
  replace (128 + (b1 - 128)) with b1 by lia.
  replace (128 + (b2 - 128)) with b2 by lia.
  replace (128 + (b3 - 128)) with b3 by lia. reflexivity.
Qed.

(** The data of a reader are bytes. *)
Definition isBytes (d : list Z) : Prop := Forall (fun b => 0 <= b < 256) d.

Lemma isBytes_nth d i : isBytes d -> 0 <= nth i d 0 < 256.
Proof.
  intros H. revert i. induction H as [|b d Hb _ IH]; intros [|i]; simpl;
    try lia. apply IH.
Qed.

(** A rune is decoded from at most four bytes. *)
Lemma DecodeRune_max p r sz : utf8.DecodeRune p = (r, sz) -> sz <= 4.
Proof.
  unfold utf8.DecodeRune.
  destruct p as [|p0 t]; [intros [= <- <-]; lia|].
  repeat match goal with
         | |- context [if ?x then _ else _] => destruct x eqn:?
         | |- context [match ?x with [] => _ | _ :: _ => _ end] => destruct x
         | |- (_, _) = (_, _) -> _ => intros [= <- <-]
         end; lia.
Qed.

Lemma slice_as_firstn {A} (d : list A) (i n : Z) :
  0 <= n -> slice d i (i + n) = firstn (Z.to_nat n) (slice_from d i).
Proof.
  intros Hn. unfold slice, slice_from. f_equal. lia.
Qed.

(** A read consumes the encoding of the rune it returns: the bytes
    between the position before and the position after are the UTF-8
    encoding of the rune, one to four bytes, as many as the size
    returned. *)
Lemma readRune_encoding (rr rr' : runeReader) (c sz : Z) :
  wf rr -> isBytes (data rr) ->
  readRune rr = Ok (c, sz, None) rr' ->
  slice (data rr) (pos rr) (pos rr') = utf8.EncodeRune c
  /\ pos rr' = pos rr + sz /\ 1 <= sz <= 4
  /\ len (utf8.EncodeRune c) = sz.
Proof.
  intros [Hm Hp] Hb Hread.
  destruct (readRune_ok_inv _ _ _ _ Hread) as (He & Hd & Hne & Hpos & ->).
  pose proof (DecodeRune_size _ _ _ Hd Hne) as Hsz.
  pose proof (DecodeRune_max _ _ _ Hd) as Hmax.
  rewrite len_slice_from in Hsz by lia.
  assert (Henc : utf8.EncodeRune c
                 = firstn (Z.to_nat sz) (slice_from (data rr) (pos rr))).
  { apply EncodeRune_DecodeRune; [|exact Hd|exact Hne].
    change 0%nat with (Z.to_nat 0). rewrite nth_slice_from by lia.
    apply isBytes_nth, Hb. }
  cbn [pos]. rewrite slice_as_firstn by lia.
  split; [now rewrite Henc|]. split; [reflexivity|]. split; [lia|].
  rewrite Henc. unfold len. rewrite length_firstn.
  pose proof (len_slice_from (data rr) (pos rr)) as Hl. unfold len in Hl.
  unfold len in *. lia.
Qed.

(** X4: a read consumes the encoding of the rune it returns: the bytes
    between the position before and the position after are the UTF-8
    encoding of the rune, one to four bytes, as many as the size
    returned. *)
Theorem X4_readRune_consumes_encoding (rr rr' : runeReader) (c sz : Z) :
  wf rr -> isBytes (data rr) ->
  readRune rr = Ok (c, sz, None) rr' ->
  slice (data rr) (pos rr) (pos rr') = utf8.EncodeRune c
  /\ pos rr' = pos rr + sz /\ 1 <= sz <= 4
  /\ len (utf8.EncodeRune c) = sz.
Proof. exact (readRune_encoding rr rr' c sz). Qed.

(** A reader before the two bytes of the rune U+00E9. *)
Definition accentReader : runeReader :=
  {| data := [0xC3; 0xA9; 0x21]; pos := 0; err := None; mark := 0 |}.

Lemma X4_readRune_consumes_encoding_witness :
  slice (data accentReader) (pos accentReader) 2 = utf8.EncodeRune 0xE9
  /\ 2 = pos accentReader + 2 /\ 1 <= 2 <= 4
  /\ len (utf8.EncodeRune 0xE9) = 2.
Proof.
  apply (X4_readRune_consumes_encoding accentReader
           {| data := [0xC3; 0xA9; 0x21]; pos := 2; err := None; mark := 0 |}
           0xE9 2).
  - unfold wf. vm_compute. repeat split; discriminate.
  - unfold isBytes, accentReader, data. repeat constructor; lia.
  - reflexivity.
Defined.

(** ** String literals without escapes *)

(** A property of the result of a computation that returns. *)
Lemma total_partial {St A} (m : M St A) s (P Q : A -> St -> Prop) :
  total m s P ->
  (forall a s', m s = Ok a s' -> P a s' -> Q a s') ->
  total m s Q.
Proof.
  unfold total. destruct (m s) as [a s'| |]; try contradiction.
  intros HP HQ. now apply HQ.
Qed.

Lemma slice_empty {A} (d : list A) (i : Z) : slice d i i = [].
Proof. unfold slice. now rewrite Z.sub_diag. Qed.

Lemma firstn_skipn_app {A} (t : list A) (n m : nat) :
  firstn n t ++ firstn m (skipn n t) = firstn (n + m) t.
Proof.
  revert t. induction n as [|n IH]; intros t; simpl; [reflexivity|].
  destruct t as [|x t]; simpl.
  - now rewrite firstn_nil.
  - now rewrite IH.
Qed.

Lemma slice_app {A} (d : list A) (i j k : Z) :
  0 <= i <= j -> j <= k ->
  slice d i j ++ slice d j k = slice d i k.
Proof.
  intros Hij Hjk. unfold slice.
  replace (Z.to_nat (k - i)) with (Z.to_nat (j - i) + Z.to_nat (k - j))%nat by lia.
  replace (Z.to_nat j) with (Z.to_nat i + Z.to_nat (j - i))%nat by lia.
  rewrite Nat.add_comm, <- skipn_skipn.
  apply firstn_skipn_app.
Qed.

(** One round of the loop of [readStringLiteral] at a byte that is no
    backslash: the closing quote ends the literal with the buffer as it
    is; another rune goes to the buffer as the bytes it was read from. *)
Lemma readStringLiteral_body_plain quote buf s :
  wf s -> isBytes (data s) -> 0 < quote < 128 ->
  total (readStringLiteral_body quote buf) s
    (fun r s' =>
       adv s s' /\
       match r with
       | inl buf' =>
         (remaining s' < remaining s)%nat
         /\ (nth (Z.to_nat (pos s)) (data s) 0 <> "\"%rune ->
             buf' = buf ++ slice (data s) (pos s) (pos s'))
       | inr (str, None) =>
         str = buf /\ pos s' = pos s + 1
         /\ nth (Z.to_nat (pos s)) (data s) 0 = quote
       | inr (_, Some _) => True
       end).
Proof.
  intros Hwf Hb Hq.
  eapply total_partial;
    [apply (readStringLiteral_body_spec quote buf s Hwf); lia|].
  intros r s' Hrun [Hadv Hpost]. split; [exact Hadv|].
  unfold readStringLiteral_body in Hrun. cbv zeta in Hrun.
  unfold bind at 1 in Hrun.
  destruct (readRune s) as [[[c sz] e] s1| |] eqn:Hread; try discriminate.
  destruct e as [e|].
  { cbv beta iota in Hrun. inversion Hrun; subst. exact I. }
  cbv beta iota in Hrun.
  pose proof (readRune_encoding s s1 c sz Hwf Hb Hread)
    as (Henc & Hpos & Hsz & _).
  pose proof (readRune_spec s Hwf) as Hspec. unfold total in Hspec.
  rewrite Hread in Hspec.
  pose proof (readRune_bytes s c sz s1 Hwf Hspec) as Hbytes.
  destruct (c =? 10) eqn:E10.
  { inversion Hrun; subst. exact I. }
  destruct (c =? quote) eqn:Equote.
  { inversion Hrun; subst. apply Z.eqb_eq in Equote.
    destruct Hbytes as [(H1 & H2 & _)|(H1 & _)]; [|lia].
    repeat split; [lia|]. now rewrite H2. }
  destruct (c =? 0) eqn:E0.
  { inversion Hrun; subst. exact I. }
  destruct (c =? 92) eqn:Ebs.
  { apply Z.eqb_eq in Ebs.
    destruct Hbytes as [(H1 & H2 & _)|(H1 & _)]; [|lia].
    destruct r as [buf'|[str [e|]]]; try exact I.
    - split; [apply Hpost|]. intros Hne. exfalso. apply Hne. now rewrite H2.
    - exfalso. clear Hpost.
      revert Hrun. unfold bind, ret.
      destruct (readRune s1) as [[[c2 sz2] e2] s2| |]; try discriminate.
      destruct e2; [discriminate|].
      repeat match goal with
             | |- _ => progress cbv beta iota
             | |- context [if ?x then _ else _] => destruct x
             | |- context [match readRune ?x with _ => _ end] =>
               destruct (readRune x) as [[[? ?] [?|]] ?| |]
             | |- context [match readRunes ?n ?x with _ => _ end] =>
               destruct (readRunes n x) as [[? [?|]] ?| |]
             | |- context [match unreadRune ?n ?x with _ => _ end] =>
               destruct (unreadRune n x) as [? ?| |]
             | |- context [match strconv.ParseInt ?a ?b ?c with _ => _ end] =>
               destruct (strconv.ParseInt a b c) as [? [?|]]
             | |- _ = _ -> _ => discriminate
             end. }
  inversion Hrun; subst.
  split; [apply Hpost|]. intros _. now rewrite Henc.
Qed.

(** No byte of [d] from offset [i] up to [j] is a backslash. *)
Definition noEscape (d : list Z) (i j : Z) : Prop :=
  forall k, i <= k < j -> nth (Z.to_nat k) d 0 <> "\"%rune.

(** What [readStringLiteral] returns for a literal without escapes: the
    literal ends with its quote, and the string is the bytes before it. *)
Definition plainLiteral (quote : Z) (rr : runeReader)
    (r : gostring * option error) (rr' : runeReader) : Prop :=
  snd r = None ->
  pos rr < pos rr'
  /\ nth (Z.to_nat (pos rr' - 1)) (data rr) 0 = quote
  /\ (noEscape (data rr) (pos rr) (pos rr') ->
      fst r = slice (data rr) (pos rr) (pos rr' - 1)).

(** X5: a string literal without a backslash is read as it stands.  From
    a reader after the opening quote, when [readStringLiteral] returns a
    string the last byte it consumed is the closing quote, and when no
    byte it consumed is a backslash the string is the bytes of the source
    between the quotes, unchanged. *)
Theorem X5_plain_string_literal (quote : Z) (rr : runeReader) :
  wf rr -> isBytes (data rr) -> 0 < quote < 128 ->
  total (readStringLiteral quote) rr (plainLiteral quote rr).
Proof.
  intros Hwf Hb Hq. unfold readStringLiteral. mstep. mstep.
  apply (total_loop _
           (fun buf s =>
              adv rr s
              /\ (noEscape (data rr) (pos rr) (pos s) ->
                  buf = slice (data rr) (pos rr) (pos s)))
           remaining);
    [ | split; [apply adv_refl, Hwf | intros _; now rewrite slice_empty]
      | apply remaining_fuel, Hwf ].
  intros buf s [Hs Hbuf].
  pose proof (adv_wf _ _ Hwf Hs) as Hwfs.
  assert (Hbs : isBytes (data s)) by (destruct Hs as (-> & _); exact Hb).
  eapply total_weaken; [apply readStringLiteral_body_plain; assumption|].
  intros r s' [Ha Hr].
  assert (Hadv : adv rr s') by (eapply adv_trans; eassumption).
  destruct Hs as (Hd & Hm & Hp1 & Hp2). destruct Ha as (Hd' & Hm' & Hp1' & Hp2').
  unfold wf in Hwf.
  destruct r as [buf'|[str [e|]]].
  - destruct Hr as [Hlt Hnew]. split; [|exact Hlt]. split; [exact Hadv|].
    intros Hne. rewrite Hd in Hnew.
    unfold remaining in Hlt. rewrite Hd', Hd in Hlt.
    rewrite Hnew, Hbuf.
    + apply slice_app; lia.
    + intros k Hk. apply Hne. lia.
    + apply Hne. lia.
  - unfold plainLiteral. cbn [snd]. discriminate.
  - destruct Hr as (-> & Hpos & Hquote). unfold plainLiteral. cbn [fst snd].
    intros _. rewrite Hd in Hquote. rewrite Hpos.
    replace (pos s + 1 - 1) with (pos s) by lia.
    split; [lia|]. split; [exact Hquote|].
    intros Hne. apply Hbuf. intros k Hk. apply Hne. lia.
Qed.

(** The reader after the opening quote of the literal of the bytes of
    [h], the rune U+00E9 and [!]. *)
Definition afterQuote : runeReader :=
  {| data := [34; 104; 0xC3; 0xA9; 33; 34]; pos := 1; err := None; mark := 0 |}.

Lemma X5_plain_string_literal_witness :
  total (readStringLiteral 34) afterQuote (plainLiteral 34 afterQuote)
  /\ readStringLiteral 34 afterQuote
     = Ok ([104; 0xC3; 0xA9; 33], None)
          {| data := [34; 104; 0xC3; 0xA9; 33; 34]; pos := 6; err := None;
             mark := 0 |}.
Proof.
  split; [|reflexivity].
  apply (X5_plain_string_literal 34 afterQuote).
  - unfold wf. vm_compute. repeat split; discriminate.
  - unfold isBytes, afterQuote, data. repeat constructor; lia.
  - lia.
Defined.


(** ** Identifiers and numbers: what is consumed *)

(** The first byte of a sequence whose first rune is ill-formed, or is
    the replacement rune, is no ASCII character. *)
Lemma DecodeRune_error_byte p sz :
  utf8.DecodeRune p = (utf8.RuneError, sz) -> p <> [] -> 128 <= nth 0 p 0.
Proof.
  unfold utf8.DecodeRune, utf8.RuneError.
  destruct p as [|p0 t]; [intros _ H; now elim H|]. intros H _. cbn [nth].
  destruct (p0 <? 128) eqn:E; [|lia].
  inversion H. lia.
Qed.

(** The three ways a read from a reader without error goes: the end of
    the data; a byte, no ASCII character, that starts no rune the reader
    accepts; or a rune, whose first byte is the rune itself when it is an
    ASCII character. *)
Lemma readRune_cases rr :
  wf rr -> err rr = None ->
  (pos rr = len (data rr)
   /\ readRune rr
      = Ok (0, 0, Some io_EOF)
           {| data := data rr; pos := pos rr; err := Some io_EOF; mark := mark rr |})
  \/ (pos rr < len (data rr)
      /\ 128 <= nth (Z.to_nat (pos rr)) (data rr) 0
      /\ exists e,
           readRune rr
           = Ok (0, 0, Some e)
                {| data := data rr; pos := pos rr; err := Some e; mark := mark rr |})
  \/ (exists c sz,
        readRune rr
        = Ok (c, sz, None)
             {| data := data rr; pos := pos rr + sz; err := None; mark := mark rr |}
        /\ 1 <= sz /\ pos rr + sz <= len (data rr)
        /\ ((sz = 1 /\ c < 128 /\ nth (Z.to_nat (pos rr)) (data rr) 0 = c)
            \/ (128 <= c /\ 128 <= nth (Z.to_nat (pos rr)) (data rr) 0))).
Proof.
  intros Hwf He.
  destruct (Z.eq_dec (pos rr) (len (data rr))) as [Hp|Hp].
  { left. split; [exact Hp|]. now apply readRune_eof. }
  right.
  pose proof (readRune_spec rr Hwf) as Hspec. unfold total in Hspec.
  assert (Hlt : pos rr < len (data rr)) by (unfold wf in Hwf; lia).
  destruct (readRune rr) as [[[c sz] e] rr'| |] eqn:Hread; try contradiction.
  destruct e as [e|].
  - left. split; [exact Hlt|].
    revert Hread. unfold readRune, bind, get, put, ret. rewrite He.
    destruct (pos rr =? len (data rr)) eqn:E; [lia|].
    destruct (utf8.DecodeRune _) as [r n] eqn:Hd.
    destruct (r =? utf8.RuneError) eqn:Hr; [|discriminate].
    apply Z.eqb_eq in Hr. subst r.
    intros [= <- <- <- <-]. split; [|eexists; reflexivity].
    apply DecodeRune_error_byte in Hd.
    + change 0%nat with (Z.to_nat 0) in Hd.
      rewrite nth_slice_from in Hd by (unfold wf in Hwf; lia).
      now rewrite Z.add_0_r in Hd.
    + unfold slice_from. intros Hnil.
      apply (f_equal (@List.length Z)) in Hnil. rewrite length_skipn in Hnil.
      unfold len in *. simpl in Hnil. unfold wf in Hwf. lia.
  - right. exists c, sz.
    destruct (readRune_ok_inv _ _ _ _ Hread) as (_ & _ & _ & _ & ->).
    split; [reflexivity|].
    pose proof (readRune_bytes _ _ _ _ Hwf Hspec) as Hb.
    simpl in Hspec. destruct Hspec as (_ & _ & _ & _ & Hpos & Hsz & Hle & _).
    split; [exact Hsz|]. split; [lia|].
    destruct Hb as [(H1 & H2 & H3)|(H1 & H2)].
    + left. repeat split; assumption.
    + right. split; [exact H1|]. apply H2. cbn [pos]. lia.
Qed.

(** A character of an identifier: a letter, a digit or an underscore. *)
Definition identChar (c : Z) : Prop :=
  c = "_"%rune \/ "a"%rune <= c <= "z"%rune \/ "A"%rune <= c <= "Z"%rune
  \/ "0"%rune <= c <= "9"%rune.

(** What [readIdentifier] consumes: the longest run of identifier
    characters. *)
Definition longestIdent (rr : runeReader) (rr' : runeReader) : Prop :=
  adv rr rr'
  /\ allBetween identChar (data rr) (pos rr) (pos rr')
  /\ (pos rr' = len (data rr)
      \/ ~ identChar (nth (Z.to_nat (pos rr')) (data rr) 0)).

(** [readIdentifier] consumes the longest run of letters, digits and
    underscores at the position of the reader, and nothing more: every
    byte it consumes is such a character, and it stops at the end of the
    data or before a byte that is not. *)
Lemma readIdentifier_longest (rr : runeReader) :
  wf rr -> err rr = None ->
  total readIdentifier rr (fun _ rr' => longestIdent rr rr').
Proof.
  intros Hwf He. unfold readIdentifier. mstep. mstep.
  apply (total_loop _
           (fun _ s => adv rr s /\ err s = None
                       /\ allBetween identChar (data rr) (pos rr) (pos s))
           remaining);
    [ | split; [apply adv_refl, Hwf|]; split; [exact He|apply allBetween_empty]
      | apply remaining_fuel, Hwf ].
  intros [] s (Hs & Hes & Hall).
  pose proof (adv_wf _ _ Hwf Hs) as Hwfs.
  destruct Hs as (Hd & Hm & Hp1 & Hp2).
  apply total_bind. unfold total at 1.
  destruct (readRune_cases s Hwfs Hes)
    as [(Hend & ->)|[(Hlt & Hbyte & e & ->)|(c & sz & -> & Hsz & Hle & Hc)]];
    cbv beta iota.
  - apply total_ret. unfold longestIdent, adv. cbn [pos data mark].
    rewrite Hd in *. repeat split; try assumption; lia.
  - apply total_ret. unfold longestIdent, adv. cbn [pos data mark].
    rewrite Hd in *. repeat split; try assumption; try lia.
    right. unfold identChar. lia.
  - rewrite Hd in *.
    destruct (negb (c =? 95) && ((c <? 97) || (c >? 122))
              && ((c <? 65) || (c >? 90)) && ((c <? 48) || (c >? 57))) eqn:E.
    + apply total_bind. apply unreadRune_spec; cbn [pos mark data err];
        [unfold wf in Hwfs; lia|].
      apply total_ret. unfold longestIdent, adv. cbn [pos data mark].
      replace (pos s + sz - sz) with (pos s) by lia.
      repeat split; try assumption; try lia.
      right. unfold identChar. rewrite !Z.gtb_ltb in E.
      destruct Hc as [(_ & _ & ->)|(_ & Hb)]; lia.
    + apply total_ret. split.
      * unfold adv. cbn [pos data mark].
        repeat split; try assumption; try lia.
        intros k Hk. destruct (Z_lt_le_dec k (pos s)) as [Hk'|Hk'].
        { apply Hall. lia. }
        destruct Hc as [(-> & _ & Hn)|(Hc & _)];
          [|exfalso; lia].
        assert (k = pos s) as -> by lia. rewrite Hn. unfold identChar.
        rewrite !Z.gtb_ltb in E. lia.
      * unfold remaining. cbn [pos data]. rewrite ?Hd. lia.
Qed.

(** X6: [readIdentifier] consumes the longest run of letters, digits and
    underscores at the position of the reader, and nothing more: every
    byte it consumes is such a character, and it stops at the end of the
    data or before a byte that is not. *)
Theorem X6_readIdentifier_longest_run (rr : runeReader) :
  wf rr -> err rr = None ->
  total readIdentifier rr (fun _ rr' => longestIdent rr rr').
Proof. exact (readIdentifier_longest rr). Qed.

(** A reader at [ab1_ c]. *)
Definition identReader : runeReader :=
  {| data := bytes_of_string "ab1_ c"; pos := 0; err := None; mark := 0 |}.

Lemma X6_readIdentifier_longest_run_witness :
  total readIdentifier identReader (fun _ rr' => longestIdent identReader rr')
  /\ total readIdentifier identReader (fun _ rr' => pos rr' = 4).
Proof.
  split; [|reflexivity].
  apply (X6_readIdentifier_longest_run identReader).
  - unfold wf. vm_compute. repeat split; discriminate.
  - reflexivity.
Defined.

(** A character of a numeric lexeme other than a sign: a digit, a letter,
    a point or an underscore. *)
Definition numChar (c : Z) : Prop :=
  c = "."%rune \/ c = "_"%rune \/ "0"%rune <= c <= "9"%rune
  \/ "a"%rune <= c <= "z"%rune \/ "A"%rune <= c <= "Z"%rune.

Definition isSign (c : Z) : Prop := c = "-"%rune \/ c = "+"%rune.

(** The byte before offset [k], after the start [p], is [e] or [E]. *)
Definition afterExp (d : list Z) (p k : Z) : Prop :=
  p < k /\ (nth (Z.to_nat (k - 1)) d 0 = "e"%rune
            \/ nth (Z.to_nat (k - 1)) d 0 = "E"%rune).

(** What [readNumber] consumes from [rr]: digits, letters, points and
    underscores, and a sign where it follows an [e] or [E] that was
    consumed; it ends at the end of the data or before a byte it does not
    take. *)
Definition numberRun (rr rr' : runeReader) : Prop :=
  let d := data rr in
  adv rr rr'
  /\ (forall k, pos rr <= k < pos rr' ->
        numChar (nth (Z.to_nat k) d 0)
        \/ (isSign (nth (Z.to_nat k) d 0) /\ afterExp d (pos rr) k))
  /\ (pos rr' = len d
      \/ (~ numChar (nth (Z.to_nat (pos rr')) d 0)
          /\ ~ (isSign (nth (Z.to_nat (pos rr')) d 0)
                /\ afterExp d (pos rr) (pos rr')))).

(** [readNumber] takes the longest run of digits, letters, points and
    underscores, with a sign only directly after an [e] or [E] of the run:
    so [1e+5] is one lexeme and [1+5] ends after the [1]. *)
Lemma readNumber_run (rr : runeReader) :
  wf rr -> err rr = None ->
  total readNumber rr (fun _ rr' => numberRun rr rr').
Proof.
  intros Hwf He. unfold readNumber. mstep. mstep.
  apply (total_loop _
           (fun (allow : bool) s =>
              adv rr s /\ err s = None
              /\ (forall k, pos rr <= k < pos s ->
                    numChar (nth (Z.to_nat k) (data rr) 0)
                    \/ (isSign (nth (Z.to_nat k) (data rr) 0)
                        /\ afterExp (data rr) (pos rr) k))
              /\ (allow = true <-> afterExp (data rr) (pos rr) (pos s)))
           remaining);
    [ | split; [apply adv_refl, Hwf|]; split; [exact He|]; split;
        [intros k Hk; lia|unfold afterExp; split; [discriminate|lia]]
      | apply remaining_fuel, Hwf ].
  intros allow s (Hs & Hes & Hall & Hallow).
  pose proof (adv_wf _ _ Hwf Hs) as Hwfs.
  destruct Hs as (Hd & Hm & Hp1 & Hp2).
  apply total_bind. unfold total at 1.
  destruct (readRune_cases s Hwfs Hes)
    as [(Hend & ->)|[(Hlt & Hbyte & e & ->)|(c & sz & -> & Hsz & Hle & Hc)]];
    cbv beta iota; rewrite Hd in *.
  - apply total_ret. unfold numberRun, adv. cbn [pos data mark].
    repeat split; try assumption; lia.
  - apply total_ret. unfold numberRun, adv. cbn [pos data mark].
    repeat split; try assumption; try lia.
    right. unfold numChar, isSign. lia.
  - destruct (((c =? 45) || (c =? 43)) && negb allow) eqn:E1.
    { apply total_bind. apply unreadRune_spec; cbn [pos mark data err];
        [unfold wf in Hwfs; lia|].
      apply total_ret. unfold numberRun, adv. cbn [pos data mark].
      replace (pos s + sz - sz) with (pos s) by lia.
      repeat split; try assumption; try lia.
      right.
      assert (Hal : allow = false) by (destruct allow; [lia|reflexivity]).
      destruct Hc as [(_ & _ & Hn)|(Hc & _)]; [|lia].
      rewrite Hn. split.
      - unfold numChar. lia.
      - intros [_ Hexp]. apply Hallow in Hexp. congruence. }
    destruct (negb (c =? 46) && negb (c =? 95) && ((c <? 48) || (c >? 57))
              && ((c <? 97) || (c >? 122)) && ((c <? 65) || (c >? 90))
              && negb (c =? 45) && negb (c =? 43)) eqn:E2.
    { rewrite !Z.gtb_ltb in E2.
      apply total_bind. apply unreadRune_spec; cbn [pos mark data err];
        [unfold wf in Hwfs; lia|].
      apply total_ret. unfold numberRun, adv. cbn [pos data mark].
      replace (pos s + sz - sz) with (pos s) by lia.
      repeat split; try assumption; try lia.
      right. unfold numChar, isSign.
      destruct Hc as [(_ & _ & ->)|(_ & Hb)]; lia. }
    rewrite !Z.gtb_ltb in E2.
    destruct Hc as [(-> & _ & Hn)|(Hc & _)]; [|exfalso; lia].
    apply total_ret. split.
    + unfold adv. cbn [pos data mark].
      split; [repeat split; try assumption; lia|].
      split; [reflexivity|]. split.
      * intros k Hk. destruct (Z_lt_le_dec k (pos s)) as [Hk'|Hk'].
        { apply Hall. lia. }
        assert (k = pos s) as -> by lia. rewrite Hn.
        destruct ((c =? 45) || (c =? 43)) eqn:Es.
        { right. split; [unfold isSign; lia|].
          apply Hallow. destruct allow; [reflexivity|discriminate]. }
        left. unfold numChar. lia.
      * unfold afterExp. replace (pos s + 1 - 1) with (pos s) by lia.
        rewrite Hn. split.
        { intros H. split; lia. }
        intros [_ H]. lia.
    + unfold remaining. cbn [pos data]. rewrite ?Hd. lia.
Qed.

(** X7: [readNumber] takes the longest run of digits, letters, points and
    underscores, with a sign only directly after an [e] or [E] of the run:
    so [1e+5] is one lexeme and [1+5] ends after the [1]. *)
Theorem X7_readNumber_run (rr : runeReader) :
  wf rr -> err rr = None ->
  total readNumber rr (fun _ rr' => numberRun rr rr').
Proof. exact (readNumber_run rr). Qed.

(** A reader after the first digit of [1e+5+2]. *)
Definition numberReader : runeReader :=
  {| data := bytes_of_string "1e+5+2"; pos := 1; err := None; mark := 0 |}.

Lemma X7_readNumber_run_witness :
  total readNumber numberReader (fun _ rr' => numberRun numberReader rr')
  /\ total readNumber numberReader (fun _ rr' => pos rr' = 4).
Proof.
  split; [|reflexivity].
  apply (X7_readNumber_run numberReader).
  - unfold wf. vm_compute. repeat split; discriminate.
  - reflexivity.
Defined.


(** ** A round of [Lex] at an identifier or a number *)

(** The lexer of [l] stands at a byte, an ASCII character. *)
Definition atAscii (l : protoLex) : Prop :=
  wf (input l) /\ err (input l) = None
  /\ pos (input l) < len (data (input l))
  /\ nth (Z.to_nat (pos (input l))) (data (input l)) 0 < 128.

(** The round of [Lex] up to the first rune, an ASCII character. *)
Ltac ascii_start Hwf Herr Hpos :=
  unfold Lex_body;
  apply total_bind, total_on_input, total_modify;
  apply total_bind, total_on_input, total_bind, total_get, total_ret;
  apply total_bind, total_modify;
  lx_simpl; cbn [pos data err mark];
  apply total_bind, total_on_input;
  apply total_readRune_ascii; lx_simpl; cbn [pos data err mark];
  [ unfold wf in *; cbn [pos data err mark]; lia
  | exact Herr
  | exact Hpos
  |
  | cbv beta iota ].

Lemma ContainsRune_not_whitespace c :
  0 <= c < 128 ->
  c <> 9 -> c <> 10 -> c <> 11 -> c <> 12 -> c <> 13 -> c <> 32 ->
  strings.ContainsRune [10; 13; 9; 12; 11; 32] c = false.
Proof.
  intros Hc. intros.
  destruct (strings.ContainsRune _ c) eqn:E; [|reflexivity].
  apply ContainsRune_whitespace in E; lia.
Qed.

(** The first character of an identifier: a letter or an underscore. *)
Definition identStart (c : Z) : Prop :=
  c = "_"%rune \/ "a"%rune <= c <= "z"%rune \/ "A"%rune <= c <= "Z"%rune.

(** The kind of an identifier: that of the keyword it is, or a name. *)
Definition identKind (str : gostring) : symbol :=
  match keyword_lookup keywords str with
  | Some t => t
  | None => _NAME
  end.

(** What the round of [Lex] does at the first character of an
    identifier: it emits one terminal, an identifier node whose text is
    the longest run of identifier characters from there, as the next
    token; its kind is the keyword's when the text is a keyword, and a
    name otherwise. *)
Definition identifierRound (lval : protoSymType) (l : protoLex)
    (r : unit + symbol * protoSymType) (l' : protoLex) : Prop :=
  let d := data (input l) in
  let p := pos (input l) in
  let p' := pos (input l') in
  let str := slice d p p' in
  r = inr (identKind str,
           {| sym_s := sym_s lval;
              sym_id := Some (ast.IdentNode str (len (ast.tokens (info l))));
              sym_i := sym_i lval; sym_f := sym_f lval; sym_b := sym_b lval;
              sym_err := sym_err lval |})
  /\ p < p' /\ allBetween identChar d p p'
  /\ (p' = len d \/ ~ identChar (nth (Z.to_nat p') d 0))
  /\ ast.tokens (info l') = ast.tokens (info l) ++ [(p, p' - p)]
  /\ handler l' = handler l.

Lemma Lex_body_identifier lval l :
  wf (input l) -> err (input l) = None ->
  pos (input l) < len (data (input l)) ->
  identStart (nth (Z.to_nat (pos (input l))) (data (input l)) 0) ->
  total (Lex_body lval tt) l (identifierRound lval l).
Proof.
  intros Hwf Herr Hpos Hb. unfold identStart in Hb.
  ascii_start Hwf Herr Hpos; [lia|].
  set (b := nth _ _ _) in *.
  rewrite ContainsRune_not_whitespace by lia. cbv iota.
  destruct (b =? 46) eqn:E1; [lia|].
  destruct ((b =? 95) || (b >=? 97) && (b <=? 122) || (b >=? 65) && (b <=? 90))
    eqn:E2; [|rewrite !Z.geb_leb in E2; lia].
  apply total_bind, total_on_input. lx_simpl.
  set (m1 := {| data := data (input l); pos := pos (input l) + 1; err := None;
                mark := pos (input l) |}).
  assert (Hwf1 : wf m1) by (subst m1; unfold wf in *; cbn [pos data mark]; lia).
  eapply total_weaken; [apply (readIdentifier_longest m1 Hwf1); reflexivity|].
  intros [] s1 ((Hd & Hm & Hp1 & Hp2) & Hall & Hstop).
  subst m1. cbn [pos data mark] in *.
  apply total_bind, total_on_input. unfold getMark.
  apply total_bind, total_get, total_ret. lx_simpl.
  rewrite Hd, Hm.
  set (str := slice (data (input l)) (pos (input l)) (pos s1)).
  assert (Hpost : forall k,
             k = identKind str ->
             total (lval0 <- setIdent lval str ;; ret (inr (k, lval0)))
               (set_input
                  (set_input
                     (set_prevOffset
                        (set_input
                           (set_input l
                              {| data := data (input l); pos := pos (input l);
                                 err := err (input l); mark := pos (input l) |})
                           {| data := data (input l); pos := pos (input l);
                              err := err (input l); mark := pos (input l) |})
                        (pos (input l)))
                     {| data := data (input l); pos := pos (input l) + 1;
                        err := None; mark := pos (input l) |}) s1)
               (identifierRound lval l)).
  { intros k ->. apply total_bind, setIdent_total. intros l' Hem.
    apply total_ret. unfold identifierRound.
    destruct Hem as (tr & le & _ & Ht & _ & _ & _ & _ & Hh & Hin & _).
    lx_simpl. rewrite Hin, Ht, Hh. lx_simpl. rewrite Hm.
    fold str. split; [reflexivity|]. split; [lia|]. split.
    { intros k Hk. destruct (Z.eq_dec k (pos (input l))) as [->|Hne].
      - fold b. unfold identChar. lia.
      - apply Hall. lia. }
    split; [exact Hstop|]. split; reflexivity. }
  unfold identKind in Hpost.
  destruct (keyword_lookup keywords str) as [t|] eqn:Hk; now apply Hpost.
Qed.

(** A call of [Lex] whose first round returns: the handler has not
    failed, and the round, which starts without pending comments, skips
    nothing. *)
Lemma Lex_first_round lval l (Q : symbol * protoSymType -> protoLex -> Prop) :
  reporter.ReporterError (handler l) = None ->
  total (Lex_body lval tt) (set_comments l [])
    (fun r l' => match r with
                 | inl _ => False
                 | inr x => Q x l'
                 end) ->
  total (Lex lval) l Q.
Proof.
  intros Hrep H. unfold Lex. apply total_bind, total_get. rewrite Hrep.
  apply total_bind, total_put. unfold fuel_of. cbn [loop].
  apply total_bind. eapply total_weaken; [exact H|].
  intros [[]|x] l' HQ; [contradiction|]. apply total_ret, HQ.
Qed.

(** X8: at the first character of an identifier, a letter or an
    underscore, [Lex] emits one terminal: an identifier node whose text is
    the longest run of letters, digits and underscores from there.  Its
    kind is the keyword's when the whole text is a keyword, and a name
    otherwise; its token spans the text. *)
Theorem X8_Lex_identifier (lval : protoSymType) (l : protoLex) :
  wf (input l) -> err (input l) = None ->
  reporter.ReporterError (handler l) = None ->
  pos (input l) < len (data (input l)) ->
  identStart (nth (Z.to_nat (pos (input l))) (data (input l)) 0) ->
  total (Lex lval) l (fun r l' => identifierRound lval l (inr r) l').
Proof.
  intros Hwf Herr Hrep Hpos Hb. apply Lex_first_round; [exact Hrep|].
  eapply total_weaken;
    [apply (Lex_body_identifier lval (set_comments l [])); assumption|].
  intros [[]|x] l' H; unfold identifierRound in *; lx_simpl.
  - destruct H as [H _]. discriminate.
  - exact H.
Qed.

(** The lexer on [x.returns(y)], after [x] and the point. *)
Definition afterPoint : protoLex := lexerAfter 2 (bytes_of_string "x.returns(y)").

Lemma X8_Lex_identifier_witness :
  total (Lex empty_sym) afterPoint
    (fun r l' => identifierRound empty_sym afterPoint (inr r) l')
  /\ total (Lex empty_sym) afterPoint
       (fun r l' =>
          r = (_RETURNS,
               {| sym_s := None;
                  sym_id := Some (ast.IdentNode (bytes_of_string "returns") 2);
                  sym_i := None; sym_f := None; sym_b := None; sym_err := None |})
          /\ ast.tokens (info l') = [(0, 1); (1, 1); (2, 7)]).
Proof.
  split.
  - apply (X8_Lex_identifier empty_sym afterPoint).
    + unfold wf. vm_compute. repeat split; discriminate.
    + reflexivity.
    + reflexivity.
    + vm_compute. reflexivity.
    + vm_compute. right. left. split; discriminate.
  - vm_compute. split; reflexivity.
Defined.


(** ** Identifiers and keywords in a source text *)

Definition identCharb (c : Z) : bool :=
  (c =? "_"%rune) || (("a"%rune <=? c) && (c <=? "z"%rune))
  || (("A"%rune <=? c) && (c <=? "Z"%rune))
  || (("0"%rune <=? c) && (c <=? "9"%rune)).

Definition identStartb (c : Z) : bool :=
  (c =? "_"%rune) || (("a"%rune <=? c) && (c <=? "z"%rune))
  || (("A"%rune <=? c) && (c <=? "Z"%rune)).

Lemma identCharb_spec c : identCharb c = true <-> identChar c.
Proof. unfold identCharb, identChar. lia. Qed.

Lemma identStartb_spec c : identStartb c = true <-> identStart c.
Proof. unfold identStartb, identStart. lia. Qed.

(** A text that is an identifier: a letter or an underscore, then
    letters, digits and underscores. *)
Definition isIdentifier (str : gostring) : bool :=
  match str with
  | [] => false
  | c :: rest => identStartb c && forallb identCharb rest
  end.

(** What ends an identifier: the end of the source or a character that
    is none of an identifier. *)
Definition endsIdentifier (rest : gostring) : Prop :=
  match rest with
  | [] => True
  | c :: _ => ~ identChar c
  end.

Lemma nth_app_l (s t : list Z) (k : Z) :
  0 <= k < len s -> nth (Z.to_nat k) (s ++ t) 0 = nth (Z.to_nat k) s 0.
Proof. intros Hk. apply app_nth1. unfold len in Hk. lia. Qed.

Lemma nth_app_r0 (s t : list Z) :
  nth (Z.to_nat (len s)) (s ++ t) 0 = hd 0 t.
Proof.
  rewrite app_nth2 by (unfold len; lia).
  replace (Z.to_nat (len s) - List.length s)%nat with 0%nat by (unfold len; lia).
  now destruct t.
Qed.

Lemma slice_prefix (s t : list Z) : slice (s ++ t) 0 (len s) = s.
Proof.
  unfold slice, len. cbn [Z.to_nat skipn]. rewrite Z.sub_0_r, Nat2Z.id.
  rewrite firstn_app, Nat.sub_diag, firstn_all. cbn [firstn]. apply app_nil_r.
Qed.

Lemma forallb_identChar str k :
  forallb identCharb str = true -> 0 <= k < len str ->
  identChar (nth (Z.to_nat k) str 0).
Proof.
  intros H Hk. rewrite forallb_forall in H. apply identCharb_spec, H.
  apply nth_In. unfold len in Hk. lia.
Qed.

(** A source that begins with an identifier makes a lexer that stands at
    its first byte: there is no byte order mark to drop. *)
Lemma newLexer_identifier c rest filename h :
  identStart c ->
  newLexer (c :: rest) filename h
  = {| input := {| data := c :: rest; pos := 0; err := None; mark := 0 |};
       info := ast.NewFileInfo filename (c :: rest);
       handler := h;
       prevSym := None; prevOffset := 0; eof := 0; comments := [] |}.
Proof.
  intros Hc. unfold newLexer, identStart in *. rewrite gostring_eqb_bom.
  unfold utf8Bom. cbn [strings.HasPrefix].
  destruct (c =? 239) eqn:E; [lia|]. reflexivity.
Qed.

(** The first call of [Lex] on a source that begins with the identifier
    [str]: it returns the kind of [str], with an identifier node of the
    text [str] as token 0. *)
Lemma Lex_identifier_text lval str rest filename rep :
  isIdentifier str = true -> endsIdentifier rest ->
  total (Lex lval) (newLexer (str ++ rest) filename (reporter.NewHandler rep))
    (fun r l' =>
       r = (identKind str,
            {| sym_s := sym_s lval;
               sym_id := Some (ast.IdentNode str 0);
               sym_i := sym_i lval; sym_f := sym_f lval; sym_b := sym_b lval;
               sym_err := sym_err lval |})
       /\ pos (input l') = len str
       /\ ast.tokens (info l') = [(0, len str)]).
Proof.
  intros Hid Hend. destruct str as [|c str]; [discriminate|].
  cbn [isIdentifier] in Hid. apply andb_true_iff in Hid. destruct Hid as [Hc Hrest].
  apply identStartb_spec in Hc.
  assert (Hall : forallb identCharb (c :: str) = true).
  { cbn [forallb]. rewrite Hrest, andb_true_r. apply identCharb_spec.
    unfold identStart, identChar in *. lia. }
  change ((c :: str) ++ rest) with (c :: (str ++ rest)).
  rewrite (newLexer_identifier c (str ++ rest) filename _ Hc).
  set (l := {| input := _ |}).
  change (c :: str ++ rest) with ((c :: str) ++ rest) in l.
  set (s := c :: str) in *.
  assert (Hlen : 0 < len s) by (subst s; rewrite len_cons; pose proof (len_nonneg str); lia).
  apply Lex_first_round; [reflexivity|].
  eapply total_weaken.
  { apply (Lex_body_identifier lval (set_comments l [])); subst l; lx_simpl;
      cbn [pos data err mark].
    - unfold wf. cbn [pos data mark]. rewrite len_app.
      pose proof (len_nonneg rest). lia.
    - reflexivity.
    - rewrite len_app. pose proof (len_nonneg rest). lia.
    - subst s. exact Hc. }
  intros r l' H. unfold identifierRound in H. subst l. lx_simpl.
  cbn [pos data err mark ast.tokens ast.NewFileInfo] in H.
  destruct H as (-> & Hlt & Hrun & Hstop & Htok & _).
  assert (Hp : pos (input l') = len s).
  { destruct (Z_lt_le_dec (pos (input l')) (len s)) as [Hlt'|Hge].
    - exfalso. destruct Hstop as [Hstop|Hstop].
      + rewrite len_app in Hstop. pose proof (len_nonneg rest). lia.
      + apply Hstop. rewrite nth_app_l by lia.
        apply forallb_identChar; [exact Hall|lia].
    - destruct (Z.eq_dec (pos (input l')) (len s)) as [Heq|Hne]; [exact Heq|].
      exfalso. specialize (Hrun (len s) ltac:(lia)).
      rewrite nth_app_r0 in Hrun.
      destruct rest as [|x rest]; cbn [hd endsIdentifier] in *.
      + unfold identChar in Hrun. lia.
      + contradiction. }
  rewrite Hp in *. rewrite slice_prefix in *. rewrite Htok.
  cbn [len List.length Z.of_nat app]. rewrite Z.sub_0_r.
  repeat split.
Qed.

(** Every entry of the keyword table is an identifier that the table maps
    to its kind. *)
Lemma keywords_table :
  Forall (fun kt => isIdentifier (bytes_of_string (fst kt)) = true
                    /\ identKind (bytes_of_string (fst kt)) = snd kt) keywords.
Proof.
  unfold keywords.
  repeat (apply Forall_cons; [split; vm_compute; reflexivity|]).
  apply Forall_nil.
Qed.

(** X9: every keyword of the table is found.  For every entry of the
    keyword table, a source that begins with the text of the keyword,
    ended by the end of the source or by a character that is none of an
    identifier, lexes to the kind of the entry, with an identifier node of
    that text; a longer identifier, as [messages], is not cut at the
    keyword. *)
Theorem X9_keywords_are_found (k : string) (t : symbol) (rest : gostring)
    (lval : protoSymType) :
  In (k, t) keywords -> endsIdentifier rest ->
  total (Lex lval) (lexerOn (bytes_of_string k ++ rest))
    (fun r l' =>
       r = (t, {| sym_s := sym_s lval;
                  sym_id := Some (ast.IdentNode (bytes_of_string k) 0);
                  sym_i := sym_i lval; sym_f := sym_f lval; sym_b := sym_b lval;
                  sym_err := sym_err lval |})
       /\ pos (input l') = len (bytes_of_string k)).
Proof.
  intros Hin Hend.
  pose proof keywords_table as Htab. rewrite Forall_forall in Htab.
  destruct (Htab _ Hin) as [Hid Hkind]. cbn [fst snd] in *.
  eapply total_weaken;
    [apply (Lex_identifier_text lval (bytes_of_string k) rest); assumption|].
  intros r l' (-> & Hp & _). rewrite Hkind. split; [reflexivity|exact Hp].
Qed.

Lemma X9_keywords_are_found_witness :
  total (Lex empty_sym) (lexerOn (bytes_of_string "message" ++ bytes_of_string "{"))
    (fun r l' =>
       r = (_MESSAGE,
            {| sym_s := None;
               sym_id := Some (ast.IdentNode (bytes_of_string "message") 0);
               sym_i := None; sym_f := None; sym_b := None; sym_err := None |})
       /\ pos (input l') = len (bytes_of_string "message"))
  /\ total (Lex empty_sym) (lexerOn (bytes_of_string "messages"))
       (fun r l' =>
          r = (_NAME,
               {| sym_s := None;
                  sym_id := Some (ast.IdentNode (bytes_of_string "messages") 0);
                  sym_i := None; sym_f := None; sym_b := None; sym_err := None |})).
Proof.
  split; [|vm_compute; reflexivity].
  apply (X9_keywords_are_found "message" _MESSAGE (bytes_of_string "{") empty_sym).
  - unfold keywords. do 36 right. left. reflexivity.
  - cbn. unfold identChar. lia.
Defined.


(** ** A round of [Lex] at a number *)

(** The reader of [l] after [n] bytes of a token that begins at its
    position. *)
Definition inToken (l : protoLex) (n : Z) : runeReader :=
  {| data := data (input l); pos := pos (input l) + n; err := None;
     mark := pos (input l) |}.

(** What [Lex] makes of the numeric lexeme [token], decoded as [t]: an
    integer or a float literal, as the next token, or an error, with no
    token. *)
Definition numberResult (lval : protoSymType) (l : protoLex) (t : numberToken)
    (r : unit + symbol * protoSymType) (l' : protoLex) : Prop :=
  let p := pos (input l) in
  let p' := pos (input l') in
  match t with
  | IntToken ui =>
    r = inr (_INT_LIT,
             {| sym_s := sym_s lval; sym_id := sym_id lval;
                sym_i := Some (ast.UintLiteralNode ui (len (ast.tokens (info l))));
                sym_f := sym_f lval; sym_b := sym_b lval;
                sym_err := sym_err lval |})
    /\ ast.tokens (info l') = ast.tokens (info l) ++ [(p, p' - p)]
  | FloatToken f =>
    r = inr (_FLOAT_LIT,
             {| sym_s := sym_s lval; sym_id := sym_id lval; sym_i := sym_i lval;
                sym_f := Some (ast.FloatLiteralNode f (len (ast.tokens (info l))));
                sym_b := sym_b lval; sym_err := sym_err lval |})
    /\ ast.tokens (info l') = ast.tokens (info l) ++ [(p, p' - p)]
  | BadNumber e =>
    (exists ewp,
        r = inr (_ERROR,
                 {| sym_s := sym_s lval; sym_id := sym_id lval;
                    sym_i := sym_i lval; sym_f := sym_f lval;
                    sym_b := sym_b lval; sym_err := Some ewp |})
        /\ reporter.Unwrap ewp = e)
    /\ ast.tokens (info l') = ast.tokens (info l)
  end.

(** [emitNumber] for the lexeme between the mark and the position. *)
Lemma emitNumber_total lval t l0 l :
  mark (input l0) = pos (input l) ->
  ast.tokens (info l0) = ast.tokens (info l) ->
  total (emitNumber lval t) l0
    (fun r l' => input l' = input l0 /\ numberResult lval l t r l').
Proof.
  intros Hm Ht. unfold emitNumber, numberResult.
  destruct t as [ui|f|e].
  - apply total_bind, setInt_total. intros l' Hem. apply total_ret.
    destruct Hem as (tr & le & _ & Htok & _ & _ & _ & _ & _ & Hin & _).
    rewrite Htok, Hin, Hm, Ht. repeat split.
  - apply total_bind, setFloat_total. intros l' Hem. apply total_ret.
    destruct Hem as (tr & le & _ & Htok & _ & _ & _ & _ & _ & Hin & _).
    rewrite Htok, Hin, Hm, Ht. repeat split.
  - apply total_bind, setError_total. intros h ewp Hun. apply total_ret.
    lx_simpl. split; [reflexivity|]. split; [|exact Ht].
    exists ewp. split; [reflexivity|exact Hun].
Qed.

(** What the round of [Lex] does at a digit: [readNumber] takes the run
    after the digit, and the lexeme, from the digit to the end of the run,
    is decoded as [lexNumber] says. *)
Definition numberRound (lval : protoSymType) (l : protoLex)
    (r : unit + symbol * protoSymType) (l' : protoLex) : Prop :=
  numberRun (inToken l 1) (input l')
  /\ numberResult lval l
       (lexNumber atof.ParseFloat
          (slice (data (input l)) (pos (input l)) (pos (input l'))))
       r l'.

Lemma Lex_body_number lval l :
  wf (input l) -> err (input l) = None ->
  pos (input l) < len (data (input l)) ->
  "0"%rune <= nth (Z.to_nat (pos (input l))) (data (input l)) 0 <= "9"%rune ->
  total (Lex_body lval tt) l (numberRound lval l).
Proof.
  intros Hwf Herr Hpos Hb.
  ascii_start Hwf Herr Hpos; [lia|].
  set (b := nth _ _ _) in *.
  rewrite ContainsRune_not_whitespace by lia. cbv iota.
  destruct (b =? 46) eqn:E1; [lia|].
  destruct ((b =? 95) || (b >=? 97) && (b <=? 122) || (b >=? 65) && (b <=? 90))
    eqn:E2; [rewrite !Z.geb_leb in E2; lia|].
  destruct ((b >=? 48) && (b <=? 57)) eqn:E3; [|rewrite !Z.geb_leb in E3; lia].
  apply total_bind, total_on_input. lx_simpl.
  fold (inToken l 1).
  assert (Hwf1 : wf (inToken l 1))
    by (unfold inToken, wf in *; cbn [pos data mark]; lia).
  eapply total_weaken; [apply (readNumber_run (inToken l 1) Hwf1); reflexivity|].
  intros [] s1 Hrun.
  pose proof Hrun as ((Hd & Hm & Hp1 & Hp2) & _).
  cbn [inToken pos data mark] in Hd, Hm, Hp1, Hp2.
  apply total_bind, total_on_input. unfold getMark.
  apply total_bind, total_get, total_ret. lx_simpl.
  rewrite Hd, Hm.
  eapply total_weaken.
  { apply (emitNumber_total lval _ _ l); lx_simpl; [exact Hm|reflexivity]. }
  intros r l' [Hin Hres]. lx_simpl. unfold numberRound.
  rewrite Hin. split; [exact Hrun|exact Hres].
Qed.

(** X10: at a digit, [Lex] reads one numeric lexeme, the digit and the
    run [readNumber] takes after it, and returns what the lexeme decodes
    to: an integer literal, a float literal, or an error, and with an
    error no token is added. *)
Theorem X10_Lex_number (lval : protoSymType) (l : protoLex) :
  wf (input l) -> err (input l) = None ->
  reporter.ReporterError (handler l) = None ->
  pos (input l) < len (data (input l)) ->
  "0"%rune <= nth (Z.to_nat (pos (input l))) (data (input l)) 0 <= "9"%rune ->
  total (Lex lval) l (fun r l' => numberRound lval l (inr r) l').
Proof.
  intros Hwf Herr Hrep Hpos Hb. apply Lex_first_round; [exact Hrep|].
  eapply total_weaken;
    [apply (Lex_body_number lval (set_comments l [])); assumption|].
  intros [[]|x] l' H; unfold numberRound, numberResult in *; lx_simpl.
  - destruct H as [_ H].
    destruct (lexNumber _ _); destruct H as [H _];
      [discriminate|discriminate|destruct H as (? & H & _); discriminate].
  - exact H.
Qed.

Lemma X10_Lex_number_witness :
  total (Lex empty_sym) (lexerOn (bytes_of_string "1e+5+2"))
    (fun r l' => numberRound empty_sym (lexerOn (bytes_of_string "1e+5+2")) (inr r) l')
  /\ total (Lex empty_sym) (lexerOn (bytes_of_string "1e+5+2"))
       (fun r l' => fst r = _FLOAT_LIT /\ ast.tokens (info l') = [(0, 4)])
  /\ total (Lex empty_sym) (lexerOn (bytes_of_string "08"))
       (fun r l' =>
          fst r = _ERROR
          /\ errText (snd r) = Some "invalid syntax in octal integer value: 08"%string
          /\ ast.tokens (info l') = []).
Proof.
  split; [|split; vm_compute; repeat split; reflexivity].
  apply (X10_Lex_number empty_sym (lexerOn (bytes_of_string "1e+5+2"))).
  - unfold wf. vm_compute. repeat split; discriminate.
  - reflexivity.
  - reflexivity.
  - vm_compute. reflexivity.
  - vm_compute. split; discriminate.
Defined.


(** What the round of [Lex] does at a point.  Before a digit the point
    begins a numeric lexeme, the point, the digit and the run
    [readNumber] takes after them, which is decoded as a float.
    Otherwise, at the end of the source or before any other byte, the
    point is a rune of its own. *)
Definition dotRound (lval : protoSymType) (l : protoLex)
    (r : unit + symbol * protoSymType) (l' : protoLex) : Prop :=
  let d := data (input l) in
  let p := pos (input l) in
  let p' := pos (input l') in
  if (p + 1 <? len d)
     && ("0"%rune <=? nth (Z.to_nat (p + 1)) d 0)
     && (nth (Z.to_nat (p + 1)) d 0 <=? "9"%rune)
  then
    numberRun (inToken l 2) (input l')
    /\ numberResult lval l (lexDotNumber atof.ParseFloat (slice d p p')) r l'
  else
    r = inr (TK "."%rune,
             {| sym_s := sym_s lval; sym_id := sym_id lval; sym_i := sym_i lval;
                sym_f := sym_f lval;
                sym_b := Some (ast.RuneNode "."%rune (len (ast.tokens (info l))));
                sym_err := sym_err lval |})
    /\ p' = p + 1
    /\ ast.tokens (info l') = ast.tokens (info l) ++ [(p, 1)].

Lemma Lex_body_dot lval l :
  wf (input l) -> err (input l) = None ->
  pos (input l) < len (data (input l)) ->
  nth (Z.to_nat (pos (input l))) (data (input l)) 0 = "."%rune ->
  total (Lex_body lval tt) l (dotRound lval l).
Proof.
  intros Hwf Herr Hpos Hb.
  ascii_start Hwf Herr Hpos; [rewrite Hb; reflexivity|].
  rewrite Hb. do 2 eval_if.
  apply total_bind, total_on_input. lx_simpl.
  fold (inToken l 1).
  assert (Hwf1 : wf (inToken l 1))
    by (unfold inToken, wf in *; cbn [pos data mark]; lia).
  assert (Hrune : forall l0,
             pos (input l0) = pos (input l) + 1 ->
             mark (input l0) = pos (input l) ->
             ast.tokens (info l0) = ast.tokens (info l) ->
             total (lval0 <- setRune lval 46 ;; ret (@inr unit _ (TK 46, lval0))) l0
               (fun r l' =>
                  r = inr (TK 46,
                           {| sym_s := sym_s lval; sym_id := sym_id lval;
                              sym_i := sym_i lval; sym_f := sym_f lval;
                              sym_b := Some (ast.RuneNode 46 (len (ast.tokens (info l))));
                              sym_err := sym_err lval |})
                  /\ pos (input l') = pos (input l) + 1
                  /\ ast.tokens (info l') = ast.tokens (info l) ++ [(pos (input l), 1)])).
  { intros l0 Hp Hm Ht. apply total_bind, setRune_total. intros l' Hem.
    apply total_ret.
    destruct Hem as (tr & le & _ & Htok & _ & _ & _ & _ & _ & Hin' & _).
    rewrite Htok, Hin', Hp, Hm, Ht.
    split; [reflexivity|]. split; [reflexivity|]. do 3 f_equal. lia. }
  unfold total at 1.
  destruct (readRune_cases (inToken l 1) Hwf1 eq_refl)
    as [(Hend & ->)|[(Hlt & Hbyte & e & ->)|(c & sz & -> & Hsz & Hle & Hc)]];
    cbn [inToken pos data mark err] in *; cbv beta iota.
  - eapply total_weaken.
    { apply Hrune; lx_simpl; reflexivity. }
    intros r l' H. unfold dotRound.
    destruct (pos (input l) + 1 <? len (data (input l))) eqn:E; [lia|].
    exact H.
  - eapply total_weaken.
    { apply Hrune; lx_simpl; reflexivity. }
    intros r l' H. unfold dotRound.
    destruct (_ && _ && _) eqn:E; [lia|]. exact H.
  - destruct ((c >=? 48) && (c <=? 57)) eqn:Ed.
    + rewrite !Z.geb_leb in Ed.
      destruct Hc as [(-> & _ & Hn)|(Hc & _)]; [|lia].
      apply total_bind, total_on_input. lx_simpl.
      replace (pos (input l) + 1 + 1) with (pos (input l) + 2) by lia.
      fold (inToken l 2).
      assert (Hwf2 : wf (inToken l 2))
        by (unfold inToken, wf in *; cbn [pos data mark]; lia).
      eapply total_weaken;
        [apply (readNumber_run (inToken l 2) Hwf2); reflexivity|].
      intros [] s1 Hrun.
      pose proof Hrun as ((Hd & Hm & Hp1 & Hp2) & _).
      cbn [inToken pos data mark] in Hd, Hm, Hp1, Hp2.
      apply total_bind, total_on_input. unfold getMark.
      apply total_bind, total_get, total_ret. lx_simpl.
      rewrite Hd, Hm.
      eapply total_weaken.
      { apply (emitNumber_total lval _ _ l); lx_simpl; [exact Hm|reflexivity]. }
      intros r l' [Hin Hres]. lx_simpl. unfold dotRound.
      destruct (_ && _ && _) eqn:E; [|lia].
      rewrite Hin. split; [exact Hrun|exact Hres].
    + rewrite !Z.geb_leb in Ed.
      apply total_bind, total_on_input. lx_simpl.
      apply unreadRune_spec; cbn [pos mark data err]; [lia|].
      eapply total_weaken.
      { apply Hrune; lx_simpl; cbn [pos mark]; [lia|reflexivity|reflexivity]. }
      intros r l' H. unfold dotRound.
      destruct (_ && _ && _) eqn:E; [|exact H].
      destruct Hc as [(_ & _ & Hn)|(_ & Hn)]; lia.
Qed.

(** X11: a point before a digit begins a float literal; any other point
    is the rune of the point, of one byte: at the end of the source,
    before a byte that is no digit, and before a byte that starts no
    rune. *)
Theorem X11_Lex_point (lval : protoSymType) (l : protoLex) :
  wf (input l) -> err (input l) = None ->
  reporter.ReporterError (handler l) = None ->
  pos (input l) < len (data (input l)) ->
  nth (Z.to_nat (pos (input l))) (data (input l)) 0 = "."%rune ->
  total (Lex lval) l (fun r l' => dotRound lval l (inr r) l').
Proof.
  intros Hwf Herr Hrep Hpos Hb. apply Lex_first_round; [exact Hrep|].
  eapply total_weaken;
    [apply (Lex_body_dot lval (set_comments l [])); assumption|].
  intros [[]|x] l' H; unfold dotRound, numberResult in *; lx_simpl;
    [|exact H].
  destruct (_ && _ && _).
  - destruct H as [_ H].
    destruct (lexDotNumber _ _); destruct H as [H _];
      [discriminate|discriminate|destruct H as (? & H & _); discriminate].
  - destruct H as [H _]. discriminate.
Qed.

Lemma X11_Lex_point_witness :
  total (Lex empty_sym) (lexerOn (bytes_of_string ".5e1x"))
    (fun r l' => dotRound empty_sym (lexerOn (bytes_of_string ".5e1x")) (inr r) l')
  /\ total (Lex empty_sym) (lexerOn (bytes_of_string ".5e1 x"))
       (fun r l' => fst r = _FLOAT_LIT /\ ast.tokens (info l') = [(0, 4)])
  /\ total (Lex empty_sym) (lexerOn (bytes_of_string ".x"))
       (fun r l' => fst r = TK "."%rune /\ ast.tokens (info l') = [(0, 1)]).
Proof.
  split; [|split; vm_compute; repeat split; reflexivity].
  apply (X11_Lex_point empty_sym (lexerOn (bytes_of_string ".5e1x"))).
  - unfold wf. vm_compute. repeat split; discriminate.
  - reflexivity.
  - reflexivity.
  - vm_compute. reflexivity.
  - vm_compute. reflexivity.
Defined.


(** ** Calls of [Lex] one after another *)

(** Any number of calls of [Lex] return. *)
Lemma LexN_total n l :
  wf (input l) ->
  total (LexN n) l
    (fun rs l' => List.length rs = n /\ wf (input l')
                  /\ data (input l') = data (input l)).
Proof.
  revert l. induction n as [|n IH]; intros l Hwf; cbn [LexN].
  - apply total_ret. split; [reflexivity|]. split; [exact Hwf|reflexivity].
  - apply total_bind.
    eapply total_weaken; [apply (Lex_spec empty_sym l Hwf)|].
    intros r l1 H1.
    assert (Hl1 : wf (input l1) /\ data (input l1) = data (input l)).
    { destruct (reporter.ReporterError (handler l)).
      - destruct H1 as [_ ->]. split; [exact Hwf|reflexivity].
      - destruct r as [k lv]. destruct H1 as (H & H' & _). split; assumption. }
    destruct Hl1 as [Hwf1 Hd1].
    apply total_bind.
    eapply total_weaken; [apply (IH l1 Hwf1)|].
    intros rs l2 (Hlen & Hwf2 & Hd2). apply total_ret.
    cbn [List.length]. split; [lia|]. split; [exact Hwf2|congruence].
Qed.

(** X12: the lexer never panics and every call returns.  On every source,
    with every handler, any number of calls of [Lex] run to their end: no
    [unreadRune] goes back past the mark, no comment is given to a
    terminal that is not there, and every loop ends; the reader stays
    within the source, which is not changed. *)
Theorem X12_Lex_always_returns (src : gostring) (filename : string)
    (h : reporter.Handler) (n : nat) :
  exists rs l',
    LexN n (newLexer src filename h) = Ok rs l'
    /\ List.length rs = n
    /\ wf (input l')
    /\ data (input l') = data (input (newLexer src filename h)).
Proof.
  pose proof (LexN_total n (newLexer src filename h)
                (newLexer_wf src filename h)) as H.
  apply total_run in H. destruct H as (rs & l' & Hrun & Hpost).
  exists rs, l'. split; [exact Hrun|exact Hpost].
Qed.

(** The lexer has met the end of its input: its reader is at the end of
    the data, or has kept [io.EOF]. *)
Definition atEnd (l : protoLex) : Prop :=
  (err (input l) = None /\ pos (input l) = len (data (input l)))
  \/ err (input l) = Some io_EOF.

(** What [Lex] does at the end of the input: it returns 0 with a rune
    node of the rune 0, whose token, of no byte, is the next of the table
    and is kept as the [eof] token; the reader keeps [io.EOF] and stays
    where it is. *)
Definition endRound (lval : protoSymType) (l : protoLex)
    (r : symbol * protoSymType) (l' : protoLex) : Prop :=
  r = (TK 0,
       {| sym_s := sym_s lval; sym_id := sym_id lval; sym_i := sym_i lval;
          sym_f := sym_f lval;
          sym_b := Some (ast.RuneNode 0 (len (ast.tokens (info l))));
          sym_err := sym_err lval |})
  /\ err (input l') = Some io_EOF
  /\ pos (input l') = pos (input l)
  /\ ast.tokens (info l') = ast.tokens (info l) ++ [(pos (input l), 0)]
  /\ eof l' = len (ast.tokens (info l))
  /\ handler l' = handler l.

Lemma Lex_at_end lval l :
  atEnd l -> reporter.ReporterError (handler l) = None ->
  total (Lex lval) l (endRound lval l).
Proof.
  intros Hend Hrep. apply Lex_first_round; [exact Hrep|].
  unfold Lex_body.
  apply total_bind, total_on_input, total_modify.
  apply total_bind, total_on_input, total_bind, total_get, total_ret.
  apply total_bind, total_modify.
  lx_simpl; cbn [pos data err mark].
  apply total_bind, total_on_input. lx_simpl.
  assert (Hread : readRune {| data := data (input l); pos := pos (input l);
                              err := err (input l); mark := pos (input l) |}
                  = Ok (0, 0, Some io_EOF)
                       {| data := data (input l); pos := pos (input l);
                          err := Some io_EOF; mark := pos (input l) |}).
  { destruct Hend as [[He Hp]|He].
    - rewrite readRune_eof; cbn [pos data err mark]; try assumption.
      reflexivity.
    - unfold readRune, bind, get, ret. cbn [err]. rewrite He. reflexivity. }
  unfold total at 1. rewrite Hread. cbv beta iota.
  apply total_bind, setRune_total. intros l' Hem.
  apply total_bind, total_modify. apply total_ret.
  destruct Hem as (tr & le & _ & Htok & _ & _ & _ & _ & Hh & Hin & _).
  unfold endRound. lx_simpl. rewrite Hin, Htok, Hh. lx_simpl.
  cbn [pos mark err sym_b ast.Token_of].
  rewrite Z.sub_diag. repeat split.
Qed.

(** X13: the end of the input is final.  At the end of the input [Lex]
    returns 0 with the rune node 0 as a new token of no byte, and leaves
    the lexer at the end of the input with the handler as it was: so every
    later call returns 0 again, each with a token of its own. *)
Theorem X13_end_of_input_is_final (lval : protoSymType) (l : protoLex) :
  atEnd l -> reporter.ReporterError (handler l) = None ->
  total (Lex lval) l
    (fun r l' => endRound lval l r l' /\ atEnd l'
                 /\ reporter.ReporterError (handler l') = None).
Proof.
  intros Hend Hrep.
  eapply total_weaken; [apply (Lex_at_end lval l Hend Hrep)|].
  intros r l' H. split; [exact H|].
  destruct H as (_ & He & _ & _ & _ & Hh).
  split; [right; exact He|]. now rewrite Hh.
Qed.

Lemma X13_end_of_input_is_final_witness :
  total (Lex empty_sym) (lexerOn [])
    (fun r l' => endRound empty_sym (lexerOn []) r l' /\ atEnd l'
                 /\ reporter.ReporterError (handler l') = None)
  /\ total (LexN 3) (lexerOn (bytes_of_string "a"))
       (fun rs l' => map fst rs = [_NAME; TK 0; TK 0]
                     /\ ast.tokens (info l') = [(0, 1); (1, 0); (1, 0)]).
Proof.
  split; [|vm_compute; split; reflexivity].
  apply (X13_end_of_input_is_final empty_sym (lexerOn [])).
  - left. split; reflexivity.
  - reflexivity.
Defined.

(** The reader of [l] fails with [e], an error other than the end of the
    input: it has kept [e], or the byte at its position starts no rune it
    accepts. *)
Definition readerFails (l : protoLex) (e : error) : Prop :=
  e <> io_EOF
  /\ exists c sz rr', readRune (input l) = Ok (c, sz, Some e) rr'.

(** X14: an error of the reader is final too.  When the reader fails, on
    a byte that is not UTF-8 or with an error it has kept, [Lex] returns
    an error that wraps the error of the reader, adds no token, and leaves
    the reader where it is, failing with the same error: the lexer does
    not get past such a byte, every later call reports it again. *)
Theorem X14_reader_error_is_final (lval : protoSymType) (l : protoLex)
    (e : error) :
  readerFails l e -> reporter.ReporterError (handler l) = None ->
  total (Lex lval) l
    (fun r l' =>
       fst r = _ERROR
       /\ (exists ewp, sym_err (snd r) = Some ewp /\ reporter.Unwrap ewp = e)
       /\ pos (input l') = pos (input l)
       /\ ast.tokens (info l') = ast.tokens (info l)
       /\ readerFails l' e).
Proof.
  intros (Hne & c & sz & rr' & Hread) Hrep.
  apply Lex_first_round; [exact Hrep|].
  unfold Lex_body.
  apply total_bind, total_on_input, total_modify.
  apply total_bind, total_on_input, total_bind, total_get, total_ret.
  apply total_bind, total_modify.
  lx_simpl; cbn [pos data err mark].
  apply total_bind, total_on_input. lx_simpl.
  set (m := {| data := data (input l); pos := pos (input l);
               err := err (input l); mark := pos (input l) |}).
  assert (Hm : readRune m
               = Ok (0, 0, Some e)
                    {| data := data (input l); pos := pos (input l);
                       err := Some e; mark := pos (input l) |}).
  { revert Hread. subst m. unfold readRune, bind, get, put, ret.
    cbn [err pos data mark].
    destruct (err (input l)) as [e0|]; [intros [= _ _ <- _]; reflexivity|].
    destruct (pos (input l) =? len (data (input l))); [congruence|].
    destruct (utf8.DecodeRune _) as [r n].
    destruct (r =? utf8.RuneError); [|discriminate].
    intros [= _ _ <- _]. reflexivity. }
  unfold total at 1. rewrite Hm. cbv beta iota.
  assert (Hgo : total (lval0 <- setError lval e ;; ret (@inr unit _ (_ERROR, lval0)))
                  (set_input
                     (set_prevOffset
                        (set_input (set_input (set_comments l []) m) m)
                        (pos (input l)))
                     {| data := data (input l); pos := pos (input l);
                        err := Some e; mark := pos (input l) |})
                  (fun r l' =>
                     match r with
                     | inl _ => False
                     | inr x =>
                       fst x = _ERROR
                       /\ (exists ewp, sym_err (snd x) = Some ewp
                                       /\ reporter.Unwrap ewp = e)
                       /\ pos (input l') = pos (input l)
                       /\ ast.tokens (info l') = ast.tokens (info l)
                       /\ readerFails l' e
                     end)).
  { apply total_bind, setError_total. intros h ewp Hun. apply total_ret.
    cbn [fst snd sym_err]. lx_simpl. cbn [pos].
    split; [reflexivity|]. split; [exists ewp; split; [reflexivity|exact Hun]|].
    split; [reflexivity|]. split; [reflexivity|].
    split; [exact Hne|]. do 3 eexists. unfold readRune, bind, get, ret.
    cbn [err]. reflexivity. }
  destruct e; try exact Hgo. now elim Hne.
Qed.

Lemma X14_reader_error_is_final_witness :
  total (Lex empty_sym) (lexerOn [255; 97])
    (fun r l' =>
       fst r = _ERROR
       /\ (exists ewp, sym_err (snd r) = Some ewp
                       /\ reporter.Unwrap ewp
                          = fmt_Errorf "invalid UTF8 at offset %d: %x"
                                       [ArgD 0; ArgX 255])
       /\ pos (input l') = pos (input (lexerOn [255; 97]))
       /\ ast.tokens (info l') = ast.tokens (info (lexerOn [255; 97]))
       /\ readerFails l' (fmt_Errorf "invalid UTF8 at offset %d: %x"
                                     [ArgD 0; ArgX 255]))
  /\ total (LexN 3) (lexerOn [255; 97])
       (fun rs l' => map fst rs = [_ERROR; _ERROR; _ERROR]
                     /\ pos (input l') = 0).
Proof.
  split; [|vm_compute; split; reflexivity].
  apply (X14_reader_error_is_final empty_sym (lexerOn [255; 97])).
  - split; [discriminate|]. do 3 eexists. vm_compute. reflexivity.
  - reflexivity.
Defined.


(** ** White space *)

(** A loop that ends within its fuel gives the same result with any
    fuel above its measure. *)
Lemma loop_fuel {St V A} (body : V -> M St (V + A))
    (I : V -> St -> Prop) (mu : St -> nat) :
  (forall v s, I v s ->
     total (body v) s
       (fun r s' => match r with
                    | inl v' => I v' s' /\ (mu s' < mu s)%nat
                    | inr _ => True
                    end)) ->
  forall fuel1 fuel2 v s,
    I v s -> (mu s < fuel1)%nat -> (mu s < fuel2)%nat ->
    loop fuel1 body v s = loop fuel2 body v s.
Proof.
  intros Hbody fuel1.
  induction fuel1 as [|fuel1 IH]; intros fuel2 v s HI H1 H2; [lia|].
  destruct fuel2 as [|fuel2]; [lia|].
  cbn [loop]. unfold bind.
  specialize (Hbody v s HI). unfold total in Hbody.
  destruct (body v s) as [[v'|a] s'| |]; try contradiction; [|reflexivity].
  destruct Hbody as [HI' Hlt]. apply IH; [exact HI'|lia|lia].
Qed.

(** The state in which a round of [Lex] begins its work: the mark and
    the offset of the previous position are set to the position. *)
Definition roundStart (l : protoLex) : protoLex :=
  {| input := {| data := data (input l); pos := pos (input l);
                 err := err (input l); mark := pos (input l) |};
     info := info l; handler := handler l; prevSym := prevSym l;
     prevOffset := pos (input l); eof := eof l; comments := comments l |}.

(** A round of [Lex] depends on the state through its [roundStart]: the
    mark and the previous offset it finds do not matter. *)
Lemma Lex_body_roundStart lval l :
  Lex_body lval tt l = Lex_body lval tt (roundStart l).
Proof. destruct l as [[d p e m] i h ps po eo cs]. reflexivity. Qed.

(** White space: the runes [Lex] skips. *)
Definition whiteSpace (c : Z) : Prop :=
  c = 10 \/ c = 13 \/ c = 9 \/ c = 12 \/ c = 11 \/ c = 32.

(** The lexer past the white-space byte at its position, with the start
    of the next line recorded when the byte is a newline. *)
Definition skipped (l : protoLex) : protoLex :=
  {| input := {| data := data (input l); pos := pos (input l) + 1;
                 err := None; mark := pos (input l) |};
     info := if nth (Z.to_nat (pos (input l))) (data (input l)) 0 =? 10
             then ast.AddLine (info l) (pos (input l) + 1)
             else info l;
     handler := handler l; prevSym := prevSym l;
     prevOffset := pos (input l); eof := eof l; comments := comments l |}.

(** The round of [Lex] at a white-space byte goes round again, from the
    state past the byte. *)
Lemma Lex_body_whiteSpace lval l :
  wf (input l) -> err (input l) = None ->
  pos (input l) < len (data (input l)) ->
  whiteSpace (nth (Z.to_nat (pos (input l))) (data (input l)) 0) ->
  Lex_body lval tt l = Ok (inl tt) (skipped l).
Proof.
  intros Hwf Herr Hpos Hb.
  assert (H : total (Lex_body lval tt) l
                (fun r l' => r = inl tt /\ l' = skipped l)).
  { unfold whiteSpace in Hb.
    ascii_start Hwf Herr Hpos; [lia|].
    set (b := nth _ _ _) in *.
    assert (Hws : strings.ContainsRune [10; 13; 9; 12; 11; 32] b = true).
    { destruct Hb as [-> | [-> | [-> | [-> | [-> | ->]]]]]; reflexivity. }
    rewrite Hws. apply total_bind. unfold maybeNewLine, skipped. fold b.
    destruct (b =? 10).
    - apply total_bind, total_on_input, total_bind, total_get, total_ret.
      apply total_modify, total_ret. split; [reflexivity|].
      lx_simpl. cbn [pos]. reflexivity.
    - apply total_ret, total_ret. split; [reflexivity|].
      lx_simpl. reflexivity. }
  apply total_run in H. destruct H as (r & l' & Hrun & -> & ->). exact Hrun.
Qed.

(** The loop of [Lex] gives the same result with any fuel above what is
    left to read. *)
Lemma Lex_loop_fuel lval fuel1 fuel2 l :
  wf (input l) ->
  (remaining (input l) < fuel1)%nat -> (remaining (input l) < fuel2)%nat ->
  loop fuel1 (Lex_body lval) tt l = loop fuel2 (Lex_body lval) tt l.
Proof.
  intros Hwf H1 H2.
  apply (loop_fuel (Lex_body lval) (fun _ s => wf (input s))
           (fun s => remaining (input s))); try assumption.
  intros [] s Hs.
  eapply total_weaken; [apply (Lex_body_spec lval s Hs)|].
  intros [[]|x] s' (Hwf' & _ & Hpost); [|exact I].
  destruct Hpost as (Hlt & _). split; assumption.
Qed.

(** X15: white space is skipped and changes nothing but the position and
    the lines.  At a white-space byte (newline, carriage return, tab,
    form feed, vertical tab, space) [Lex] returns what it returns from the
    state past that byte, result and final state alike; a newline, and no
    other white space, records the offset after it as the start of a
    line. *)
Theorem X15_white_space_is_skipped (lval : protoSymType) (l : protoLex) :
  wf (input l) -> err (input l) = None ->
  reporter.ReporterError (handler l) = None ->
  pos (input l) < len (data (input l)) ->
  whiteSpace (nth (Z.to_nat (pos (input l))) (data (input l)) 0) ->
  Lex lval l = Lex lval (skipped l).
Proof.
  intros Hwf Herr Hrep Hpos Hb. unfold Lex, bind, get, put.
  change (handler (skipped l)) with (handler l). rewrite Hrep.
  change (fuel_of (input (skipped l))) with (fuel_of (input l)).
  unfold fuel_of at 1. cbn [loop]. unfold bind at 1.
  rewrite (Lex_body_whiteSpace lval (set_comments l [])) by assumption.
  assert (Hwf1 : wf (input (skipped (set_comments l []))))
    by (unfold wf in *; cbn [skipped input pos mark data set_comments]; lia).
  rewrite (Lex_loop_fuel lval _ (fuel_of (input l)) _ Hwf1).
  - unfold fuel_of. cbn [loop]. unfold bind.
    rewrite Lex_body_roundStart.
    rewrite (Lex_body_roundStart lval (set_comments (skipped l) [])).
    reflexivity.
  - unfold remaining. cbn [skipped input pos data set_comments].
    unfold len in *. unfold wf in Hwf. lia.
  - unfold remaining, fuel_of. cbn [skipped input pos data set_comments].
    unfold len in *. unfold wf in Hwf. lia.
Qed.

(** The lexer on a newline, a carriage return and [x]. *)
Definition wsLexer : protoLex := lexerOn [10; 13; 120].

Lemma X15_white_space_is_skipped_witness :
  Lex empty_sym wsLexer = Lex empty_sym (skipped wsLexer)
  /\ ast.lines (info (skipped wsLexer)) = [0; 1]
  /\ ast.lines (info (skipped (skipped wsLexer))) = [0; 1]
  /\ total (Lex empty_sym) wsLexer
       (fun r l' => fst r = _NAME /\ ast.tokens (info l') = [(2, 1)]
                    /\ ast.lines (info l') = [0; 1]).
Proof.
  split; [|vm_compute; repeat split; reflexivity].
  apply (X15_white_space_is_skipped empty_sym wsLexer).
  - unfold wf. vm_compute. repeat split; discriminate.
  - reflexivity.
  - reflexivity.
  - vm_compute. reflexivity.
  - left. reflexivity.
Defined.


(** ** Punctuation *)

(** What [Lex] does at a punctuation rune [c]: it returns [c] itself as
    the kind, with a rune node of [c] whose token is the one byte. *)
Definition runeRound (lval : protoSymType) (l : protoLex) (c : Z)
    (r : symbol * protoSymType) (l' : protoLex) : Prop :=
  r = (TK c,
       {| sym_s := sym_s lval; sym_id := sym_id lval; sym_i := sym_i lval;
          sym_f := sym_f lval;
          sym_b := Some (ast.RuneNode c (len (ast.tokens (info l))));
          sym_err := sym_err lval |})
  /\ pos (input l') = pos (input l) + 1
  /\ ast.tokens (info l') = ast.tokens (info l) ++ [(pos (input l), 1)]
  /\ handler l' = handler l.

Lemma Lex_body_punctuation lval l c :
  wf (input l) -> err (input l) = None ->
  pos (input l) < len (data (input l)) ->
  nth (Z.to_nat (pos (input l))) (data (input l)) 0 = c ->
  In c (bytes_of_string ";,:=-+(){}[]<>") ->
  total (Lex_body lval tt) l
    (fun r l' => match r with
                 | inl _ => False
                 | inr x => runeRound lval l c x l'
                 end).
Proof.
  intros Hwf Herr Hpos Hb Hin.
  assert (Hc : c < 128)
    by (cbn in Hin; repeat destruct Hin as [<-|Hin]; try lia; contradiction).
  ascii_start Hwf Herr Hpos; [rewrite Hb; exact Hc|].
  rewrite Hb. clear Hc.
  cbn in Hin.
  repeat destruct Hin as [<-|Hin]; try contradiction;
    repeat eval_if; unfold lexRune; repeat eval_if;
    apply total_bind, setRune_total; intros l' Hem; apply total_ret;
    destruct Hem as (tr & le & _ & Htok & _ & _ & _ & _ & Hh & Hin' & _);
    unfold runeRound; lx_simpl; rewrite Htok, Hin', Hh; lx_simpl;
    cbn [pos mark];
    (split; [reflexivity|]; split; [reflexivity|]; split; [|reflexivity]);
    do 3 f_equal; lia.
Qed.

(** X16: each of the runes [; , : = - + ( ) { } [ ] < >] is a token of
    its own: at such a byte [Lex] returns the rune as the kind, with a
    rune node of it whose token is that one byte. *)
Theorem X16_Lex_punctuation (lval : protoSymType) (l : protoLex) (c : Z) :
  wf (input l) -> err (input l) = None ->
  reporter.ReporterError (handler l) = None ->
  pos (input l) < len (data (input l)) ->
  nth (Z.to_nat (pos (input l))) (data (input l)) 0 = c ->
  In c (bytes_of_string ";,:=-+(){}[]<>") ->
  total (Lex lval) l (runeRound lval l c).
Proof.
  intros Hwf Herr Hrep Hpos Hb Hin. apply Lex_first_round; [exact Hrep|].
  eapply total_weaken;
    [apply (Lex_body_punctuation lval (set_comments l []) c); assumption|].
  intros [[]|x] l' H; [contradiction|exact H].
Qed.

Lemma X16_Lex_punctuation_witness :
  total (Lex empty_sym) (lexerOn (bytes_of_string "=1"))
    (runeRound empty_sym (lexerOn (bytes_of_string "=1")) "="%rune).
Proof.
  apply (X16_Lex_punctuation empty_sym (lexerOn (bytes_of_string "=1")) "="%rune).
  - unfold wf. vm_compute. repeat split; discriminate.
  - reflexivity.
  - reflexivity.
  - vm_compute. reflexivity.
  - reflexivity.
  - cbn. do 3 right. left. reflexivity.
Defined.


(** ** Integer literals *)

(** The number that the digits [s] continue from [n] in a base, [val]
    giving the value of a digit. *)
Fixpoint valueFrom (base : Z) (val : Z -> Z) (s : gostring) (n : Z) : Z :=
  match s with
  | [] => n
  | c :: s' => valueFrom base val s' (n * base + val c)
  end.

(** The digits of [s] are digits of the base, with the values [val]. *)
Definition digitsIn (base : Z) (val : Z -> Z) (s : gostring) : Prop :=
  Forall (fun c => strconv.digitVal c = Some (val c) /\ 0 <= val c < base) s.

Lemma valueFrom_ge base val s n :
  0 < base -> digitsIn base val s -> 0 <= n -> n <= valueFrom base val s n.
Proof.
  intros Hb Hs. revert n. induction Hs as [|c s [_ Hc] _ IH]; intros n Hn;
    cbn [valueFrom]; [lia|].
  assert (n <= n * base + val c) by nia.
  specialize (IH (n * base + val c)). lia.
Qed.

(** The loop of [ParseUint] on digits of the base: their value when it
    fits 64 bits, and a range error when it does not. *)
Lemma ParseUint_loop_value base val s n :
  base = 8 \/ base = 10 \/ base = 16 ->
  digitsIn base val s -> 0 <= n <= strconv.maxUint64 ->
  strconv.ParseUint_loop s base (strconv.maxUint64 / base + 1) (2 ^ 64 - 1) n
  = if valueFrom base val s n <=? strconv.maxUint64
    then (valueFrom base val s n, None)
    else (2 ^ 64 - 1, Some ErrRange).
Proof.
  intros Hbase Hs. revert n.
  induction Hs as [|c s [Hd Hc] Hs IH]; intros n Hn; cbn [valueFrom strconv.ParseUint_loop].
  { destruct (n <=? strconv.maxUint64) eqn:E; [reflexivity|lia]. }
  rewrite Hd.
  destruct (val c >=? base) eqn:E1; [lia|].
  assert (Hpos : 0 < base) by lia.
  pose proof (valueFrom_ge base val s (n * base + val c) Hpos Hs) as Hge.
  unfold strconv.maxUint64 in *.
  assert (Hcut : 2 ^ 64 - 1 < (((2 ^ 64 - 1) / base) + 1) * base
                 /\ ((2 ^ 64 - 1) / base) * base <= 2 ^ 64 - 1).
  { destruct Hbase as [-> | [-> | ->]]; vm_compute; split; (reflexivity || discriminate). }
  destruct (n >=? (2 ^ 64 - 1) / base + 1) eqn:E2.
  { destruct (_ <=? _) eqn:E3; [|reflexivity]. exfalso.
    assert (n * base + val c <= 2 ^ 64 - 1) by lia. nia. }
  assert (Hnb : 0 <= n * base <= 2 ^ 64 - 1) by nia.
  rewrite (Z.mod_small (n * base)) by lia.
  destruct (Z_lt_le_dec (n * base + val c) (2 ^ 64)) as [Hfit|Hover].
  - rewrite (Z.mod_small (n * base + val c)) by lia.
    destruct ((n * base + val c <? n * base) || (2 ^ 64 - 1 <? n * base + val c))
      eqn:E3; [lia|].
    apply IH. lia.
  - assert (Hwrap : (n * base + val c) mod 2 ^ 64 = n * base + val c - 2 ^ 64).
    { symmetry. apply (Z.mod_unique _ _ 1); lia. }
    rewrite Hwrap.
    destruct ((n * base + val c - 2 ^ 64 <? n * base)
              || (2 ^ 64 - 1 <? n * base + val c - 2 ^ 64)) eqn:E3; [|lia].
    destruct (_ <=? _) eqn:E4; [|reflexivity]. lia.
Qed.

Lemma ParseUint_value base val s :
  base = 8 \/ base = 10 \/ base = 16 ->
  s <> [] -> digitsIn base val s ->
  strconv.ParseUint s base 64
  = if valueFrom base val s 0 <=? strconv.maxUint64
    then (valueFrom base val s 0, None)
    else (2 ^ 64 - 1, Some (strconv_NumError "ParseUint" s ErrRange)).
Proof.
  intros Hbase Hne Hs. unfold strconv.ParseUint.
  destruct s as [|c s]; [now elim Hne|].
  rewrite (ParseUint_loop_value base val (c :: s) 0 Hbase Hs)
    by (unfold strconv.maxUint64; lia).
  destruct (_ <=? _); reflexivity.
Qed.

Definition isDigit (c : Z) : Prop := "0"%rune <= c <= "9"%rune.

Definition isHexDigit (c : Z) : Prop :=
  "0"%rune <= c <= "9"%rune \/ "a"%rune <= c <= "f"%rune
  \/ "A"%rune <= c <= "F"%rune.

(** The value of a decimal digit and of a hexadecimal digit. *)
Definition decVal (c : Z) : Z := c - "0"%rune.
Definition hexVal (c : Z) : Z :=
  if c <=? "9"%rune then c - "0"%rune
  else if c <=? "F"%rune then c - "A"%rune + 10
  else c - "a"%rune + 10.

Lemma digitVal_dec c : isDigit c -> strconv.digitVal c = Some (decVal c).
Proof.
  unfold isDigit, strconv.digitVal, decVal. intros H.
  destruct ((48 <=? c) && (c <=? 57)) eqn:E; [reflexivity|lia].
Qed.

Lemma digitVal_hex c :
  isHexDigit c -> strconv.digitVal c = Some (hexVal c) /\ 0 <= hexVal c < 16.
Proof.
  unfold isHexDigit. intros H.
  assert (Hc : In c [48; 49; 50; 51; 52; 53; 54; 55; 56; 57;
                     97; 98; 99; 100; 101; 102; 65; 66; 67; 68; 69; 70])
    by (cbn; lia).
  cbn in Hc.
  repeat destruct Hc as [<-|Hc]; try contradiction;
    (split; [reflexivity|vm_compute; split; discriminate || reflexivity]).
Qed.

Lemma Contains_single s x :
  Forall (fun c => c <> x) s -> strings.Contains s [x] = false.
Proof.
  induction 1 as [|c s Hc _ IH]; cbn [strings.Contains strings.HasPrefix];
    [reflexivity|].
  rewrite IH. destruct (c =? x) eqn:E; [lia|reflexivity].
Qed.

(** A lexeme of decimal digits has no prefix, point or exponent of
    another kind of literal. *)
Lemma digits_plain token :
  Forall isDigit token ->
  strings.HasPrefix token (bytes_of_string "0x") = false
  /\ strings.HasPrefix token (bytes_of_string "0X") = false
  /\ strings.Contains token (bytes_of_string ".") = false
  /\ strings.Contains token (bytes_of_string "e") = false
  /\ strings.Contains token (bytes_of_string "E") = false.
Proof.
  intros H. unfold isDigit in H.
  assert (Hc : forall x, (x < 48 \/ 57 < x) ->
                         strings.Contains token [x] = false).
  { intros x Hx. apply Contains_single.
    eapply Forall_impl; [|exact H]. cbv beta. intros; lia. }
  split.
  { destruct H as [|c s Hc0 [|c2 s2 Hc2 _]]; cbn; try reflexivity.
    - apply andb_false_r.
    - destruct (c2 =? 120) eqn:E; [lia|]. now rewrite andb_false_r. }
  split.
  { destruct H as [|c s Hc0 [|c2 s2 Hc2 _]]; cbn; try reflexivity.
    - apply andb_false_r.
    - destruct (c2 =? 88) eqn:E; [lia|]. now rewrite andb_false_r. }
  repeat split; apply Hc; cbn; lia.
Qed.

(** The base of a lexeme of digits: 8 when it begins with 0, else 10. *)
Definition baseOf (token : gostring) : Z :=
  if nth 0 token 0 =? "0"%rune then 8 else 10.

Section IntegerLiterals.

Variable strconv_ParseFloat : gostring -> float64 * option error.

(** What [Lex] makes of a lexeme of digits of its base: the integer they
    are, when it fits 64 bits; when it does not, the lexeme is read again
    as a float, in base 10 whatever the base was. *)
Lemma lexNumber_digits token :
  token <> [] -> Forall isDigit token ->
  Forall (fun c => decVal c < baseOf token) token ->
  lexNumber strconv_ParseFloat token
  = if valueFrom (baseOf token) decVal token 0 <=? strconv.maxUint64
    then IntToken (valueFrom (baseOf token) decVal token 0)
    else match parseFloat strconv_ParseFloat token with
         | (f, None) => FloatToken f
         | (_, Some e) => BadNumber (numError e (bytes_of_string "float") token)
         end.
Proof.
  intros Hne Hd Hb.
  destruct (digits_plain token Hd) as (H1 & H2 & H3 & H4 & H5).
  unfold lexNumber. rewrite H1, H2, H3, H4, H5. cbn [orb].
  fold (baseOf token).
  assert (Hbase : baseOf token = 8 \/ baseOf token = 10 \/ baseOf token = 16).
  { unfold baseOf. destruct (_ =? _); lia. }
  rewrite (ParseUint_value (baseOf token) decVal token Hbase Hne).
  - destruct (_ <=? _); reflexivity.
  - unfold digitsIn. rewrite Forall_forall in *. intros c Hc.
    split; [apply digitVal_dec, Hd, Hc|].
    specialize (Hd c Hc). specialize (Hb c Hc). unfold isDigit, decVal in *. lia.
Qed.

(** What [Lex] makes of a hexadecimal lexeme, [0x] or [0X] and digits:
    the integer of the digits, or a range error when it does not fit 64
    bits; the error names the digits without the prefix. *)
Lemma lexNumber_hex px ds :
  px = "x"%rune \/ px = "X"%rune -> ds <> [] -> Forall isHexDigit ds ->
  lexNumber strconv_ParseFloat ("0"%rune :: px :: ds)
  = if valueFrom 16 hexVal ds 0 <=? strconv.maxUint64
    then IntToken (valueFrom 16 hexVal ds 0)
    else BadNumber (fmt_Errorf "value out of range for %s: %s"
                      [ArgS (bytes_of_string "hexadecimal integer"); ArgS ds]).
Proof.
  intros Hpx Hne Hd. unfold lexNumber.
  assert (Hp : strings.HasPrefix (48 :: px :: ds) (bytes_of_string "0x")
               || strings.HasPrefix (48 :: px :: ds) (bytes_of_string "0X") = true).
  { destruct Hpx as [-> | ->]; destruct ds; reflexivity. }
  rewrite Hp. change (slice_from (48 :: px :: ds) 2) with ds.
  rewrite (ParseUint_value 16 hexVal ds); [|lia|exact Hne|].
  - destruct (_ <=? _); reflexivity.
  - unfold digitsIn. eapply Forall_impl; [|exact Hd]. apply digitVal_hex.
Qed.

End IntegerLiterals.

(** X17: a lexeme of decimal digits is the integer literal of its value
    in base 10, one of octal digits after a leading 0 that of its value in
    base 8; and when the value does not fit 64 bits the lexeme is not an
    error but is read again by [parseFloat], as a decimal float even when
    it was octal. *)
Theorem X17_decimal_and_octal_literals
    (strconv_ParseFloat : gostring -> float64 * option error)
    (token : gostring) :
  token <> [] -> Forall isDigit token ->
  Forall (fun c => decVal c < baseOf token) token ->
  lexNumber strconv_ParseFloat token
  = if valueFrom (baseOf token) decVal token 0 <=? strconv.maxUint64
    then IntToken (valueFrom (baseOf token) decVal token 0)
    else match parseFloat strconv_ParseFloat token with
         | (f, None) => FloatToken f
         | (_, Some e) => BadNumber (numError e (bytes_of_string "float") token)
         end.
Proof. exact (lexNumber_digits strconv_ParseFloat token). Qed.

Lemma X17_decimal_and_octal_literals_witness :
  lexNumber atof.ParseFloat (bytes_of_string "0777") = IntToken 511
  /\ total (Lex empty_sym) (lexerOn (bytes_of_string "0777"))
       (fun r _ => fst r = _INT_LIT
                   /\ sym_i (snd r) = Some (ast.UintLiteralNode 511 0))
  /\ total (Lex empty_sym) (lexerOn (bytes_of_string "18446744073709551615"))
       (fun r _ => fst r = _INT_LIT
                   /\ sym_i (snd r) = Some (ast.UintLiteralNode (2 ^ 64 - 1) 0))
  /\ total (Lex empty_sym) (lexerOn (bytes_of_string "18446744073709551616"))
       (fun r _ => fst r = _FLOAT_LIT).
Proof.
  split; [|vm_compute; repeat split; reflexivity].
  rewrite (X17_decimal_and_octal_literals atof.ParseFloat (bytes_of_string "0777")).
  - reflexivity.
  - discriminate.
  - repeat constructor; discriminate.
  - repeat constructor.
Defined.

(** X18: a hexadecimal lexeme, [0x] or [0X] followed by hexadecimal
    digits, is the integer literal of the value of the digits; when the
    value does not fit 64 bits it is the error "value out of range for
    hexadecimal integer", which names the digits without their prefix. *)
Theorem X18_hexadecimal_literals
    (strconv_ParseFloat : gostring -> float64 * option error)
    (px : Z) (ds : gostring) :
  px = "x"%rune \/ px = "X"%rune -> ds <> [] -> Forall isHexDigit ds ->
  lexNumber strconv_ParseFloat ("0"%rune :: px :: ds)
  = if valueFrom 16 hexVal ds 0 <=? strconv.maxUint64
    then IntToken (valueFrom 16 hexVal ds 0)
    else BadNumber (fmt_Errorf "value out of range for %s: %s"
                      [ArgS (bytes_of_string "hexadecimal integer"); ArgS ds]).
Proof. exact (lexNumber_hex strconv_ParseFloat px ds). Qed.

Lemma X18_hexadecimal_literals_witness :
  lexNumber atof.ParseFloat (bytes_of_string "0Xff") = IntToken 255
  /\ total (Lex empty_sym) (lexerOn (bytes_of_string "0Xff"))
       (fun r _ => fst r = _INT_LIT
                   /\ sym_i (snd r) = Some (ast.UintLiteralNode 255 0)).
Proof.
  split; [|vm_compute; repeat split; reflexivity].
  change (bytes_of_string "0Xff") with ("0"%rune :: "X"%rune :: bytes_of_string "ff").
  rewrite (X18_hexadecimal_literals atof.ParseFloat "X"%rune (bytes_of_string "ff")).
  - reflexivity.
  - right. reflexivity.
  - discriminate.
  - repeat constructor; unfold isHexDigit; cbn; lia.
Defined.


(** ** Which comments go back to the previous terminal *)

(** A comment in the style of a line comment: its text begins with two
    slashes. *)
Definition lineStyle (f : ast.FileInfo) (c : ast.Token) : Prop :=
  strings.HasPrefix (ast.RawText (ast.TokenInfo f c)) (bytes_of_string "//") = true.

(** Line comments one below the other: each is in the style of a line
    comment and starts at most one line below the line [prevLine], the
    end of the comment before it. *)
Fixpoint adjacentLines (f : ast.FileInfo) (prevLine : Z) (cs : list ast.Token)
  : Prop :=
  match cs with
  | [] => True
  | c :: cs' =>
    lineStyle f c /\ startLine f c <= prevLine + 1
    /\ adjacentLines f (endLine f c) cs'
  end.

(** The comments that [setPrevAndAddComments] gives to the previous
    terminal, and those it gives to [n], and the state it leaves. *)
Lemma setPrevAndAddComments_split n l :
  exists l',
    setPrevAndAddComments n l = Ok tt l'
    /\ comments l = fst (splitComments l n) ++ snd (splitComments l n)
    /\ ast.comments (info l')
       = ast.comments (info l) ++ attachPrev (prevSym l) (fst (splitComments l n))
         ++ attach (ast.Token_of n) (snd (splitComments l n)).
Proof.
  eexists. split; [apply setPrevAndAddComments_eq|].
  split; [symmetry; apply splitComments_app|].
  cbn [info]. rewrite addComments_comments.
  destruct (prevSym l) as [p|] eqn:Hp; cbn [attachPrev].
  - rewrite addComments_comments. now rewrite app_assoc.
  - rewrite splitComments_no_prev by now left. reflexivity.
Qed.

(** The group of line comments that the loop of [setPrevAndAddComments]
    finds: up to the index it returns, or to the end when it returns 0,
    the comments are line comments one below the other. *)
Lemma commentGroupEnd_adjacent f cs i pl :
  0 < i ->
  let g := commentGroupEnd f cs i true pl in
  0 <= (if g =? 0 then i + len cs else g) - i <= len cs
  /\ adjacentLines f pl
       (firstn (Z.to_nat ((if g =? 0 then i + len cs else g) - i)) cs).
Proof.
  revert i pl. induction cs as [|c cs IH]; intros i pl Hi; cbn zeta.
  - cbn [commentGroupEnd]. change (0 =? 0) with true. cbv iota.
    unfold len. cbn. split; [lia|]. replace (i + 0 - i) with 0 by lia. exact I.
  - cbn [commentGroupEnd]. cbn [negb orb].
    fold (startLine f c). fold (endLine f c).
    rewrite len_cons. pose proof (len_nonneg cs) as Hl.
    destruct (startLine f c >? pl + 1) eqn:E1.
    { destruct (i =? 0) eqn:E; [lia|]. rewrite Z.sub_diag. cbn. split; [lia|exact I]. }
    destruct (strings.HasPrefix _ _) eqn:E2; cbn [negb].
    + specialize (IH (i + 1) (endLine f c) ltac:(lia)). cbn zeta in IH.
      set (g := commentGroupEnd f cs (i + 1) true (endLine f c)) in *.
      destruct IH as [Hb Ha].
      assert (Hk : (if g =? 0 then i + (len cs + 1) else g) - i
                   = (if g =? 0 then i + 1 + len cs else g) - (i + 1) + 1)
        by (destruct (g =? 0); lia).
      rewrite Hk. split; [lia|].
      rewrite Z2Nat.inj_add by lia. rewrite Nat.add_comm. cbn [Z.to_nat Pos.to_nat Pos.iter_op Nat.add firstn adjacentLines].
      split; [exact E2|]. split; [lia|exact Ha].
    + destruct (i =? 0) eqn:E; [lia|]. rewrite Z.sub_diag. cbn. split; [lia|exact I].
Qed.

(** The first group of the pending comments [c :: rest] after the
    terminal [p]: the comment [c] alone when it starts on the line where
    [p] ends or is no line comment, and else [c] with the line comments
    that follow it one below the other. *)
Definition firstGroup (l : protoLex) (p : ast.TerminalNode) (c : ast.Token)
    (rest : list ast.Token) : Z :=
  if (startLine (info l) c =? endLine (info l) (ast.Token_of p))
     || negb (strings.HasPrefix (ast.RawText (ast.TokenInfo (info l) c))
                (bytes_of_string "//"))
  then 1
  else
    let g := commentGroupEnd (info l) rest 1 true (endLine (info l) c) in
    if g =? 0 then len (c :: rest) else g.

Lemma firstGroup_bounds l p c rest :
  1 <= firstGroup l p c rest <= len (c :: rest).
Proof.
  unfold firstGroup. rewrite len_cons. pose proof (len_nonneg rest).
  destruct (_ || _); [lia|].
  pose proof (commentGroupEnd_adjacent (info l) rest 1 (endLine (info l) c)
                ltac:(lia)) as [Hb _].
  cbn zeta in Hb.
  destruct (commentGroupEnd _ _ _ _ _ =? 0); lia.
Qed.


(** X19: before a punctuation rune other than the point, a pending
    comment that may go back goes back: when the rune starts on a later
    line than the previous terminal ends, and the first pending comment
    starts on that line or the next, [setPrevAndAddComments] gives the
    first comment to the previous terminal, as its trailing comment. *)
Theorem X19_punctuation_gives_comment_back (l : protoLex)
    (p : ast.TerminalNode) (c : ast.Token) (rest : list ast.Token)
    (rn : Z) (t : ast.Token) :
  prevSym l = Some p -> comments l = c :: rest ->
  rn <> "."%rune ->
  startLine (info l) t > endLine (info l) (ast.Token_of p) ->
  startLine (info l) c - endLine (info l) (ast.Token_of p) <= 1 ->
  exists l' more leading,
    setPrevAndAddComments (ast.RuneNode rn t) l = Ok tt l'
    /\ c :: rest = (c :: more) ++ leading
    /\ ast.comments (info l')
       = ast.comments (info l) ++ attach (ast.Token_of p) (c :: more)
         ++ attach t leading.
Proof.
  intros Hp Hc Hrn Hn Hcs.
  destruct (setPrevAndAddComments_split (ast.RuneNode rn t) l)
    as (l' & Hrun & Happ & Hatt).
  rewrite Hp, Hc in *. cbn [attachPrev ast.Token_of] in *.
  assert (Hsplit : splitComments l (ast.RuneNode rn t)
                   = (firstn (Z.to_nat (firstGroup l p c rest)) (c :: rest),
                      skipn (Z.to_nat (firstGroup l p c rest)) (c :: rest))).
  { unfold splitComments. rewrite Hp, Hc.
    unfold ast.NodeInfo_of. cbn [ast.Token_of].
    fold (startLine (info l) c). fold (endLine (info l) c).
    fold (startLine (info l) t). fold (endLine (info l) (ast.Token_of p)).
    destruct ((startLine (info l) t >? endLine (info l) (ast.Token_of p))
              && (startLine (info l) c - endLine (info l) (ast.Token_of p) <=? 1))
      eqn:E; [|lia].
    cbv zeta.
    destruct (rn =? 46) eqn:Er; [lia|]. cbn [negb orb].
    unfold firstGroup.
    destruct (startLine (info l) c =? endLine (info l) (ast.Token_of p));
      [reflexivity|].
    destruct (strings.HasPrefix _ _); reflexivity. }
  rewrite Hsplit in *. cbn [fst snd] in *.
  pose proof (firstGroup_bounds l p c rest) as Hb.
  destruct (Z.to_nat (firstGroup l p c rest)) as [|k] eqn:Hk; [lia|].
  cbn [firstn skipn] in *.
  exists l', (firstn k rest), (skipn k rest).
  split; [exact Hrun|]. split; [exact Happ|exact Hatt].
Qed.

(** The state of the lexer on the source [a //x], a newline and [;], when
    the token of the [;] has been made and its comments are not yet
    attached: [a] is token 0, the comment token 1, the [;] token 2, on the
    second line. *)
Definition beforeSemicolon : protoLex :=
  {| input := {| data := bytes_of_string "a //x" ++ [10] ++ bytes_of_string ";";
                 pos := 7; err := None; mark := 6 |};
     info := {| ast.name := "test.proto";
                ast.data := bytes_of_string "a //x" ++ [10] ++ bytes_of_string ";";
                ast.lines := [0; 6];
                ast.tokens := [(0, 1); (2, 4); (6, 1)];
                ast.comments := [] |};
     handler := reporter.NewHandler keepGoing;
     prevSym := Some (ast.IdentNode (bytes_of_string "a") 0);
     prevOffset := 6; eof := 0; comments := [1] |}.

Lemma X19_punctuation_gives_comment_back_witness :
  (exists l' more leading,
      setPrevAndAddComments (ast.RuneNode ";"%rune 2) beforeSemicolon = Ok tt l'
      /\ [1] = (1 :: more) ++ leading
      /\ ast.comments (info l')
         = ast.comments (info beforeSemicolon) ++ attach 0 (1 :: more)
           ++ attach 2 leading)
  /\ total (LexN 2)
       (lexerOn (bytes_of_string "a //x" ++ [10] ++ bytes_of_string ";"))
       (fun rs l' => map fst rs = [_NAME; TK ";"%rune]
                     /\ ast.comments (info l') = [(1, 0)]).
Proof.
  split; [|vm_compute; split; reflexivity].
  apply (X19_punctuation_gives_comment_back beforeSemicolon
           (ast.IdentNode (bytes_of_string "a") 0) 1 [] ";"%rune 2).
  - reflexivity.
  - reflexivity.
  - discriminate.
  - vm_compute. reflexivity.
  - vm_compute. discriminate.
Defined.







(** ** What a round of [Lex] keeps: lines, tokens and errors *)

(** Line starts [new] recorded over the bytes of [d] from [lo] to [hi]:
    each is the offset after a newline, they increase, the first is after
    [lo] and the last is not after [hi]. *)
Fixpoint linesFrom (d : list Z) (lo : Z) (new : list Z) (hi : Z) : Prop :=
  match new with
  | [] => lo <= hi
  | off :: rest =>
    lo < off /\ nth (Z.to_nat (off - 1)) d 0 = 10 /\ linesFrom d off rest hi
  end.

Lemma linesFrom_le d lo new hi : linesFrom d lo new hi -> lo <= hi.
Proof.
  revert lo. induction new as [|off rest IH]; intros lo; cbn [linesFrom];
    [trivial|].
  intros (H1 & _ & H2). specialize (IH _ H2). lia.
Qed.

Lemma linesFrom_weaken d lo new hi hi' :
  linesFrom d lo new hi -> hi <= hi' -> linesFrom d lo new hi'.
Proof.
  revert lo. induction new as [|off rest IH]; intros lo; cbn [linesFrom];
    [lia|].
  intros (H1 & H2 & H3) Hh. repeat split; try assumption. now apply IH.
Qed.

Lemma linesFrom_app d lo a mid b hi :
  linesFrom d lo a mid -> linesFrom d mid b hi -> linesFrom d lo (a ++ b) hi.
Proof.
  revert lo. induction a as [|off rest IH]; intros lo; cbn [linesFrom app].
  - intros Hl Hb. destruct b as [|x b]; cbn [linesFrom] in *; [lia|].
    destruct Hb as (H1 & H2 & H3). repeat split; try assumption; lia.
  - intros (H1 & H2 & H3) Hb. repeat split; try assumption. now apply IH.
Qed.

Lemma linesFrom_one d lo off hi :
  lo < off -> nth (Z.to_nat (off - 1)) d 0 = 10 -> off <= hi ->
  linesFrom d lo [off] hi.
Proof. cbn [linesFrom]. auto. Qed.

(** From [l] to [l'] the source is the same and the previous offset is
    kept; the reader has moved on over the same data with the same mark;
    and the lines added are line starts of the bytes passed. *)
Definition framed (l l' : protoLex) : Prop :=
  adv (input l) (input l')
  /\ ast.data (info l') = ast.data (info l)
  /\ ast.tokens (info l') = ast.tokens (info l)
  /\ prevOffset l' = prevOffset l
  /\ exists new,
       ast.lines (info l') = ast.lines (info l) ++ new
       /\ linesFrom (data (input l)) (pos (input l)) new (pos (input l')).

Lemma framed_refl l : wf (input l) -> framed l l.
Proof.
  intros Hwf. split; [apply adv_refl, Hwf|]. repeat split.
  exists []. split; [now rewrite app_nil_r|]. cbn. lia.
Qed.

Lemma framed_trans a b c : framed a b -> framed b c -> framed a c.
Proof.
  intros (Ha & Hd & Ht & Hp & na & Hla & Hna)
         (Hb & Hd' & Ht' & Hp' & nb & Hlb & Hnb).
  split; [eapply adv_trans; eassumption|].
  split; [congruence|]. split; [congruence|]. split; [congruence|].
  exists (na ++ nb). split; [rewrite Hlb, Hla; now rewrite app_assoc|].
  destruct Ha as (Hda & _). rewrite Hda in Hnb.
  eapply linesFrom_app; eassumption.
Qed.

(** [setError] as an equation: the error is positioned at the previous
    offset, handed to the handler, and set in [lval]. *)
Definition positioned (l : protoLex) (e : error) : reporter.ErrorWithPos :=
  reporter.Error (ast.SourcePos_of (info l) (prevOffset l)) e.

Lemma setError_eq lval e l :
  setError lval e l
  = Ok {| sym_s := sym_s lval; sym_id := sym_id lval; sym_i := sym_i lval;
          sym_f := sym_f lval; sym_b := sym_b lval;
          sym_err := Some (positioned l e) |}
       (set_handler l (snd (reporter.HandleError (handler l) (positioned l e)))).
Proof.
  unfold setError, addSourceError, bind, get, put, ret, positioned, prev.
  destruct (reporter.HandleError _ _) as [x h]. reflexivity.
Qed.

Lemma setError_exact lval e l (Q : protoSymType -> protoLex -> Prop) :
  Q {| sym_s := sym_s lval; sym_id := sym_id lval; sym_i := sym_i lval;
       sym_f := sym_f lval; sym_b := sym_b lval;
       sym_err := Some (positioned l e) |}
    (set_handler l (snd (reporter.HandleError (handler l) (positioned l e)))) ->
  total (setError lval e) l Q.
Proof. intros H. unfold total. now rewrite setError_eq. Qed.

(** What a scan that may report an error leaves of the handler and of
    [lval]: they are as they were, or the error was positioned, handed to
    the handler and set. *)
Definition reported (lval : protoSymType) (l : protoLex) (hasErr : bool)
    (lv : protoSymType) (l' : protoLex) : Prop :=
  if hasErr then
    exists e,
      lv = {| sym_s := sym_s lval; sym_id := sym_id lval; sym_i := sym_i lval;
              sym_f := sym_f lval; sym_b := sym_b lval;
              sym_err := Some (positioned l' e) |}
      /\ handler l'
         = snd (reporter.HandleError (handler l) (positioned l' e))
  else lv = lval /\ handler l' = handler l.

Lemma skipToEndOfLineComment_frame lval l :
  wf (input l) ->
  total (skipToEndOfLineComment lval) l
    (fun r l' => framed l l' /\ reported lval l (snd r) (fst r) l').
Proof.
  intros Hwf. unfold skipToEndOfLineComment. apply total_bind, total_get.
  apply (total_loop _
           (fun _ s =>
              adv (input l) (input s)
              /\ info s = info l /\ prevOffset s = prevOffset l
              /\ handler s = handler l)
           (fun s => remaining (input s)));
    [ | split; [apply adv_refl, Hwf|repeat split]
      | apply remaining_fuel, Hwf ].
  intros [] s (Ha & Hi & Hpo & Hh).
  assert (Hwfs : wf (input s)) by (eapply adv_wf; eassumption).
  assert (Hd : data (input s) = data (input l)) by apply Ha.
  apply total_bind, total_on_input.
  eapply total_weaken; [apply readRune_spec, Hwfs|].
  intros [[c sz] e] s1 Hrd. cbv beta iota.
  pose proof (readRune_adv _ _ _ _ _ Hwfs Hrd) as Ha1.
  pose proof (adv_trans _ _ _ Ha Ha1) as Ha2.
  assert (Hfr : framed l (set_input s s1)).
  { split; [exact Ha2|]. lx_simpl. rewrite Hi. repeat split; try assumption.
    exists []. split; [now rewrite app_nil_r|]. cbn. apply Ha2. }
  destruct e as [e|].
  { apply total_ret. cbn [fst snd reported]. lx_simpl.
    split; [exact Hfr|]. split; [reflexivity|exact Hh]. }
  destruct (c =? 10) eqn:Hc10.
  { apply Z.eqb_eq in Hc10. subst c.
    destruct (readRune_ascii_inv _ _ _ _ Hwfs Hrd ltac:(lia)) as [Hp Hb].
    repeat lx_step. cbn [fst snd reported]. lx_simpl.
    split; [|split; [reflexivity|exact Hh]].
    split; [exact Ha2|]. lx_simpl. rewrite Hi.
    repeat split; try assumption.
    exists [pos s1]. split; [reflexivity|].
    apply linesFrom_one; [destruct Ha as (_ & _ & Hx & _); lia| |lia].
    rewrite Hp. replace (pos (input s) + 1 - 1) with (pos (input s)) by lia.
    rewrite <- Hd. exact Hb. }
  destruct (c =? 0) eqn:Hc0.
  { apply total_bind, setError_exact. apply total_ret.
    cbn [fst snd reported]. lx_simpl.
    split.
    - destruct Hfr as (F1 & F2 & F3 & F4 & F5). split; [exact F1|]. lx_simpl.
      repeat split; assumption.
    - eexists. unfold positioned. lx_simpl. rewrite Hh. split; reflexivity. }
  apply total_ret. lx_simpl.
  split; [|rr_lia].
  split; [exact Ha2|]. repeat split; assumption.
Qed.

Lemma skipToEndOfBlockComment_frame lval l :
  wf (input l) ->
  total (skipToEndOfBlockComment lval) l
    (fun r l' => framed l l' /\ reported lval l (snd r) (fst (fst r)) l').
Proof.
  intros Hwf. unfold skipToEndOfBlockComment. apply total_bind, total_get.
  apply (total_loop _
           (fun _ s => framed l s /\ handler s = handler l)
           (fun s => remaining (input s)));
    [ | split; [apply framed_refl, Hwf|reflexivity]
      | apply remaining_fuel, Hwf ].
  intros [] s (Hfr & Hh).
  assert (Ha : adv (input l) (input s)) by apply Hfr.
  assert (Hwfs : wf (input s)) by (eapply adv_wf; eassumption).
  assert (Hd : data (input s) = data (input l)) by apply Ha.
  apply total_bind, total_on_input.
  eapply total_weaken; [apply readRune_spec, Hwfs|].
  intros [[c sz] e] s1 Hrd. cbv beta iota.
  pose proof (readRune_adv _ _ _ _ _ Hwfs Hrd) as Ha1.
  pose proof (adv_wf _ _ Hwfs Ha1) as Hwf1.
  assert (Hstep : forall s', adv (input s) s' ->
                             framed l (set_input s s')).
  { intros s' Ha'. eapply framed_trans; [exact Hfr|].
    split; [exact Ha'|]. lx_simpl. repeat split.
    exists []. split; [now rewrite app_nil_r|]. cbn. apply Ha'. }
  destruct e as [e|].
  { apply total_ret. cbn [fst snd reported]. split; [now apply Hstep|].
    lx_simpl. split; [reflexivity|exact Hh]. }
  destruct (c =? 0) eqn:Hc0.
  { apply total_bind, setError_exact. apply total_ret.
    cbn [fst snd reported]. split.
    - destruct (Hstep s1 Ha1) as (F1 & F2 & F3 & F4 & F5).
      split; [exact F1|]. lx_simpl. repeat split; assumption.
    - eexists. unfold positioned. lx_simpl. rewrite Hh. split; reflexivity. }
  (* the state after [maybeNewLine] *)
  apply total_bind.
  apply (total_weaken _ _
           (fun _ l1 => input l1 = s1 /\ framed l l1 /\ handler l1 = handler l)).
  { unfold maybeNewLine. destruct (c =? 10) eqn:Hc10.
    - apply Z.eqb_eq in Hc10. subst c.
      destruct (readRune_ascii_inv _ _ _ _ Hwfs Hrd ltac:(lia)) as [Hp Hb].
      repeat lx_step. split; [reflexivity|]. split; [|exact Hh].
      eapply framed_trans; [exact Hfr|].
      split; [exact Ha1|]. lx_simpl. repeat split.
      exists [pos s1]. split; [reflexivity|].
      apply linesFrom_one; [lia| |lia].
      rewrite Hp. replace (pos (input s) + 1 - 1) with (pos (input s)) by lia.
      exact Hb.
    - apply total_ret. lx_simpl. split; [reflexivity|].
      split; [now apply Hstep|exact Hh]. }
  intros [] l1 (Hin1 & Hfr1 & Hh1). cbv beta.
  assert (Hstep1 : forall s', adv s1 s' -> framed l (set_input l1 s')).
  { intros s' Ha'. eapply framed_trans; [exact Hfr1|].
    rewrite <- Hin1 in Ha'.
    split; [exact Ha'|]. lx_simpl. repeat split.
    exists []. split; [now rewrite app_nil_r|]. cbn. apply Ha'. }
  destruct (c =? 42) eqn:Hc42.
  - apply total_bind, total_on_input. rewrite Hin1.
    eapply total_weaken; [apply readRune_spec, Hwf1|].
    intros [[c2 sz2] e2] s2 Hrd2. cbv beta iota.
    pose proof (readRune_adv _ _ _ _ _ Hwf1 Hrd2) as Ha2.
    destruct e2 as [e2|].
    { apply total_ret. cbn [fst snd reported]. split; [now apply Hstep1|].
      lx_simpl. split; [reflexivity|exact Hh1]. }
    destruct (c2 =? 47) eqn:Hc47.
    + apply total_ret. cbn [fst snd reported]. split; [now apply Hstep1|].
      lx_simpl. split; [reflexivity|exact Hh1].
    + apply total_bind, total_on_input. apply unreadRune_total; [rr_lia|].
      intros s3 Hd3 Hm3 Hp3 He3. apply total_ret. lx_simpl.
      assert (Ha3 : adv s1 s3) by rr_lia.
      split; [split; [now apply Hstep1|exact Hh1]|].
      rewrite <- Hin1 in Ha3. rr_lia.
  - apply total_ret. split; [split; [exact Hfr1|exact Hh1]|].
    rewrite Hin1. rr_lia.
Qed.


(** The lines, the data and the previous offset are the same in [l] and
    [l']. *)
Definition keptInfo (l l' : protoLex) : Prop :=
  ast.lines (info l') = ast.lines (info l)
  /\ ast.data (info l') = ast.data (info l)
  /\ prevOffset l' = prevOffset l.

(** Emitting a terminal keeps the lines, the data and the previous
    offset. *)
Lemma emit_keeps {A} (mk : ast.Token -> ast.TerminalNode)
    (k : ast.TerminalNode -> A) (l : protoLex) :
  total (t <- newToken ;; setPrevAndAddComments (mk t) ;; ret (k (mk t))) l
    (fun _ l' => keptInfo l l').
Proof.
  apply total_bind. unfold newToken.
  apply total_bind, total_get. cbn [ast.AddToken].
  apply total_bind, total_put, total_ret.
  match goal with |- total _ ?s _ => set (l1 := s) end.
  apply total_bind. unfold total at 1.
  rewrite (setPrevAndAddComments_eq _ l1).
  apply total_ret. unfold keptInfo. cbn [info prevOffset].
  rewrite addComments_lines, addComments_data.
  subst l1. cbn [prevSym set_info info prevOffset].
  destruct (prevSym l); [rewrite addComments_lines, addComments_data|];
    repeat split.
Qed.

Lemma emit_both {A} (mk : ast.Token -> ast.TerminalNode) (k : ast.TerminalNode -> A)
    (l : protoLex) (Q : A -> protoLex -> Prop) :
  (forall t, ast.Token_of (mk t) = t) ->
  (forall l', emitted l (mk (len (ast.tokens (info l)))) l' -> keptInfo l l' ->
              Q (k (mk (len (ast.tokens (info l))))) l') ->
  total (t <- newToken ;; setPrevAndAddComments (mk t) ;; ret (k (mk t))) l Q.
Proof.
  intros Hmk HQ.
  eapply total_weaken.
  { apply total_and; [|apply (emit_keeps mk k l)].
    apply (emit_total mk k l
             (fun a l' => a = k (mk (len (ast.tokens (info l))))
                          /\ emitted l (mk (len (ast.tokens (info l)))) l'));
      [exact Hmk|]. intros l' H. split; [reflexivity|exact H]. }
  intros a l' [[-> Hem] Hk]. now apply HQ.
Qed.

(** The facts of an emitted terminal that a round of [Lex] needs. *)
Definition emitted' (l : protoLex) (l' : protoLex) : Prop :=
  ast.tokens (info l')
  = ast.tokens (info l) ++ [(mark (input l), pos (input l) - mark (input l))]
  /\ handler l' = handler l /\ input l' = input l /\ keptInfo l l'.

Lemma emitted_emitted' l n l' : emitted l n l' -> keptInfo l l' -> emitted' l l'.
Proof.
  intros (tr & le & _ & Ht & _ & _ & _ & _ & Hh & Hin & _) Hk.
  repeat split; try assumption; apply Hk.
Qed.

Lemma setRune_frame lval val l (Q : protoSymType -> protoLex -> Prop) :
  (forall lv l', emitted' l l' -> Q lv l') -> total (setRune lval val) l Q.
Proof.
  intros H. unfold setRune.
  apply (emit_both (ast.RuneNode val)
           (fun n => {| sym_s := sym_s lval; sym_id := sym_id lval;
                        sym_i := sym_i lval; sym_f := sym_f lval;
                        sym_b := Some n; sym_err := sym_err lval |}));
    [reflexivity|]. intros l' He Hk. apply H. eapply emitted_emitted'; eassumption.
Qed.

Lemma setIdent_frame lval val l (Q : protoSymType -> protoLex -> Prop) :
  (forall lv l', emitted' l l' -> Q lv l') -> total (setIdent lval val) l Q.
Proof.
  intros H. unfold setIdent.
  apply (emit_both (ast.IdentNode val)
           (fun n => {| sym_s := sym_s lval; sym_id := Some n;
                        sym_i := sym_i lval; sym_f := sym_f lval;
                        sym_b := sym_b lval; sym_err := sym_err lval |}));
    [reflexivity|]. intros l' He Hk. apply H. eapply emitted_emitted'; eassumption.
Qed.

Lemma setInt_frame lval val l (Q : protoSymType -> protoLex -> Prop) :
  (forall lv l', emitted' l l' -> Q lv l') -> total (setInt lval val) l Q.
Proof.
  intros H. unfold setInt.
  apply (emit_both (ast.UintLiteralNode val)
           (fun n => {| sym_s := sym_s lval; sym_id := sym_id lval;
                        sym_i := Some n; sym_f := sym_f lval;
                        sym_b := sym_b lval; sym_err := sym_err lval |}));
    [reflexivity|]. intros l' He Hk. apply H. eapply emitted_emitted'; eassumption.
Qed.

Lemma setFloat_frame lval val l (Q : protoSymType -> protoLex -> Prop) :
  (forall lv l', emitted' l l' -> Q lv l') -> total (setFloat lval val) l Q.
Proof.
  intros H. unfold setFloat.
  apply (emit_both (ast.FloatLiteralNode val)
           (fun n => {| sym_s := sym_s lval; sym_id := sym_id lval;
                        sym_i := sym_i lval; sym_f := Some n;
                        sym_b := sym_b lval; sym_err := sym_err lval |}));
    [reflexivity|]. intros l' He Hk. apply H. eapply emitted_emitted'; eassumption.
Qed.

Lemma setString_frame lval val l (Q : protoSymType -> protoLex -> Prop) :
  (forall lv l', emitted' l l' -> Q lv l') -> total (setString lval val) l Q.
Proof.
  intros H. unfold setString.
  apply (emit_both (ast.StringLiteralNode val)
           (fun n => {| sym_s := Some n; sym_id := sym_id lval;
                        sym_i := sym_i lval; sym_f := sym_f lval;
                        sym_b := sym_b lval; sym_err := sym_err lval |}));
    [reflexivity|]. intros l' He Hk. apply H. eapply emitted_emitted'; eassumption.
Qed.

(** What a round of [Lex] keeps.  The round marks the position it starts
    at, [p], as the mark and as the previous offset, and moves the reader
    on over the same data.  The lines it adds are line starts of the bytes
    it passes.  It adds at most one token, which spans what it passed,
    from [p] to the position it ends at.  When it returns an error, it has
    positioned the error at [p], handed it to the handler and set it in
    [lval]; otherwise the handler is as it was. *)
Definition Lex_body_frame (l : protoLex) (r : unit + symbol * protoSymType)
    (l' : protoLex) : Prop :=
  let d := data (input l) in
  let p := pos (input l) in
  let p' := pos (input l') in
  data (input l') = d /\ mark (input l') = p /\ p <= p' <= len d
  /\ ast.data (info l') = ast.data (info l)
  /\ prevOffset l' = p
  /\ (exists new,
         ast.lines (info l') = ast.lines (info l) ++ new
         /\ linesFrom d p new p')
  /\ (ast.tokens (info l') = ast.tokens (info l)
      \/ ast.tokens (info l') = ast.tokens (info l) ++ [(p, p' - p)])
  /\ match r with
     | inr (_ERROR, lv) =>
       exists e,
         sym_err lv = Some (positioned l' e)
         /\ handler l'
            = snd (reporter.HandleError (handler l) (positioned l' e))
     | _ => handler l' = handler l
     end.

(** Calls of the functions of the lexer, with what they keep. *)
Ltac fr_call :=
  lazymatch goal with
  | Hw : wf ?s |- total readNumber ?s _ =>
    let s' := fresh "s" in
    let Ha := fresh "Ha" in
    let Hw' := fresh "Hwf" in
    eapply total_weaken; [apply (readNumber_spec s Hw)|];
    intros [] s' Ha; pose proof (adv_wf _ _ Hw Ha) as Hw'
  | Hw : wf ?s |- total readIdentifier ?s _ =>
    let s' := fresh "s" in
    let Ha := fresh "Ha" in
    let Hw' := fresh "Hwf" in
    eapply total_weaken; [apply (readIdentifier_spec s Hw)|];
    intros [] s' Ha; pose proof (adv_wf _ _ Hw Ha) as Hw'
  | Hw : wf ?s |- total (readStringLiteral ?q) ?s _ =>
    let s' := fresh "s" in
    let Ha := fresh "Ha" in
    let Hn := fresh "Hn" in
    let Hw' := fresh "Hwf" in
    let str := fresh "str" in
    let e := fresh "e" in
    eapply total_weaken; [apply (readStringLiteral_spec q s Hw); lia|];
    intros [str e] s' [Ha Hn]; pose proof (adv_wf _ _ Hw Ha) as Hw'
  | |- total (setRune _ _) _ _ =>
    let lv := fresh "lv" in
    let l' := fresh "l" in
    let He := fresh "Hem" in
    apply setRune_frame; intros lv l' He
  | |- total (setIdent _ _) _ _ =>
    let lv := fresh "lv" in
    let l' := fresh "l" in
    let He := fresh "Hem" in
    apply setIdent_frame; intros lv l' He
  | |- total (setInt _ _) _ _ =>
    let lv := fresh "lv" in
    let l' := fresh "l" in
    let He := fresh "Hem" in
    apply setInt_frame; intros lv l' He
  | |- total (setFloat _ _) _ _ =>
    let lv := fresh "lv" in
    let l' := fresh "l" in
    let He := fresh "Hem" in
    apply setFloat_frame; intros lv l' He
  | |- total (setString _ _) _ _ =>
    let lv := fresh "lv" in
    let l' := fresh "l" in
    let He := fresh "Hem" in
    apply setString_frame; intros lv l' He
  | |- total (setError _ _) _ _ => apply setError_exact
  | |- total (skipToEndOfLineComment ?lv) ?s _ =>
    let lv' := fresh "lv" in
    let hasErr := fresh "hasErr" in
    let s' := fresh "l" in
    let Hfr := fresh "Hfr" in
    let Hr := fresh "Hr" in
    let Hw' := fresh "Hwf" in
    eapply total_weaken;
    [apply (skipToEndOfLineComment_frame lv s); lx_simpl; assumption|];
    intros [lv' hasErr] s' [Hfr Hr];
    assert (Hw' : wf (input s'))
      by (eapply adv_wf; [|apply Hfr]; lx_simpl; assumption);
    cbn [fst snd] in Hr
  | |- total (skipToEndOfBlockComment ?lv) ?s _ =>
    let lv' := fresh "lv" in
    let ok := fresh "ok" in
    let hasErr := fresh "hasErr" in
    let s' := fresh "l" in
    let Hfr := fresh "Hfr" in
    let Hr := fresh "Hr" in
    let Hw' := fresh "Hwf" in
    eapply total_weaken;
    [apply (skipToEndOfBlockComment_frame lv s); lx_simpl; assumption|];
    intros [[lv' ok] hasErr] s' [Hfr Hr];
    assert (Hw' : wf (input s'))
      by (eapply adv_wf; [|apply Hfr]; lx_simpl; assumption);
    cbn [fst snd] in Hr
  | |- total newToken _ _ => unfold newToken; cbn [ast.AddToken]
  | |- total (emitNumber _ ?t) _ _ => unfold emitNumber; destruct t
  | |- total (lexRune _ _) _ _ => unfold lexRune
  | |- total (match ?e with io_EOF => _ | _ => _ end) _ _ => destruct e
  end.

Lemma linesFrom_lower d lo lo' new hi :
  linesFrom d lo new hi -> lo' <= lo -> linesFrom d lo' new hi.
Proof.
  destruct new as [|off rest]; cbn [linesFrom]; [lia|].
  intros (H1 & H2 & H3) Hl. repeat split; try assumption. lia.
Qed.

(** The facts at the end of a branch of the round, taken apart. *)
Ltac fr_prep :=
  unfold Lex_body_frame, positioned, emitted', keptInfo, framed, reported in *;
  lx_simpl;
  repeat match goal with
         | H : _ /\ _ |- _ => destruct H
         | H : exists _, _ |- _ => destruct H
         end;
  repeat match goal with
         | H : input ?x = _ |- _ => rewrite H in *; clear H
         end;
  lx_simpl;
  subst;
  unfold positioned in *; lx_simpl; cbn [sym_err].

Ltac fr_lines :=
  first
    [ exists []; split; [now rewrite app_nil_r|]; cbn [linesFrom]; rr_lia
    | eexists; split; [eassumption|];
      match goal with
      | H : linesFrom _ _ _ _ |- _ =>
        eapply linesFrom_lower;
        [eapply linesFrom_weaken; [rr_norm; exact H|rr_lia]|rr_lia]
      end ].

Ltac fr_close :=
  split; [rr_lia|];
  split; [rr_lia|];
  split; [rr_lia|];
  split; [congruence|];
  split; [first [reflexivity | congruence | rr_lia]|];
  split; [fr_lines|];
  split;
  [ first [ left; first [reflexivity | congruence]
          | right;
            repeat match goal with
                   | H : ast.tokens (info ?x) = _
                     |- context [ast.tokens (info ?x)] => rewrite H
                   end;
            rr_norm; do 3 f_equal; lia ]
  | first [ reflexivity | congruence
          | eexists; split; reflexivity
          | eexists; split; [reflexivity|congruence] ] ].

Lemma Lex_body_frame_spec lval l :
  wf (input l) -> total (Lex_body lval tt) l (Lex_body_frame l).
Proof.
  intros Hwf. unfold Lex_body.
  repeat lx_step.
  set (m0 := {| data := data (input l); pos := pos (input l);
                err := err (input l); mark := pos (input l) |}).
  assert (Hwf0 : wf m0) by (unfold wf in *; simpl; lia).
  assert (Hd0 : data m0 = data (input l)) by reflexivity.
  assert (Hp0 : pos m0 = pos (input l)) by reflexivity.
  assert (Hm0 : mark m0 = pos (input l)) by reflexivity.
  clearbody m0.
  repeat first [ lx_step | fr_call ].
  all: fr_prep.
  all: try (fr_close; fail).
  - (* a newline: the start of a line *)
    apply Z.eqb_eq in Heqb0. subst c.
    destruct (readRune_ascii_inv _ _ _ _ Hwf0 Hrd ltac:(lia)) as [Hp Hb].
    split; [rr_lia|]. split; [rr_lia|]. split; [rr_lia|].
    split; [reflexivity|]. split; [exact Hp0|].
    split; [|split; [now left|reflexivity]].
    exists [pos s]. split; [reflexivity|].
    apply linesFrom_one; [lia| |lia].
    rewrite Hp. replace (pos m0 + 1 - 1) with (pos m0) by lia.
    rewrite <- Hd0. exact Hb.
  - (* a keyword is no error *)
    match goal with
    | H : keyword_lookup keywords _ = Some _ |- _ =>
      apply keyword_lookup_kind in H; destruct H as [Hk _]
    end.
    destruct s1; try (now elim Hk); fr_close.
Qed.



(** ** What a call of [Lex] keeps *)

(** Tokens [spans] made over the bytes from [lo] to [hi], in the order of
    the source: each begins where the one before ends or after it, none
    has a negative length, and the last ends at [hi] or before. *)
Fixpoint tokensFrom (lo : Z) (spans : list (Z * Z)) (hi : Z) : Prop :=
  match spans with
  | [] => lo <= hi
  | (off, n) :: rest => lo <= off /\ 0 <= n /\ tokensFrom (off + n) rest hi
  end.

Lemma tokensFrom_weaken lo spans hi hi' :
  tokensFrom lo spans hi -> hi <= hi' -> tokensFrom lo spans hi'.
Proof.
  revert lo. induction spans as [|[off n] rest IH]; intros lo;
    cbn [tokensFrom]; [lia|].
  intros (H1 & H2 & H3) Hh. repeat split; try assumption. now apply IH.
Qed.

Lemma tokensFrom_app lo a mid b hi :
  tokensFrom lo a mid -> tokensFrom mid b hi -> tokensFrom lo (a ++ b) hi.
Proof.
  revert lo. induction a as [|[off n] rest IH]; intros lo;
    cbn [tokensFrom app].
  - intros Hl Hb. destruct b as [|[x m] b]; cbn [tokensFrom] in *; [lia|].
    destruct Hb as (H1 & H2 & H3). repeat split; try assumption; lia.
  - intros (H1 & H2 & H3) Hb. repeat split; try assumption. now apply IH.
Qed.

(** What a call of [Lex] keeps, when the handler has not failed: the
    reader moves on over the same data; the lines added are line starts
    of the bytes passed; the tokens added lie in the bytes passed, in the
    order of the source; the previous offset is where the last round
    began; and the handler is as it was unless an error is returned, which
    was positioned at the previous offset and handed to the handler. *)
Definition Lex_frame (l : protoLex) (r : symbol * protoSymType)
    (l' : protoLex) : Prop :=
  let d := data (input l) in
  let p := pos (input l) in
  let p' := pos (input l') in
  wf (input l') /\ data (input l') = d
  /\ ast.data (info l') = ast.data (info l)
  /\ p <= prevOffset l' <= p'
  /\ (exists new,
         ast.lines (info l') = ast.lines (info l) ++ new
         /\ linesFrom d p new p')
  /\ (exists spans,
         ast.tokens (info l') = ast.tokens (info l) ++ spans
         /\ tokensFrom p spans p')
  /\ match fst r with
     | _ERROR =>
       exists e,
         sym_err (snd r) = Some (positioned l' e)
         /\ handler l'
            = snd (reporter.HandleError (handler l) (positioned l' e))
     | _ => handler l' = handler l
     end.

Lemma Lex_frame_spec lval l :
  wf (input l) -> reporter.ReporterError (handler l) = None ->
  total (Lex lval) l (Lex_frame l).
Proof.
  intros Hwf Hrep. unfold Lex. apply total_bind, total_get. rewrite Hrep.
  apply total_bind, total_put.
  apply (total_loop _
           (fun _ s =>
              wf (input s) /\ data (input s) = data (input l)
              /\ ast.data (info s) = ast.data (info l)
              /\ handler s = handler l
              /\ pos (input l) <= pos (input s)
              /\ (exists new,
                     ast.lines (info s) = ast.lines (info l) ++ new
                     /\ linesFrom (data (input l)) (pos (input l)) new
                          (pos (input s)))
              /\ (exists spans,
                     ast.tokens (info s) = ast.tokens (info l) ++ spans
                     /\ tokensFrom (pos (input l)) spans (pos (input s))))
           (fun s => remaining (input s))).
  - intros [] s (Hwfs & Hd & Had & Hh & Hpos & (new & Hl & Hnew)
                 & (spans & Ht & Hspans)).
    eapply total_weaken;
      [apply total_and;
       [apply (Lex_body_spec lval s Hwfs)|apply (Lex_body_frame_spec lval s Hwfs)]|].
    intros r s' [(Hwf' & _ & Hpost) Hfr].
    unfold Lex_body_frame in Hfr. cbv zeta in Hfr.
    destruct Hfr as (Fd & Fm & Fp & Fad & Fpo & (new' & Fl & Fnew) & Ftok & Fh).
    rewrite Hd in *.
    assert (Hlines : exists new0,
               ast.lines (info s') = ast.lines (info l) ++ new0
               /\ linesFrom (data (input l)) (pos (input l)) new0 (pos (input s'))).
    { exists (new ++ new'). split; [rewrite Fl, Hl; now rewrite app_assoc|].
      eapply linesFrom_app; eassumption. }
    assert (Htoks : exists spans0,
               ast.tokens (info s') = ast.tokens (info l) ++ spans0
               /\ tokensFrom (pos (input l)) spans0 (pos (input s'))).
    { destruct Ftok as [Ft|Ft].
      - exists spans. split; [congruence|].
        eapply tokensFrom_weaken; [exact Hspans|lia].
      - exists (spans ++ [(pos (input s), pos (input s') - pos (input s))]).
        split; [rewrite Ft, Ht; now rewrite app_assoc|].
        eapply tokensFrom_app; [exact Hspans|].
        cbn [tokensFrom]. lia. }
    destruct r as [[]|[k lv]].
    + destruct Hpost as (Hlt & _). split; [|exact Hlt].
      split; [exact Hwf'|]. split; [exact Fd|]. split; [congruence|].
      split; [congruence|]. split; [lia|]. split; assumption.
    + unfold Lex_frame. cbn [fst snd].
      split; [exact Hwf'|]. split; [exact Fd|]. split; [congruence|].
      split; [lia|]. split; [exact Hlines|]. split; [exact Htoks|].
      destruct k; try congruence.
      destruct Fh as (e & He1 & He2). exists e. split; [exact He1|congruence].
  - lx_simpl. split; [exact Hwf|]. repeat split; try lia.
    + exists []. split; [now rewrite app_nil_r|]. cbn. lia.
    + exists []. split; [now rewrite app_nil_r|]. cbn. lia.
  - apply remaining_fuel, Hwf.
Qed.


(** ** Invariants of the token table and of the lines *)

(** The tokens of [l] lie in the bytes its reader has passed, in the
    order of the source, without overlap. *)
Definition tokensOrdered (l : protoLex) : Prop :=
  tokensFrom 0 (ast.tokens (info l)) (pos (input l)).

(** The line starts of [l] are 0 and then, in increasing order, offsets
    after a newline among the bytes its reader has passed. *)
Definition linesOrdered (l : protoLex) : Prop :=
  exists rest,
    ast.lines (info l) = 0 :: rest
    /\ linesFrom (data (input l)) 0 rest (pos (input l)).

(** A call of [Lex] keeps both. *)
Lemma Lex_keeps_order lval l :
  wf (input l) -> tokensOrdered l -> linesOrdered l ->
  total (Lex lval) l
    (fun _ l' => wf (input l') /\ tokensOrdered l' /\ linesOrdered l').
Proof.
  intros Hwf Ht Hl.
  destruct (reporter.ReporterError (handler l)) as [e|] eqn:Hrep.
  { unfold Lex. apply total_bind, total_get. rewrite Hrep. apply total_ret.
    split; [exact Hwf|]. split; assumption. }
  eapply total_weaken; [apply (Lex_frame_spec lval l Hwf Hrep)|].
  intros r l' (Hwf' & Hd & _ & _ & (new & Hnew & Hlf) & (spans & Hsp & Htf) & _).
  split; [exact Hwf'|]. split.
  - unfold tokensOrdered in *. rewrite Hsp.
    eapply tokensFrom_app; eassumption.
  - destruct Hl as (rest & Hrest & Hrf). exists (rest ++ new).
    split; [rewrite Hnew, Hrest; reflexivity|].
    rewrite Hd. eapply linesFrom_app; eassumption.
Qed.

Lemma LexN_keeps_order n l :
  wf (input l) -> tokensOrdered l -> linesOrdered l ->
  total (LexN n) l
    (fun _ l' => wf (input l') /\ tokensOrdered l' /\ linesOrdered l').
Proof.
  revert l. induction n as [|n IH]; intros l Hwf Ht Hl; cbn [LexN].
  - apply total_ret. split; [exact Hwf|]. split; assumption.
  - apply total_bind.
    eapply total_weaken; [apply (Lex_keeps_order empty_sym l Hwf Ht Hl)|].
    intros r l1 (Hwf1 & Ht1 & Hl1). apply total_bind.
    eapply total_weaken; [apply (IH l1 Hwf1 Ht1 Hl1)|].
    intros rs l2 H. apply total_ret. exact H.
Qed.

Lemma newLexer_ordered src filename h :
  tokensOrdered (newLexer src filename h)
  /\ linesOrdered (newLexer src filename h).
Proof.
  unfold tokensOrdered, linesOrdered, newLexer.
  cbn [info input pos ast.tokens ast.lines ast.NewFileInfo tokensFrom].
  split; [lia|]. exists []. split; [reflexivity|]. cbn. lia.
Qed.

(** X21: the token table is in the order of the source.  After any
    number of calls of [Lex] on any source, the tokens of the table, the
    comments among them, lie one after the other without overlap: each
    begins where the one before ends or later, none has a negative length,
    and the last ends at the position of the reader or before, within the
    source. *)
Theorem X21_tokens_in_source_order (src : gostring) (filename : string)
    (h : reporter.Handler) (n : nat) :
  total (LexN n) (newLexer src filename h)
    (fun _ l' => tokensOrdered l'
                 /\ pos (input l') <= len (data (input l'))).
Proof.
  destruct (newLexer_ordered src filename h) as [Ht Hl].
  eapply total_weaken;
    [apply (LexN_keeps_order n _ (newLexer_wf src filename h) Ht Hl)|].
  intros rs l' (Hwf & Ht' & _). split; [exact Ht'|apply Hwf].
Qed.

(** X22: the line starts are those of the source.  After any number of
    calls of [Lex] on any source, the line starts recorded are 0 and then
    offsets in strictly increasing order, each the offset after a newline
    byte that the reader has passed. *)
Theorem X22_lines_follow_newlines (src : gostring) (filename : string)
    (h : reporter.Handler) (n : nat) :
  total (LexN n) (newLexer src filename h) (fun _ l' => linesOrdered l').
Proof.
  destruct (newLexer_ordered src filename h) as [Ht Hl].
  eapply total_weaken;
    [apply (LexN_keeps_order n _ (newLexer_wf src filename h) Ht Hl)|].
  intros rs l' (_ & _ & Hl'). exact Hl'.
Qed.

(** ** Errors and the handler *)

(** X23: an error is positioned where its token begins.  When [Lex]
    returns an error, the error set in [lval] is positioned at the
    previous offset, the offset at which the round that met the error
    began, which lies between the position before the call and the
    position after it; and that error is what was handed to the handler,
    once. *)
Theorem X23_error_position (lval : protoSymType) (l : protoLex) :
  wf (input l) -> reporter.ReporterError (handler l) = None ->
  total (Lex lval) l
    (fun r l' =>
       fst r = _ERROR ->
       exists e,
         sym_err (snd r)
         = Some (reporter.Error (ast.SourcePos_of (info l') (prevOffset l')) e)
         /\ pos (input l) <= prevOffset l' <= pos (input l')
         /\ handler l'
            = snd (reporter.HandleError (handler l)
                     (reporter.Error
                        (ast.SourcePos_of (info l') (prevOffset l')) e))).
Proof.
  intros Hwf Hrep.
  eapply total_weaken; [apply (Lex_frame_spec lval l Hwf Hrep)|].
  intros r l' (_ & _ & _ & Hpo & _ & _ & Hh) Hk. rewrite Hk in Hh.
  destruct Hh as (e & He & Hh). exists e. unfold positioned in *.
  split; [exact He|]. split; [exact Hpo|exact Hh].
Qed.

(** The lexer on [x] and a string literal that is not closed, after
    [x]. *)
Definition afterX : protoLex := lexerAfter 1 (bytes_of_string "x 'ab").

Lemma X23_error_position_witness :
  total (Lex empty_sym) afterX
    (fun r l' =>
       fst r = _ERROR ->
       exists e,
         sym_err (snd r)
         = Some (reporter.Error (ast.SourcePos_of (info l') (prevOffset l')) e)
         /\ pos (input afterX) <= prevOffset l' <= pos (input l')
         /\ handler l'
            = snd (reporter.HandleError (handler afterX)
                     (reporter.Error
                        (ast.SourcePos_of (info l') (prevOffset l')) e)))
  /\ total (Lex empty_sym) afterX
       (fun r l' =>
          fst r = _ERROR
          /\ sym_err (snd r)
             = Some (reporter.Error {| ast.Offset := 2; ast.Line := 1 |}
                       io_ErrUnexpectedEOF)
          /\ pos (input l') = 5).
Proof.
  split; [|vm_compute; repeat split; reflexivity].
  apply (X23_error_position empty_sym afterX).
  - unfold wf. vm_compute. repeat split; discriminate.
  - reflexivity.
Defined.

(** A handler that stops at every error: its policy accepts none. *)
Definition stops (h : reporter.Handler) : Prop :=
  forall ewp, reporter.report h ewp <> None.

(** A handler that goes on after every error. *)
Definition goesOn (h : reporter.Handler) : Prop :=
  forall ewp, reporter.report h ewp = None.

(** X24: with a handler that stops, the first error ends the lexing.
    When the policy of the handler accepts no error and [Lex] returns an
    error, the handler has failed, and every later call of [Lex] returns 0
    at once, without reading and without changing the lexer. *)
Theorem X24_handler_stops_the_lexer (lval : protoSymType) (l : protoLex) :
  wf (input l) -> reporter.ReporterError (handler l) = None ->
  stops (handler l) ->
  total (Lex lval) l
    (fun r l' =>
       fst r = _ERROR ->
       reporter.ReporterError (handler l') <> None
       /\ forall lval', Lex lval' l' = Ok (TK 0, lval') l').
Proof.
  intros Hwf Hrep Hstop.
  eapply total_weaken; [apply (Lex_frame_spec lval l Hwf Hrep)|].
  intros r l' (_ & _ & _ & _ & _ & _ & Hh) Hk. rewrite Hk in Hh.
  destruct Hh as (e & _ & Hh).
  assert (Hf : reporter.ReporterError (handler l') <> None).
  { rewrite Hh. unfold reporter.HandleError, reporter.ReporterError in *.
    rewrite Hrep. specialize (Hstop (positioned l' e)).
    destruct (reporter.report (handler l) (positioned l' e)); [|now elim Hstop].
    cbn. discriminate. }
  split; [exact Hf|]. intros lval'. unfold Lex, bind, get.
  destruct (reporter.ReporterError (handler l')); [reflexivity|now elim Hf].
Qed.

(** The lexer on [@ x] with a handler that stops at the first error. *)
Definition stoppingLexer : protoLex :=
  newLexer (bytes_of_string "@ x") "test.proto" (reporter.NewHandler stopAtFirst).

Lemma X24_handler_stops_the_lexer_witness :
  total (Lex empty_sym) stoppingLexer
    (fun r l' =>
       fst r = _ERROR ->
       reporter.ReporterError (handler l') <> None
       /\ forall lval', Lex lval' l' = Ok (TK 0, lval') l')
  /\ total (LexN 3) stoppingLexer
       (fun rs l' => map fst rs = [_ERROR; TK 0; TK 0]
                     /\ pos (input l') = 1
                     /\ ast.tokens (info l') = []).
Proof.
  split; [|vm_compute; repeat split; reflexivity].
  apply (X24_handler_stops_the_lexer empty_sym stoppingLexer).
  - unfold wf. vm_compute. repeat split; discriminate.
  - reflexivity.
  - intros ewp. discriminate.
Defined.

(** X25: with a handler that goes on, the lexer goes on.  When the
    policy of the handler accepts every error, no call of [Lex] makes the
    handler fail, whatever it returns: after an error the next call reads
    on from where the error left the reader. *)
Theorem X25_handler_goes_on (lval : protoSymType) (l : protoLex) :
  wf (input l) -> reporter.ReporterError (handler l) = None ->
  goesOn (handler l) ->
  total (Lex lval) l (fun _ l' => handler l' = handler l).
Proof.
  intros Hwf Hrep Hgo.
  eapply total_weaken; [apply (Lex_frame_spec lval l Hwf Hrep)|].
  intros r l' (_ & _ & _ & _ & _ & _ & Hh).
  destruct (fst r); try exact Hh.
  destruct Hh as (e & _ & Hh). rewrite Hh.
  unfold reporter.HandleError, reporter.ReporterError in *.
  rewrite Hrep, (Hgo (positioned l' e)). reflexivity.
Qed.

Lemma X25_handler_goes_on_witness :
  total (Lex empty_sym) (lexerOn (bytes_of_string "@ x"))
    (fun _ l' => handler l' = handler (lexerOn (bytes_of_string "@ x")))
  /\ total (LexN 3) (lexerOn (bytes_of_string "@ x"))
       (fun rs l' => map fst rs = [_ERROR; _NAME; TK 0]).
Proof.
  split; [|vm_compute; reflexivity].
  apply (X25_handler_goes_on empty_sym (lexerOn (bytes_of_string "@ x"))).
  - unfold wf. vm_compute. repeat split; discriminate.
  - reflexivity.
  - intros ewp. reflexivity.
Defined.


(** ** Underscores in numeric lexemes *)

Lemma ParseUint_loop_digits s base cutoff maxVal n v :
  strconv.ParseUint_loop s base cutoff maxVal n = (v, None) ->
  Forall (fun c => strconv.digitVal c <> None) s.
Proof.
  revert n. induction s as [|c s IH]; intros n; [constructor|].
  cbn [strconv.ParseUint_loop].
  destruct (strconv.digitVal c) as [d|] eqn:Hd; [|discriminate].
  destruct (d >=? base); [discriminate|].
  destruct (n >=? cutoff); [discriminate|].
  destruct (_ || _); [discriminate|].
  intros H. constructor; [rewrite Hd; discriminate|eapply IH, H].
Qed.

(** [ParseUint] accepts no string with an underscore. *)
Lemma ParseUint_underscore s base bitSize :
  In "_"%rune s -> exists v e, strconv.ParseUint s base bitSize = (v, Some e).
Proof.
  intros Hin. unfold strconv.ParseUint.
  destruct s as [|c s]; [contradiction|].
  destruct (strconv.ParseUint_loop _ _ _ _ _) as [n [k|]] eqn:E;
    [do 2 eexists; reflexivity|].
  apply ParseUint_loop_digits in E. rewrite Forall_forall in E.
  specialize (E _ Hin). now elim E.
Qed.

Lemma ContainsRune_underscore s :
  In "_"%rune s -> strings.ContainsRune s "_"%rune = true.
Proof.
  intros Hin. unfold strings.ContainsRune.
  change ((0 <=? "_"%rune) && ("_"%rune <? utf8.RuneSelf)) with true. cbv iota.
  apply existsb_exists. exists "_"%rune. split; [exact Hin|reflexivity].
Qed.

(** [parseFloat] on a lexeme with an underscore: a syntax error, whatever
    [strconv] would make of it. *)
Lemma parseFloat_underscore PF token :
  In "_"%rune token ->
  parseFloat PF token
  = (S754_zero false, Some (strconv_NumError "parseFloat" token ErrSyntax)).
Proof.
  intros Hin. unfold parseFloat. now rewrite ContainsRune_underscore.
Qed.

Lemma HasPrefix_two_rest token a b :
  strings.HasPrefix token [a; b] = true -> In "_"%rune token ->
  a <> "_"%rune -> b <> "_"%rune -> In "_"%rune (slice_from token 2).
Proof.
  intros Hp Hin Ha Hb. destruct token as [|x [|y t]]; cbn in Hp.
  - discriminate.
  - now rewrite andb_false_r in Hp.
  - apply andb_prop in Hp as [Hx Hy]. apply andb_prop in Hy as [Hy _].
    apply Z.eqb_eq in Hx, Hy. subst x y.
    change (slice_from (a :: b :: t) 2) with t.
    destruct Hin as [H|[H|H]]; [now elim Ha|now elim Hb|exact H].
Qed.

(** X26.  A numeric lexeme with an underscore is never a number.  At a
    digit, the branch of [Lex] for numbers gives an error in every case,
    hexadecimal, floating point, octal or decimal, and whatever
    [strconv.ParseFloat] would return for the lexeme; after a point the
    error is "invalid syntax in float value" with the lexeme. *)
Theorem X26_underscore_is_rejected PF token :
  In "_"%rune token ->
  (exists e, lexNumber PF token = BadNumber e)
  /\ lexDotNumber PF token
     = BadNumber (fmt_Errorf "invalid syntax in %s value: %s"
                    [ArgS (bytes_of_string "float"); ArgS token]).
Proof.
  intros Hin. split.
  - unfold lexNumber.
    destruct (_ || _) eqn:Hhex.
    { destruct (strconv.ParseUint (slice_from token 2) 16 64) as [v [e|]] eqn:E;
        [eexists; reflexivity|].
      exfalso.
      assert (Hin2 : In "_"%rune (slice_from token 2)).
      { apply orb_prop in Hhex as [H|H];
          (eapply HasPrefix_two_rest; [exact H|exact Hin|discriminate|discriminate]). }
      destruct (ParseUint_underscore _ 16 64 Hin2) as (v' & e' & E').
      congruence. }
    rewrite parseFloat_underscore by exact Hin.
    destruct (strings.Contains token _ || _ || _); [eexists; reflexivity|].
    cbv zeta.
    destruct (ParseUint_underscore token
                (if nth 0 token 0 =? "0"%rune then 8 else 10) 64 Hin)
      as (v & e & E).
    rewrite E.
    destruct e as [| | | |fn num [|]]; eexists; reflexivity.
  - unfold lexDotNumber. rewrite parseFloat_underscore by exact Hin. reflexivity.
Qed.

Lemma X26_underscore_is_rejected_witness :
  In "_"%rune (bytes_of_string "1_000")
  /\ ((exists e, lexNumber atof.ParseFloat (bytes_of_string "1_000") = BadNumber e)
      /\ lexDotNumber atof.ParseFloat (bytes_of_string "1_000")
         = BadNumber (fmt_Errorf "invalid syntax in %s value: %s"
                        [ArgS (bytes_of_string "float");
                         ArgS (bytes_of_string "1_000")])).
Proof.
  assert (H : In "_"%rune (bytes_of_string "1_000")).
  { vm_compute. right. left. reflexivity. }
  split; [exact H|].
  exact (X26_underscore_is_rejected atof.ParseFloat (bytes_of_string "1_000") H).
Defined.


(** ** When [Lex] returns 0 *)

(** The reader keeps [io.EOF] only at the end of its data. *)
Definition eofAtEnd (rr : runeReader) : Prop :=
  err rr = Some io_EOF -> pos rr = len (data rr).

Lemma readRune_atEnd rr :
  wf rr -> eofAtEnd rr ->
  total readRune rr (fun r rr' => readRune_post rr r rr' /\ eofAtEnd rr').
Proof.
  intros Hwf He. apply total_and; [apply readRune_spec, Hwf|].
  unfold total, readRune, bind, get, put, ret, eofAtEnd in *.
  destruct (err rr) as [e|] eqn:E; cbn [err pos data].
  { rewrite E. exact He. }
  destruct (pos rr =? len (data rr)) eqn:Hp; cbn [err pos data].
  { intros _. now apply Z.eqb_eq. }
  destruct (utf8.DecodeRune _) as [r sz].
  destruct (r =? utf8.RuneError); cbn [err pos data]; discriminate.
Qed.

(** A read from a well-formed reader that keeps [io.EOF] only at its end. *)
Ltac ae_read :=
  lazymatch goal with
  | Hwf : wf ?s, He : eofAtEnd ?s |- total readRune ?s _ =>
    let c := fresh "c" in
    let sz := fresh "sz" in
    let e := fresh "e" in
    let s' := fresh "s" in
    let H := fresh "Hrd" in
    let Ha := fresh "Ha" in
    let Hw := fresh "Hwf" in
    let He' := fresh "Hend" in
    eapply total_weaken; [apply (readRune_atEnd s Hwf He)|];
    intros [[c sz] e] s' [H He'];
    pose proof (readRune_adv _ _ _ _ _ Hwf H) as Ha;
    pose proof (adv_wf _ _ Hwf Ha) as Hw;
    destruct e
  end.

(** An unread of a rune just read: the reader has no error then. *)
Ltac ae_unread :=
  lazymatch goal with
  | Hrd : readRune_post _ (_, _, None) ?s |- total (unreadRune _) ?s _ =>
    let s' := fresh "s" in
    let Hd := fresh "Hd" in
    let Hm := fresh "Hm" in
    let Hp := fresh "Hp" in
    let He := fresh "He" in
    let Hw := fresh "Hwf" in
    let Hend := fresh "Hend" in
    apply unreadRune_total;
    [ rr_lia
    | intros s' Hd Hm Hp He;
      assert (Hw : wf s') by rr_lia;
      assert (Hend : eofAtEnd s')
        by (unfold eofAtEnd; rewrite He;
            let Hn := fresh in
            pose proof Hrd as Hn; simpl in Hn;
            destruct Hn as (_ & _ & _ & Hn & _); rewrite Hn; discriminate) ]
  end.

Ltac ae_step :=
  first [ progress cbv beta iota zeta | ae_read | ae_unread | sl_match ].

Lemma readNumber_atEnd rr :
  wf rr -> eofAtEnd rr ->
  total readNumber rr (fun _ rr' => adv rr rr' /\ eofAtEnd rr').
Proof.
  intros Hwf He. unfold readNumber. mstep. mstep.
  apply (total_loop _ (fun _ s => adv rr s /\ eofAtEnd s) remaining);
    [ | split; [apply adv_refl, Hwf|exact He] | apply remaining_fuel, Hwf ].
  intros allowExpSign s [Hs He'].
  pose proof (adv_wf _ _ Hwf Hs) as Hwfs.
  repeat ae_step.
  all: repeat split; try assumption; rr_lia.
Qed.

Lemma readIdentifier_atEnd rr :
  wf rr -> eofAtEnd rr ->
  total readIdentifier rr (fun _ rr' => adv rr rr' /\ eofAtEnd rr').
Proof.
  intros Hwf He. unfold readIdentifier. mstep. mstep.
  apply (total_loop _ (fun _ s => adv rr s /\ eofAtEnd s) remaining);
    [ | split; [apply adv_refl, Hwf|exact He] | apply remaining_fuel, Hwf ].
  intros [] s [Hs He'].
  pose proof (adv_wf _ _ Hwf Hs) as Hwfs.
  repeat ae_step.
  all: repeat split; try assumption; rr_lia.
Qed.

Lemma readRunes_atEnd n rr :
  wf rr -> eofAtEnd rr ->
  total (readRunes n) rr (fun _ rr' => adv rr rr' /\ eofAtEnd rr').
Proof.
  revert rr. induction n as [|n IH]; intros rr Hwf He; cbn [readRunes].
  - mstep. split; [apply adv_refl, Hwf|exact He].
  - mstep. ae_read.
    + mstep. split; assumption.
    + mstep. eapply total_weaken; [apply (IH _ Hwf0 Hend)|].
      intros [u e'] s2 [Ha2 He2]. mstep.
      split; [eapply adv_trans; eassumption|exact He2].
Qed.

Lemma readStringLiteral_body_atEnd quote buf s :
  wf s -> eofAtEnd s ->
  total (readStringLiteral_body quote buf) s
    (fun r s' =>
       adv s s' /\ eofAtEnd s' /\
       match r with
       | inl _ => (remaining s' < remaining s)%nat
       | inr _ => True
       end).
Proof.
  intros Hwf He. unfold readStringLiteral_body. cbv zeta.
  repeat first
    [ ae_step
    | lazymatch goal with
      | Hw : wf ?s1, Hx : eofAtEnd ?s1 |- total (readRunes ?n) ?s1 _ =>
        let u := fresh "u" in
        let e := fresh "e" in
        let s' := fresh "s" in
        let Ha := fresh "Ha" in
        let Hn := fresh "Hend" in
        let Hw' := fresh "Hwf" in
        eapply total_weaken; [apply (readRunes_atEnd n s1 Hw Hx)|];
        intros [u e] s' [Ha Hn];
        pose proof (adv_wf _ _ Hw Ha) as Hw'
      end ].
  all: split; [rr_lia|]; split; [assumption|]; first [exact I | rr_lia].
Qed.

Lemma readStringLiteral_atEnd quote rr :
  wf rr -> eofAtEnd rr ->
  total (readStringLiteral quote) rr (fun _ rr' => adv rr rr' /\ eofAtEnd rr').
Proof.
  intros Hwf He. unfold readStringLiteral. mstep. mstep.
  apply (total_loop _ (fun _ s => adv rr s /\ eofAtEnd s) remaining);
    [ | split; [apply adv_refl, Hwf|exact He] | apply remaining_fuel, Hwf ].
  intros buf s [Hs He'].
  pose proof (adv_wf _ _ Hwf Hs) as Hwfs.
  eapply total_weaken; [apply (readStringLiteral_body_atEnd quote buf s Hwfs He')|].
  intros r s' (Ha & Hend & Hr).
  assert (Hadv : adv rr s') by (eapply adv_trans; eassumption).
  destruct r as [buf'|[str e]].
  - split; [split; assumption|exact Hr].
  - split; assumption.
Qed.


(** Steps of a computation on the lexer state, for such a reader. *)
Ltac lx_ae :=
  first
    [ progress cbv beta iota zeta
    | progress lx_simpl
    | lazymatch goal with
      | |- total (on_input _) _ _ => apply total_on_input
      | |- total get _ _ => apply total_get
      | |- total (put _) _ _ => apply total_put
      | |- total (modify _) _ _ => apply total_modify
      | |- total offset _ _ => unfold offset
      | |- total setMark _ _ => unfold setMark
      | |- total getMark _ _ => unfold getMark
      | |- total (maybeNewLine _) _ _ => unfold maybeNewLine
      | |- total (setError _ _) _ _ => apply setError_exact
      end
    | ae_read
    | ae_unread
    | sl_match ].

Lemma skipToEndOfLineComment_atEnd lval l :
  wf (input l) -> eofAtEnd (input l) ->
  total (skipToEndOfLineComment lval) l
    (fun _ l' => adv (input l) (input l') /\ eofAtEnd (input l')).
Proof.
  intros Hwf He. unfold skipToEndOfLineComment. apply total_bind, total_get.
  apply (total_loop _
           (fun _ s => adv (input l) (input s) /\ eofAtEnd (input s))
           (fun s => remaining (input s)));
    [ | split; [apply adv_refl, Hwf|exact He] | apply remaining_fuel, Hwf ].
  intros [] s [Hs He'].
  pose proof (adv_wf _ _ Hwf Hs) as Hwfs.
  repeat lx_ae.
  all: lx_simpl; repeat split; try assumption; rr_lia.
Qed.

Lemma skipToEndOfBlockComment_atEnd lval l :
  wf (input l) -> eofAtEnd (input l) ->
  total (skipToEndOfBlockComment lval) l
    (fun _ l' => adv (input l) (input l') /\ eofAtEnd (input l')).
Proof.
  intros Hwf He. unfold skipToEndOfBlockComment. apply total_bind, total_get.
  apply (total_loop _
           (fun _ s => adv (input l) (input s) /\ eofAtEnd (input s))
           (fun s => remaining (input s)));
    [ | split; [apply adv_refl, Hwf|exact He] | apply remaining_fuel, Hwf ].
  intros [] s [Hs He'].
  pose proof (adv_wf _ _ Hwf Hs) as Hwfs.
  repeat lx_ae.
  all: lx_simpl; repeat split; try assumption; rr_lia.
Qed.

(** What a round of [Lex] leaves of the reader: it keeps [io.EOF] only at
    its end, and the round returns 0 only there. *)
Definition Lex_body_atEnd (r : unit + symbol * protoSymType) (l' : protoLex)
  : Prop :=
  eofAtEnd (input l')
  /\ match r with
     | inr (TK c, _) => c = 0 -> pos (input l') = len (data (input l'))
     | _ => True
     end.

(** Calls of the functions of the lexer, for such a reader. *)
Ltac ae_call :=
  lazymatch goal with
  | Hw : wf ?s, Hx : eofAtEnd ?s |- total readNumber ?s _ =>
    let s' := fresh "s" in
    let Ha := fresh "Ha" in
    let Hn := fresh "Hend" in
    let Hw' := fresh "Hwf" in
    eapply total_weaken; [apply (readNumber_atEnd s Hw Hx)|];
    intros [] s' [Ha Hn]; pose proof (adv_wf _ _ Hw Ha) as Hw'
  | Hw : wf ?s, Hx : eofAtEnd ?s |- total readIdentifier ?s _ =>
    let s' := fresh "s" in
    let Ha := fresh "Ha" in
    let Hn := fresh "Hend" in
    let Hw' := fresh "Hwf" in
    eapply total_weaken; [apply (readIdentifier_atEnd s Hw Hx)|];
    intros [] s' [Ha Hn]; pose proof (adv_wf _ _ Hw Ha) as Hw'
  | Hw : wf ?s, Hx : eofAtEnd ?s |- total (readStringLiteral ?q) ?s _ =>
    let s' := fresh "s" in
    let Ha := fresh "Ha" in
    let Hn := fresh "Hend" in
    let Hw' := fresh "Hwf" in
    let str := fresh "str" in
    let e := fresh "e" in
    eapply total_weaken; [apply (readStringLiteral_atEnd q s Hw Hx)|];
    intros [str e] s' [Ha Hn]; pose proof (adv_wf _ _ Hw Ha) as Hw'
  | |- total (skipToEndOfLineComment ?lv) ?s _ =>
    let lv' := fresh "lv" in
    let hasErr := fresh "hasErr" in
    let s' := fresh "l" in
    let Ha := fresh "Ha" in
    let Hn := fresh "Hend" in
    eapply total_weaken;
    [apply (skipToEndOfLineComment_atEnd lv s); lx_simpl; assumption|];
    intros [lv' hasErr] s' [Ha Hn]
  | |- total (skipToEndOfBlockComment ?lv) ?s _ =>
    let lv' := fresh "lv" in
    let ok := fresh "ok" in
    let hasErr := fresh "hasErr" in
    let s' := fresh "l" in
    let Ha := fresh "Ha" in
    let Hn := fresh "Hend" in
    eapply total_weaken;
    [apply (skipToEndOfBlockComment_atEnd lv s); lx_simpl; assumption|];
    intros [[lv' ok] hasErr] s' [Ha Hn]
  | |- total (setRune _ _) _ _ =>
    let lv := fresh "lv" in
    let l' := fresh "l" in
    let He := fresh "Hem" in
    apply setRune_frame; intros lv l' He
  | |- total (setIdent _ _) _ _ =>
    let lv := fresh "lv" in
    let l' := fresh "l" in
    let He := fresh "Hem" in
    apply setIdent_frame; intros lv l' He
  | |- total (setInt _ _) _ _ =>
    let lv := fresh "lv" in
    let l' := fresh "l" in
    let He := fresh "Hem" in
    apply setInt_frame; intros lv l' He
  | |- total (setFloat _ _) _ _ =>
    let lv := fresh "lv" in
    let l' := fresh "l" in
    let He := fresh "Hem" in
    apply setFloat_frame; intros lv l' He
  | |- total (setString _ _) _ _ =>
    let lv := fresh "lv" in
    let l' := fresh "l" in
    let He := fresh "Hem" in
    apply setString_frame; intros lv l' He
  | |- total newToken _ _ => unfold newToken; cbn [ast.AddToken]
  | |- total (emitNumber _ ?t) _ _ => unfold emitNumber; destruct t
  | |- total (lexRune _ _) _ _ => unfold lexRune
  | |- total (match ?e with io_EOF => _ | _ => _ end) _ _ => destruct e
  end.

(** The facts at the end of a branch of the round, taken apart. *)
Ltac ae_prep :=
  unfold Lex_body_atEnd, emitted' in *;
  lx_simpl;
  repeat match goal with
         | H : _ /\ _ |- _ => destruct H
         end;
  repeat match goal with
         | H : input ?x = _ |- _ => rewrite H in *; clear H
         end;
  lx_simpl.

Ltac ae_close :=
  split; [assumption|];
  first
    [ exact I
    | intros ->;
      first
        [ discriminate
        | match goal with
          | H : eofAtEnd ?s |- pos ?s = _ => apply H; rr_lia
          end ] ].

Lemma Lex_body_atEnd_spec lval l :
  wf (input l) -> eofAtEnd (input l) ->
  total (Lex_body lval tt) l Lex_body_atEnd.
Proof.
  intros Hwf He. unfold Lex_body.
  repeat lx_step.
  set (m0 := {| data := data (input l); pos := pos (input l);
                err := err (input l); mark := pos (input l) |}).
  assert (Hwf0 : wf m0) by (unfold wf in *; simpl; lia).
  assert (He0 : eofAtEnd m0) by exact He.
  clearbody m0.
  repeat first [ lx_ae | ae_call ].
  all: ae_prep.
  all: try (ae_close; fail).
  - (* the end of the input *)
    split; [assumption|]. intros _. apply Hend.
    simpl in Hrd. apply Hrd.
  - (* a keyword is no rune *)
    split; [assumption|].
    match goal with
    | H : keyword_lookup keywords _ = Some _ |- _ =>
      apply keyword_lookup_kind in H; destruct H as [_ Hk]
    end.
    destruct s1; try exact I. now elim (Hk c0).
Qed.

(** A call of [Lex] on such a reader leaves such a reader, and returns 0
    only when the handler has failed or the reader is at the end of its
    data. *)
Lemma Lex_atEnd lval l :
  wf (input l) -> eofAtEnd (input l) ->
  total (Lex lval) l
    (fun r l' =>
       wf (input l') /\ eofAtEnd (input l')
       /\ (fst r = TK 0 ->
           reporter.ReporterError (handler l') <> None
           \/ pos (input l') = len (data (input l')))).
Proof.
  intros Hwf He. unfold Lex. apply total_bind, total_get.
  destruct (reporter.ReporterError (handler l)) as [e|] eqn:Hrep.
  { apply total_ret. split; [exact Hwf|]. split; [exact He|].
    intros _. left. rewrite Hrep. discriminate. }
  apply total_bind, total_put.
  apply (total_loop _
           (fun _ s => wf (input s) /\ eofAtEnd (input s)
                       /\ data (input s) = data (input l))
           (fun s => remaining (input s)));
    [ | split; [exact Hwf|split; [exact He|reflexivity]]
      | apply remaining_fuel, Hwf ].
  intros [] s (Hwfs & Hes & Hd).
  eapply total_weaken;
    [apply total_and;
     [apply (Lex_body_spec lval s Hwfs)|apply (Lex_body_atEnd_spec lval s Hwfs Hes)]|].
  intros r s' [(Hwf' & Hd' & Hpost) [Hend Hz]].
  destruct r as [[]|[k lv]].
  - destruct Hpost as (Hlt & _).
    split; [|exact Hlt]. split; [exact Hwf'|]. split; [exact Hend|congruence].
  - split; [exact Hwf'|]. split; [exact Hend|].
    cbn [fst]. intros ->. right. now apply Hz.
Qed.

Lemma LexN_atEnd n l :
  wf (input l) -> eofAtEnd (input l) ->
  total (LexN n) l (fun _ l' => wf (input l') /\ eofAtEnd (input l')).
Proof.
  revert l. induction n as [|n IH]; intros l Hwf He; cbn [LexN].
  - apply total_ret. split; assumption.
  - apply total_bind.
    eapply total_weaken; [apply (Lex_atEnd empty_sym l Hwf He)|].
    intros r l1 (Hwf1 & He1 & _). apply total_bind.
    eapply total_weaken; [apply (IH l1 Hwf1 He1)|].
    intros rs l2 H. apply total_ret. exact H.
Qed.

(** X27: 0 means the end.  On a lexer made by [newLexer], whatever the
    source and however many calls of [Lex] came before, a call of [Lex]
    returns 0 only when the handler has failed or every byte of the source
    has been read: no rune of the source, not even a NUL byte, makes [Lex]
    return 0. *)
Theorem X27_zero_only_at_the_end (src : gostring) (filename : string)
    (h : reporter.Handler) (n : nat) (lval : protoSymType) :
  total (LexN n ;; Lex lval) (newLexer src filename h)
    (fun r l' =>
       fst r = TK 0 ->
       reporter.ReporterError (handler l') <> None
       \/ pos (input l') = len (data (input l'))).
Proof.
  assert (Hwf := newLexer_wf src filename h).
  assert (He : eofAtEnd (input (newLexer src filename h)))
    by (unfold eofAtEnd, newLexer; cbn [input err]; discriminate).
  apply total_bind.
  eapply total_weaken; [apply (LexN_atEnd n _ Hwf He)|].
  intros rs l1 [Hwf1 He1].
  eapply total_weaken; [apply (Lex_atEnd lval l1 Hwf1 He1)|].
  intros r l' (_ & _ & H). exact H.
Qed.

